(** * meet-speaking-time: speaking-time tracker, caption reconciliation, time formatter

    A shallow embedding of the TypeScript sources

    - [src/Participant.ts]: class [Participant];
    - [src/Utils.ts]: [formatTime], and the closed-captions module that the
      file holds after it ([mergeStrings], [ClosedCaptionEvent],
      [ClosedCaptions]).  The file holds two versions of that module; the
      embedding follows the one with [mergeStrings] and the interjection scan,

    and the properties of the design document that can be stated on them.

    Conventions of the embedding.

    - A JavaScript [number] that holds a timestamp or a duration is an integer
      number of milliseconds, modelled as [Z].  The sources only add, subtract,
      compare and multiply such numbers by small constants, which is exact on
      IEEE doubles below 2^53.
    - [new Date().getTime()] is an input of the model: every operation that
      reads the clock takes the value read as its argument [now].
    - A field of type [number] initialised with [null] is an [option Z].  The
      sources test such fields with [!x], which is true for [null] and also for
      the number [0]; [truthy] keeps that.
    - A JavaScript string is a list of characters ([list ascii]); [s.length] is
      [length s], [s[i]] is [s !! i] ([None] is [undefined]),
      [s.substring(0, n)] is [take n s] and [s + t] is [s ++ t].
    - Objects that are shared and mutated in place (the caption events) live in
      an explicit store; the containers hold references into it.
    - Logging ([Logger]) and DOM access have no effect on the modelled state
      and are left out; the DOM snapshot read by [mergeLatestCC] is an
      argument. *)

From Stdlib Require Import ZArith Lia List Bool Ascii String Sorted DecimalString.
From stdpp Require Import base list strings.

(** ** Shared JavaScript idioms *)

(** [x ? .. : ..] and [!x] on a value of type [number | null]:
    [null] and [0] are falsy. *)
Definition truthy (x : option Z) : bool :=
  match x with
  | Some t => negb (t =? 0)%Z
  | None => false
  end.

(** [null] converts to [0] in arithmetic and comparisons. *)
Definition toNumber (x : option Z) : Z :=
  match x with
  | Some t => t
  | None => 0%Z
  end.

(** Template-literal conversion [`${n}`] of an integer [number]. *)
Definition numberToString (n : Z) : string :=
  NilZero.string_of_int (Z.to_int n).

(** ** [src/Participant.ts] *)

Module Participant.

(** [ParticipantEventEnum] of [src/ParticipantEvent.ts]; the three members
    below are the ones [Participant.ts] constructs events with. *)
Inductive ParticipantEventEnum : Type :=
| JOINED
| START_SPEAKING
| STOP_SPEAKING.

(** The fields of [config] that [Participant.ts] reads. *)
Record Config : Type := { PersistEvents : bool }.

(** The mutable fields of a [Participant] ([initialId], [node], [name], the
    observer and the logger are never read by the methods modelled here). *)
Record Participant : Type := {
  events : list ParticipantEventEnum;
  speakingStrikeStart : option Z;   (* Start of current speaking event *)
  lastSpeakingEnd : option Z;       (* When did they stopped/pause speaking *)
  speakingStrikeTime : Z;           (* How long they are currently speaking, uninterrupted *)
  totalSpeakingTime : Z             (* How long they have been speaking this meeting, total *)
}.

Section Methods.
Variable config : Config.

Local Open Scope Z_scope.

(** [if (config.PersistEvents) this.events.push(new ParticipantEvent(e))] *)
Definition persist (e : ParticipantEventEnum) (evs : list ParticipantEventEnum)
  : list ParticipantEventEnum :=
  if PersistEvents config then evs ++ [e] else evs.

(** The state left by the constructor. *)
Definition fresh : Participant :=
  {| events := persist JOINED [];
     speakingStrikeStart := None;
     lastSpeakingEnd := None;
     speakingStrikeTime := 0;
     totalSpeakingTime := 0 |}.

Definition getLiveSpeakingTime (now : Z) (p : Participant) : Z :=
  if negb (truthy (speakingStrikeStart p)) then 0
  else now - toNumber (speakingStrikeStart p).

Definition getSpeakingStrikeTime (now : Z) (p : Participant) : Z :=
  speakingStrikeTime p + getLiveSpeakingTime now p.

Definition getTotalSpeakingTime (now : Z) (p : Participant) : Z :=
  totalSpeakingTime p + getLiveSpeakingTime now p.

Definition RECENCY_THRESHOLD_MS : Z := 2000.

(** [spokeRecently(referenceTime: number | null)]; a falsy [referenceTime]
    is replaced by the clock. *)
Definition spokeRecently (referenceTime : option Z) (now : Z) (p : Participant) : bool :=
  let referenceTime := if negb (truthy referenceTime) then now else toNumber referenceTime in
  match lastSpeakingEnd p with
  | None => false
  | Some e => e <? referenceTime - RECENCY_THRESHOLD_MS
  end.

Definition speaking (now : Z) (p : Participant) : Participant :=
  if negb (truthy (speakingStrikeStart p)) then
    {| events := persist START_SPEAKING (events p);
       speakingStrikeStart := Some now;
       lastSpeakingEnd := lastSpeakingEnd p;
       speakingStrikeTime := speakingStrikeTime p;
       totalSpeakingTime := totalSpeakingTime p |}
  else p.

Definition incrementSpeakingTime (value : Z) (p : Participant) : Participant :=
  {| events := events p;
     speakingStrikeStart := None;
     lastSpeakingEnd := lastSpeakingEnd p;
     speakingStrikeTime := speakingStrikeTime p + value;
     totalSpeakingTime := totalSpeakingTime p + value |}.

Definition pauseSpeaking (now : Z) (p : Participant) : Participant :=
  let p1 :=
    {| events := persist STOP_SPEAKING (events p);
       speakingStrikeStart := speakingStrikeStart p;
       lastSpeakingEnd := Some now;
       speakingStrikeTime := speakingStrikeTime p;
       totalSpeakingTime := totalSpeakingTime p |} in
  if truthy (speakingStrikeStart p1) then
    let speakingTime := now - toNumber (speakingStrikeStart p1) in
    incrementSpeakingTime speakingTime p1
  else p1.

Definition stopSpeaking (p : Participant) : Participant :=
  {| events := events p;
     speakingStrikeStart := None;
     lastSpeakingEnd := None;
     speakingStrikeTime := 0;
     totalSpeakingTime := totalSpeakingTime p |}.

(** The body of the microphone observer of [startObservers]:
    [isSpeaking ? this.speaking() : this.pauseSpeaking()]. *)
Definition onSignal (isSpeaking : bool) (now : Z) (p : Participant) : Participant :=
  if isSpeaking then speaking now p else pauseSpeaking now p.

(** The total speaking time read right after each signal of a run, at the
    time of that signal. *)
Fixpoint observedTotals (p : Participant) (signals : list (bool * Z)) : list Z :=
  match signals with
  | [] => []
  | (isSpeaking, now) :: rest =>
      let p' := onSignal isSpeaking now p in
      getTotalSpeakingTime now p' :: observedTotals p' rest
  end.

End Methods.

End Participant.

(** ** [src/Utils.ts]: [formatTime] *)

Module Utils.

Local Open Scope Z_scope.

(** [Math.floor((ms / unit) % modulus)] on an integer [ms].  The JavaScript
    [%] truncates towards zero, so on the reals
    [(ms / unit) % modulus = (ms rem (unit * modulus)) / unit], and
    [Math.floor] of that quotient is [Z.div], which rounds down. *)
Definition floorDivMod (ms unit modulus : Z) : Z :=
  Z.rem ms (unit * modulus) / unit.

(** [n < 10 ? '0' + n : n] *)
Definition pad (n : Z) : string :=
  if n <? 10 then ("0" +:+ numberToString n)%string else numberToString n.

Definition formatTime (ms : Z) : string :=
  let seconds := floorDivMod ms 1000 60 in
  let minutes := floorDivMod ms (60 * 1000) 60 in
  let hours := floorDivMod ms (3600 * 1000) 3600 in
  let timeStr := EmptyString in
  let timeStr :=
    if negb (hours =? 0) then (timeStr +:+ numberToString hours +:+ ":")%string
    else timeStr in
  let timeStr :=
    if negb (String.eqb timeStr EmptyString) || negb (minutes =? 0) then
      ((if negb (String.eqb timeStr EmptyString) then timeStr +:+ pad minutes
        else timeStr +:+ numberToString minutes) +:+ ":")%string
    else timeStr in
  let timeStr :=
    if negb (String.eqb timeStr EmptyString) || negb (seconds =? 0) then
      if negb (String.eqb timeStr EmptyString) then (timeStr +:+ pad seconds)%string
      else (numberToString seconds +:+ "s")%string
    else timeStr in
  timeStr.

End Utils.


(** ** [src/Utils.ts]: the closed-captions module *)

Module ClosedCaptions.

Abbreviation jsstring := (list ascii).

(** A string literal of the sources. *)
Definition str (s : string) : jsstring := list_ascii_of_string s.

(** How a call ends.  [TypeError] is the exception raised by
    [undefined.toLowerCase()] (a string indexed past its end) or by a method
    call on [undefined]; [OutOfFuel] is the model's own verdict when the
    iteration bound of a loop is used up, and is shown never to occur. *)
Inductive completion (A : Type) : Type :=
| Normal (a : A)
| TypeError
| OutOfFuel.
Arguments Normal {A} a.
Arguments TypeError {A}.
Arguments OutOfFuel {A}.

Definition INTERJECTIONS_TO_SEQUENCE_MIN_RATIO : Z := 5.
Definition SHORT_SEQUENCE_MAX_LENGTH_MS : Z := 3000.
Definition BASE_SEQUENCE_PER_WORD_LENGTH_MS : Z := 100.

(** [(str.match(/ /g) || []).length + 1] *)
Definition wordsInString (s : jsstring) : Z :=
  (Z.of_nat (length (filter (λ c, c = " "%char) s)) + 1)%Z.

Definition PUNCTUATION_CHARS : list ascii := ["."; "!"; "?"; ","]%char.

(** [PUNCTUATION_CHARS.has(c)] *)
Definition isPunctuation (c : ascii) : bool := bool_decide (c ∈ PUNCTUATION_CHARS).

(** [c.toLowerCase()] on one code unit below 256: the letters A-Z and the
    Latin-1 capitals U+00C0-U+00DE (U+00D7, the multiplication sign, apart)
    move up by 32; every other code unit is its own lower case. *)
Definition toLowerCase (c : ascii) : ascii :=
  let n := nat_of_ascii c in
  if ((65 <=? n) && (n <=? 90)) || ((192 <=? n) && (n <=? 222) && negb (n =? 215))
  then ascii_of_nat (n + 32)
  else c.

(** The default value of the parameter [requiredOverlapLength]; no caller
    passes another one. *)
Definition requiredOverlapLength : nat := 15.

(** The [while] loop of [mergeStrings], one iteration per unit of [fuel].
    The result is [Some idxStartMain] when the loop leaves with [foundString]
    set, [None] when it leaves because [idxMain] reached [mainString.length]. *)
Fixpoint mergeLoop (fuel : nat) (mainString updateString : jsstring)
    (idxMain idxStartMain idxUpdate : nat) : completion (option nat) :=
  match fuel with
  | O => OutOfFuel
  | S fuel =>
      if negb (idxMain <? length mainString) then Normal None
      else if requiredOverlapLength <=? idxUpdate then Normal (Some idxStartMain)
      else
        match mainString !! idxMain, updateString !! idxUpdate with
        | Some cm, Some cu =>
            let charInMain := toLowerCase cm in
            let charInUpdate := toLowerCase cu in
            if bool_decide (charInMain = charInUpdate) then
              mergeLoop fuel mainString updateString (S idxMain) idxStartMain (S idxUpdate)
            else if isPunctuation charInMain then
              mergeLoop fuel mainString updateString (S idxMain) idxStartMain idxUpdate
            else if isPunctuation charInUpdate then
              mergeLoop fuel mainString updateString idxMain idxStartMain (S idxUpdate)
            else
              mergeLoop fuel mainString updateString (S idxStartMain) (S idxStartMain) 0
        | _, _ => TypeError
        end
  end.

(** An iteration bound for [mergeLoop]: see [mergeLoop_terminates]. *)
Definition mergeFuel (mainString : jsstring) : nat :=
  S (S (length mainString) * (length mainString + requiredOverlapLength + 2)).

Definition mergeStrings (mainString updateString : jsstring) : completion jsstring :=
  if (length mainString <? 30) && (length updateString <? 30) then Normal updateString
  else
    match mergeLoop (mergeFuel mainString) mainString updateString 0 0 0 with
    | Normal (Some idxStartMain) => Normal (take idxStartMain mainString ++ updateString)
    | Normal None => Normal (mainString ++ updateString)
    | TypeError => TypeError
    | OutOfFuel => OutOfFuel
    end.

(** *** The merge as the design document words it

    "search for the smallest start offset in main at which a left-to-right
    scan matches the first k characters of update, comparing
    case-insensitively and skipping punctuation characters independently on
    either side; if a run of length k matches, splice; if no such run is
    found anywhere in main, fall back to naive concatenation". *)

(** The scan of the document from the cursors [i] (in main) and [j] (in
    update): it has matched once [j] passed the first [k] characters of
    update.  Each step moves a cursor, so [length main + k] steps decide. *)
Fixpoint scanMatches (steps : nat) (main update : jsstring) (i j : nat) : bool :=
  if requiredOverlapLength <=? j then true
  else
    match steps with
    | O => false
    | S steps =>
        match main !! i, update !! j with
        | Some cm, Some cu =>
            if bool_decide (toLowerCase cm = toLowerCase cu) then
              scanMatches steps main update (S i) (S j)
            else if isPunctuation (toLowerCase cm) then scanMatches steps main update (S i) j
            else if isPunctuation (toLowerCase cu) then scanMatches steps main update i (S j)
            else false
        | _, _ => false
        end
    end.

Definition matchesAt (main update : jsstring) (offset : nat) : bool :=
  scanMatches (length main + requiredOverlapLength) main update offset 0.

(** The smallest offset of [main] at which the scan matches, if any. *)
Definition smallestMatch (main update : jsstring) : option nat :=
  list_find (λ offset, matchesAt main update offset = true) (seq 0 (length main)) ≫= λ '(_, offset), Some offset.

Definition mergeSpec (main update : jsstring) : jsstring :=
  if (length main <? 30) && (length update <? 30) then update
  else
    match smallestMatch main update with
    | Some offset => take offset main ++ update
    | None => main ++ update
    end.

(** *** [class ClosedCaptionEvent] *)

Record ClosedCaptionEvent : Type := {
  when : Z;
  whenSpokeLast : Z;
  who : jsstring;
  what : jsstring;
  howLong : Z;
  interjection : bool;
  continuation : bool
}.

(** [new ClosedCaptionEvent(when, who, what)] *)
Definition newClosedCaptionEvent (when_ : Z) (who_ what_ : jsstring) : ClosedCaptionEvent :=
  let howLong_ := (BASE_SEQUENCE_PER_WORD_LENGTH_MS * wordsInString what_)%Z in
  {| when := when_ - howLong_;
     whenSpokeLast := when_;
     who := who_;
     what := what_;
     howLong := howLong_;
     interjection := false;
     continuation := false |}.

(** [this.completeFromUpdate(partialUpdate, sameTime)]: the object as the
    call leaves it, and how the call ends.  When [mergeStrings] throws, the
    timing fields have been assigned already and [what] has not. *)
Definition completeFromUpdate (this partialUpdate : ClosedCaptionEvent) (sameTime : bool)
  : ClosedCaptionEvent * completion unit :=
  let updateIsNotTrivial := negb (length (what this) =? length (what partialUpdate)) in
  let delaySinceLastEvent := (whenSpokeLast partialUpdate - whenSpokeLast this)%Z in
  let this1 :=
    if updateIsNotTrivial && negb sameTime then
      {| when := when this;
         whenSpokeLast := when partialUpdate;
         who := who this;
         what := what this;
         howLong := howLong this + delaySinceLastEvent;
         interjection := interjection this;
         continuation := continuation this |}
    else this in
  match mergeStrings (what this1) (what partialUpdate) with
  | Normal merged =>
      ({| when := when this1;
          whenSpokeLast := whenSpokeLast this1;
          who := who this1;
          what := merged;
          howLong := howLong this1;
          interjection := interjection this1;
          continuation := continuation this1 |}, Normal tt)
  | TypeError => (this1, TypeError)
  | OutOfFuel => (this1, OutOfFuel)
  end.

(** *** [class ClosedCaptions]

    The [ClosedCaptionEvent] objects that a container holds live in [store];
    a reference is an index of [store].  [events] is the finalized list and
    [eventsBuffer] the in-flight buffer, both lists of references.  The
    events that [mergeLatestCC] builds from the DOM are values until one of
    them is pushed on the buffer: before that no container can reach them. *)
Record ClosedCaptions : Type := {
  store : list ClosedCaptionEvent;
  events : list nat;
  eventsBuffer : list nat
}.

(** The state left by the constructor (without [source]). *)
Definition initial : ClosedCaptions :=
  {| store := []; events := []; eventsBuffer := [] |}.

(** [this.events.splice(0, this.events.length)] *)
Definition clear (cc : ClosedCaptions) : ClosedCaptions :=
  {| store := store cc; events := []; eventsBuffer := eventsBuffer cc |}.

Definition setInterjection (e : ClosedCaptionEvent) : ClosedCaptionEvent :=
  {| when := when e; whenSpokeLast := whenSpokeLast e; who := who e; what := what e;
     howLong := howLong e; interjection := true; continuation := continuation e |}.

Definition setContinuation (e : ClosedCaptionEvent) : ClosedCaptionEvent :=
  {| when := when e; whenSpokeLast := whenSpokeLast e; who := who e; what := what e;
     howLong := howLong e; interjection := interjection e; continuation := true |}.

(** [for (turnIdx = ..; turnIdx < turnCount - 1; turnIdx++)
       this.events[turnIdx].interjection = true],
    with [count] iterations left. *)
Fixpoint markInterjections (evs : list nat) (turnIdx count : nat)
    (st : list ClosedCaptionEvent) : list ClosedCaptionEvent :=
  match count with
  | O => st
  | S count =>
      let st :=
        match evs !! turnIdx with
        | Some r => alter setInterjection r st
        | None => st
        end in
      markInterjections evs (S turnIdx) count st
  end.

(** [this.events[i]], read through the store. *)
Definition turnAt (cc : ClosedCaptions) (i : nat) : option ClosedCaptionEvent :=
  match events cc !! i with
  | Some r => store cc !! r
  | None => None
  end.

(** The [while (interjectionCandidateTurnIndex >= 0)] loop of [_addEvent];
    [candidates] is [interjectionCandidateTurnIndex + 1].  A reference of a
    container always points into the store (see [wf]); the last branch of the
    [match] is there for totality only. *)
Fixpoint scanBack (candidates turnCount : nat) (cc : ClosedCaptions) : ClosedCaptions :=
  match candidates with
  | O => cc
  | S interjectionCandidateTurnIndex =>
      match turnAt cc (turnCount - 1), turnAt cc interjectionCandidateTurnIndex with
      | Some currentTurn, Some turn =>
          if bool_decide (who currentTurn = who turn) then
            if (interjectionCandidateTurnIndex <? turnCount - 2)
               && (howLong turn >?
                   (when currentTurn - whenSpokeLast turn) * INTERJECTIONS_TO_SEQUENCE_MIN_RATIO)%Z
            then
              let st :=
                markInterjections (events cc) (S interjectionCandidateTurnIndex)
                  (turnCount - 1 - S interjectionCandidateTurnIndex) (store cc) in
              let st :=
                match events cc !! (turnCount - 1) with
                | Some current => alter setContinuation current st
                | None => st
                end in
              {| store := st; events := events cc; eventsBuffer := eventsBuffer cc |}
            else cc
          else if (howLong turn >? SHORT_SEQUENCE_MAX_LENGTH_MS)%Z then cc
          else scanBack interjectionCandidateTurnIndex turnCount cc
      | _, _ => cc
      end
  end.

(** [this.events.push(event)], [event] a reference. *)
Definition pushEvent (event : nat) (cc : ClosedCaptions) : ClosedCaptions :=
  {| store := store cc; events := events cc ++ [event]; eventsBuffer := eventsBuffer cc |}.

(** [_addEvent(event)] *)
Definition _addEvent (event : nat) (cc : ClosedCaptions) : ClosedCaptions :=
  let cc := pushEvent event cc in
  let turnCount := length (events cc) in
  if 3 <=? turnCount then scanBack (turnCount - 1) turnCount cc else cc.

(** [_finalizeOldestBufferedEvent()].  [mergeLatestCC] calls it on a buffer
    that is not empty only. *)
Definition _finalizeOldestBufferedEvent (cc : ClosedCaptions) : ClosedCaptions :=
  match eventsBuffer cc with
  | finalizedEvent :: rest =>
      _addEvent finalizedEvent
        {| store := store cc; events := events cc; eventsBuffer := rest |}
  | [] => cc
  end.

(** One dialog of the closed-captions element, as [mergeLatestCC] reads
    it: the [innerText] of each of [aDialogDiv.querySelectorAll(':scope > div')]. *)
Abbreviation dialog := (list jsstring).

(** [newEvents]: one event per dialog that has exactly two inner blocks. *)
Definition scrape (now : Z) (dialogs : list dialog) : list ClosedCaptionEvent :=
  omap (λ authorAndSentenceDivs : dialog,
          match authorAndSentenceDivs with
          | [author; text] => Some (newClosedCaptionEvent now author text)
          | _ => None
          end) dialogs.

(** [while (this.eventsBuffer.length > newEvents.length)
       this._finalizeOldestBufferedEvent()] *)
Fixpoint finalizeWhileLonger (fuel newLength : nat) (cc : ClosedCaptions) : ClosedCaptions :=
  match fuel with
  | O => cc
  | S fuel =>
      if newLength <? length (eventsBuffer cc)
      then finalizeWhileLonger fuel newLength (_finalizeOldestBufferedEvent cc)
      else cc
  end.

(** The loop condition
    [newEvents.length && this.eventsBuffer.length
     && newEvents[0].who !== this.eventsBuffer[0].who].  The [None] branch
    is there for totality only (see [wf]). *)
Definition misaligned (newEvents : list ClosedCaptionEvent) (cc : ClosedCaptions) : bool :=
  match newEvents, eventsBuffer cc with
  | first :: _, r :: _ =>
      match store cc !! r with
      | Some oldest => negb (bool_decide (who first = who oldest))
      | None => false
      end
  | _, _ => false
  end.

Fixpoint finalizeWhileMisaligned (fuel : nat) (newEvents : list ClosedCaptionEvent)
    (cc : ClosedCaptions) : ClosedCaptions :=
  match fuel with
  | O => cc
  | S fuel =>
      if misaligned newEvents cc
      then finalizeWhileMisaligned fuel newEvents (_finalizeOldestBufferedEvent cc)
      else cc
  end.

(** [for (let idx = 0; idx < newEvents.length; idx++)] of [mergeLatestCC];
    [remaining] is [newEvents] from [idx] on and [newLength] is
    [newEvents.length].  An event that is pushed gets the next free
    reference of the store.  [this.eventsBuffer[idx]] is a live object
    whenever [idx < this.eventsBuffer.length] (see [wf]); the two [None]
    branches are there for totality only. *)
Fixpoint mergeEvents (remaining : list ClosedCaptionEvent) (idx newLength : nat)
    (cc : ClosedCaptions) : ClosedCaptions * completion unit :=
  match remaining with
  | [] => (cc, Normal tt)
  | newEvent :: remaining =>
      if idx <? length (eventsBuffer cc) then
        let sameTime := negb (idx =? newLength - 1) in
        match eventsBuffer cc !! idx with
        | Some r =>
            match store cc !! r with
            | Some this =>
                let '(this, c) := completeFromUpdate this newEvent sameTime in
                let cc := {| store := <[r := this]> (store cc); events := events cc;
                             eventsBuffer := eventsBuffer cc |} in
                match c with
                | Normal _ => mergeEvents remaining (S idx) newLength cc
                | TypeError => (cc, TypeError)
                | OutOfFuel => (cc, OutOfFuel)
                end
            | None => (cc, TypeError)
            end
        | None => (cc, TypeError)
        end
      else
        mergeEvents remaining (S idx) newLength
          {| store := store cc ++ [newEvent]; events := events cc;
             eventsBuffer := eventsBuffer cc ++ [length (store cc)] |}
  end.

(** [mergeLatestCC()], with the clock and the dialogs of the DOM as
    arguments.  The loops that finalize run at most once per buffered event. *)
Definition mergeLatestCC (now : Z) (dialogs : list dialog) (cc : ClosedCaptions)
  : ClosedCaptions * completion unit :=
  let newEvents := scrape now dialogs in
  let cc := finalizeWhileLonger (length (eventsBuffer cc)) (length newEvents) cc in
  let cc := finalizeWhileMisaligned (length (eventsBuffer cc)) newEvents cc in
  if length (eventsBuffer cc) <=? length newEvents
  then mergeEvents newEvents 0 (length newEvents) cc
  else (cc, Normal tt).

(** *** Views and invariants *)

(** The objects a list of references denotes. *)
Definition deref (cc : ClosedCaptions) (refs : list nat) : list (option ClosedCaptionEvent) :=
  map (λ r, store cc !! r) refs.

(** Every reference held points into the store, and no object is held
    twice, be it by one container or by both. *)
Definition wf (cc : ClosedCaptions) : Prop :=
  NoDup (events cc ++ eventsBuffer cc) ∧
  ∀ r, r ∈ events cc ++ eventsBuffer cc → r < length (store cc).

(** What a per-turn merge leaves alone in a turn: the speaker, the
    estimated start and the two classification flags. *)
Definition mergeKeeps (e e' : ClosedCaptionEvent) : Prop :=
  who e' = who e /\ when e' = when e /\
  interjection e' = interjection e /\ continuation e' = continuation e.

(** The states the engine can be in: the initial one, and those left by
    [mergeLatestCC] (however the call ended) and by [clear]. *)
Inductive reachable : ClosedCaptions → Prop :=
| reachable_initial : reachable initial
| reachable_merge now dialogs cc :
    reachable cc → reachable (mergeLatestCC now dialogs cc).1
| reachable_clear cc :
    reachable cc → reachable (clear cc).

End ClosedCaptions.

(** ** Concrete inputs used by the examples below *)

Module Examples.
Import ClosedCaptions.

Definition config : Participant.Config := {| Participant.PersistEvents := true |}.

(** A participant whose last utterance ended at time 1000. *)
Definition endedAt1000 : Participant.Participant :=
  Participant.pauseSpeaking config 1000 (Participant.fresh config).

(** [budgetMain] (48 characters) ends with the first 15 characters of
    [budgetUpdate]. *)
Definition budgetMain : jsstring := str "I think we should talk about the budget for next".
Definition budgetUpdate : jsstring := str "budget for next year and beyond".

(** [okayUpdate] is shorter than 15 characters and occurs in [okayMain]. *)
Definition okayMain : jsstring := str "I think that is okay so far and we continue".
Definition okayUpdate : jsstring := str "Okay.".

(** The long-overlap example of the design document: the last 19
    characters of [weatherMain] open [weatherUpdate]. *)
Definition weatherMain : jsstring := str "It looks to me like the weather is nice.".
Definition weatherUpdate : jsstring := str "the weather is nice today and".

(** One speaker, whose line is first a long sentence and then "Okay". *)
Definition plannedLine : dialog :=
  [str "Ana"; str "We initially planned it differently, but fine."].
Definition okayLine : dialog := [str "Ana"; str "Okay"].
Definition malformedLine : dialog := [str "Ana"].

Definition seenPlanned : ClosedCaptions :=
  (mergeLatestCC 10000 [plannedLine] initial).1.
Definition seenOkay : ClosedCaptions :=
  (mergeLatestCC 11000 [okayLine] seenPlanned).1.
Definition seenOkayAgain : ClosedCaptions :=
  (mergeLatestCC 12000 [okayLine] seenOkay).1.

(** Three turns: Ana for 8000 ms, Ben for 500 ms, Ana again 600 ms after
    her first turn was last updated. *)
Definition anaLong : ClosedCaptionEvent :=
  {| when := 12000; whenSpokeLast := 20000; who := str "Ana";
     what := str "so the plan for the next quarter is to"; howLong := 8000;
     interjection := false; continuation := false |}.
Definition benShort : ClosedCaptionEvent :=
  {| when := 20100; whenSpokeLast := 20500; who := str "Ben";
     what := str "Right."; howLong := 500;
     interjection := false; continuation := false |}.
Definition anaResumes : ClosedCaptionEvent :=
  {| when := 20600; whenSpokeLast := 21000; who := str "Ana";
     what := str "hire two people"; howLong := 400;
     interjection := false; continuation := false |}.

(** Ana and Ben are finalized; Ana's second turn is being added. *)
Definition sandwichLog : ClosedCaptions :=
  {| store := [anaLong; benShort; anaResumes]; events := [0; 1]; eventsBuffer := [] |}.

(** Ben, then Ana, are finalized; Ana's second turn is the oldest buffered
    one and directly follows her first. *)
Definition adjacentLog : ClosedCaptions :=
  {| store := [benShort; anaLong; anaResumes]; events := [0; 1]; eventsBuffer := [2] |}.

(** A turn first seen at 10000 and two later versions of its line. *)
Definition helloTurn : ClosedCaptionEvent :=
  newClosedCaptionEvent 10000 (str "Ana") (str "hello there").
Definition helloUpdate1 : ClosedCaptionEvent :=
  newClosedCaptionEvent 12000 (str "Ana") (str "hello there my friend").
Definition helloUpdate2 : ClosedCaptionEvent :=
  newClosedCaptionEvent 13000 (str "Ana") (str "hello there my friend yes").

(** The same three versions of the line, as three snapshots of the panel. *)
Definition helloSeen1 : ClosedCaptions :=
  (mergeLatestCC 10000 [[str "Ana"; str "hello there"]] initial).1.
Definition helloSeen2 : ClosedCaptions :=
  (mergeLatestCC 12000 [[str "Ana"; str "hello there my friend"]] helloSeen1).1.
Definition helloSeen3 : ClosedCaptions :=
  (mergeLatestCC 13000 [[str "Ana"; str "hello there my friend yes"]] helloSeen2).1.

End Examples.

(** ** Runs of a participant: signals and interruptions *)

Module ParticipantRuns.
Import Participant.

(** What happens to a [Participant] after its construction: the microphone
    observer calls [speaking] or [pauseSpeaking], and the summary timer of
    the meeting controller calls [stopSpeaking]. *)
Inductive step : Type :=
| Signal (isSpeaking : bool)
| StopSpeaking.

Definition applyStep (config : Config) (s : step) (now : Z) (p : Participant) : Participant :=
  match s with
  | Signal isSpeaking => onSignal config isSpeaking now p
  | StopSpeaking => stopSpeaking p
  end.

(** The participant after a sequence of steps, each with the clock it
    read. *)
Definition run (config : Config) (p : Participant) (steps : list (step * Z)) : Participant :=
  foldl (λ p '(s, now), applyStep config s now p) p steps.

(** The timing fields of a participant, that is all of them but the log of
    persisted events. *)
Definition timing (p : Participant) : option Z * option Z * Z * Z :=
  (speakingStrikeStart p, lastSpeakingEnd p, speakingStrikeTime p, totalSpeakingTime p).

(** The invariant of a run that started at clock [t0] and has reached
    clock [c]: the counters are ordered and bounded by the time elapsed, and
    an open strike started between [t0] and [c], after the time already
    committed. *)
Definition runInvariant (t0 c : Z) (p : Participant) : Prop :=
  (t0 <= c /\
   0 <= speakingStrikeTime p <= totalSpeakingTime p /\
   totalSpeakingTime p <= c - t0 /\
   (truthy (speakingStrikeStart p) = true ->
    t0 <= toNumber (speakingStrikeStart p) <= c /\
    totalSpeakingTime p <= toNumber (speakingStrikeStart p) - t0))%Z.

End ParticipantRuns.

(** ** [src/Utils.ts]: the meeting controller *)

Module MeetingController.
Import ClosedCaptions.

(** A [Participant] of the array [participants], with the fields that the
    controller reads besides the speaking times.  [microphoneObservers]
    holds the [MutationObserver]s that [startObservers] has created for the
    participant, the newest first, each with whether it is connected (it
    observes and [disconnect()] has not been called on it).  The field
    [microphoneObserver] of the source refers to the newest one; nothing
    refers to the older ones, which stay connected. *)
Record Tracked : Type := {
  initialId : jsstring;
  name : jsstring;
  profileImageUrl : jsstring;
  microphoneObservers : list bool;
  tracker : Participant.Participant
}.

(** Whether the field [microphoneObserver] is set. *)
Definition microphoneObserver (p : Tracked) : bool :=
  match microphoneObservers p with
  | [] => false
  | _ :: _ => true
  end.

Definition setTracker (t : Participant.Participant) (p : Tracked) : Tracked :=
  {| initialId := initialId p; name := name p; profileImageUrl := profileImageUrl p;
     microphoneObservers := microphoneObservers p; tracker := t |}.

(** What the document holds, at the time of a call, below the main element
    that [ParticipantNode] finds for an id: the [innerHTML] of each name
    element, the image element with its [src] attribute ([None] without the
    element, [Some None] without the attribute), and whether the microphone
    element is there. *)
Record MainElement : Type := {
  nameElements : list jsstring;
  imageProfileElement : option (option jsstring);
  microphoneElement : bool
}.

(** What the controller reads from the document for one node:
    [isPresentationNode(node)], [getParticipantInitialId(node)] and the main
    element of that id, [None] for [null]. *)
Record NodeView : Type := {
  isPresentationNode : bool;
  getParticipantInitialId : option jsstring;
  getMainElement : option MainElement
}.

(** [s || ''] on a value of type [string | null]. *)
Definition orEmpty (s : option jsstring) : jsstring :=
  match s with
  | Some s => s
  | None => []
  end.

(** [if (s)] on a value of type [string | null]: [null] and [''] are falsy. *)
Definition truthyString (s : option jsstring) : bool :=
  match s with
  | Some (_ :: _) => true
  | _ => false
  end.

(** [ParticipantNode.getName()]: without main element the name is [''];
    with a main element and no name element, [getNameElements()[0]] is
    [undefined] and reading [innerHTML] throws. *)
Definition getName (view : NodeView) : completion jsstring :=
  match getMainElement view with
  | None => Normal []
  | Some main =>
      match nameElements main with
      | [] => TypeError
      | first :: _ => Normal first
      end
  end.

(** [ParticipantNode.getImageProfileSrc()]: [getImageProfileElement()]
    throws without main element. *)
Definition getImageProfileSrc (view : NodeView) : completion (option jsstring) :=
  match getMainElement view with
  | None => TypeError
  | Some main =>
      match imageProfileElement main with
      | None => Normal (Some [])
      | Some src => Normal src
      end
  end.

(** [this.participants.find((item) => item.getIdentifier() == initialId)],
    with the index of the participant found. *)
Definition getParticipantByInitialId (id : jsstring) (participants : list Tracked)
  : option (nat * Tracked) :=
  list_find (λ item, initialId item = id) participants.

(** [isPresentationBox()] *)
Definition isPresentationBox (p : Tracked) : bool :=
  bool_decide (name p = []) && bool_decide (profileImageUrl p = []).

(** [startObservers()]: [getMicrophoneElement()] throws without main
    element; when the microphone element exists, a new observer is created,
    assigned to the field and connected.  The observer that the field held
    before is not disconnected. *)
Definition startObservers (view : NodeView) (p : Tracked) : Tracked * completion unit :=
  match getMainElement view with
  | None => (p, TypeError)
  | Some main =>
      if microphoneElement main then
        ({| initialId := initialId p; name := name p; profileImageUrl := profileImageUrl p;
            microphoneObservers := true :: microphoneObservers p;
            tracker := tracker p |}, Normal tt)
      else (p, Normal tt)
  end.

Section Roster.
Variable config : Participant.Config.

(** [new Participant(initialId)], [None] when the constructor throws. *)
Definition newParticipant (view : NodeView) (id : jsstring) : option Tracked :=
  match getName view, getImageProfileSrc view with
  | Normal n, Normal src =>
      Some {| initialId := id; name := n; profileImageUrl := orEmpty src;
              microphoneObservers := []; tracker := Participant.fresh config |}
  | _, _ => None
  end.

(** [onParticipantNodeAdded(node)].  When the constructor of [Participant]
    throws, nothing has been pushed yet.  A participant that is a
    presentation box is not pushed; its observer touches no participant of
    the array. *)
Definition onParticipantNodeAdded (view : NodeView) (participants : list Tracked)
  : list Tracked * completion unit :=
  if isPresentationNode view then (participants, Normal tt)
  else if truthyString (getParticipantInitialId view) then
    let id := orEmpty (getParticipantInitialId view) in
    match getParticipantByInitialId id participants with
    | Some (i, participant) =>
        let '(participant', c) := startObservers view participant in
        (<[i := participant']> participants, c)
    | None =>
        match newParticipant view id with
        | None => (participants, TypeError)
        | Some participant =>
            let '(participant', c) := startObservers view participant in
            if negb (isPresentationBox participant)
            then (participants ++ [participant'], c)
            else (participants, c)
        end
    end
  else (participants, Normal tt).

(** [stopObservers()]: [this.microphoneObserver.disconnect()] first, which
    throws when the field is unset and disconnects the newest observer
    otherwise, and [pauseSpeaking()] next. *)
Definition stopObservers (now : Z) (p : Tracked) : Tracked * completion unit :=
  match microphoneObservers p with
  | [] => (p, TypeError)
  | _ :: older =>
      ({| initialId := initialId p; name := name p; profileImageUrl := profileImageUrl p;
          microphoneObservers := false :: older;
          tracker := Participant.pauseSpeaking config now (tracker p) |}, Normal tt)
  end.

(** [onParticipantNodeRemoved(node)] *)
Definition onParticipantNodeRemoved (view : NodeView) (now : Z) (participants : list Tracked)
  : list Tracked * completion unit :=
  if truthyString (getParticipantInitialId view) then
    match getParticipantByInitialId (orEmpty (getParticipantInitialId view)) participants with
    | Some (i, participant) =>
        let '(participant', c) := stopObservers now participant in
        (<[i := participant']> participants, c)
    | None => (participants, Normal tt)
    end
  else (participants, Normal tt).

End Roster.

(** [getTotalSpokenTime()] *)
Definition getTotalSpokenTime (now : Z) (participants : list Tracked) : Z :=
  foldl (λ speakingTimeOfAllParticipants singleParticipant,
           speakingTimeOfAllParticipants
           + Participant.getTotalSpeakingTime now (tracker singleParticipant))%Z
        0%Z participants.

(** [Math.max(...speakingEnds)] for at least one argument; [null] counts as
    [0]. *)
Definition mathMax (first : option Z) (rest : list (option Z)) : Z :=
  foldl (λ m x, Z.max m (toNumber x)) (toNumber first) rest.

(** The first statements of the summary timer of [startSummaryLogger]:
    the participants whom [spokeRecently(mostRecentInterventionEnd)] selects
    are sent [stopSpeaking()].  The filter runs over all participants before
    the first [stopSpeaking].  Without participants [Math.max()] is
    [-Infinity], and nobody is there to be filtered.  [now] is the clock
    that [spokeRecently] reads when the maximum is [0]. *)
Definition resetInterrupted (now : Z) (participants : list Tracked) : list Tracked :=
  match participants with
  | [] => []
  | first :: rest =>
      let speakingEnds := map (λ p, Participant.lastSpeakingEnd (tracker p)) rest in
      let mostRecentInterventionEnd :=
        mathMax (Participant.lastSpeakingEnd (tracker first)) speakingEnds in
      map (λ p, if Participant.spokeRecently (Some mostRecentInterventionEnd) now (tracker p)
                then setTracker (Participant.stopSpeaking (tracker p)) p
                else p)
          participants
  end.

(** [s.replace(c, '')] for a one-character pattern: the first occurrence
    goes. *)
Fixpoint removeFirst (c : ascii) (s : jsstring) : jsstring :=
  match s with
  | [] => []
  | x :: s' => if bool_decide (x = c) then s' else x :: removeFirst c s'
  end.

(** [s.indexOf(c)], [None] for [-1]. *)
Fixpoint indexOf (c : ascii) (s : jsstring) : option nat :=
  match s with
  | [] => None
  | x :: s' => if bool_decide (x = c) then Some 0 else S <$> indexOf c s'
  end.

(** [getMeetingId()], [pathname] being [window.location.pathname || '']. *)
Definition getMeetingId (pathname : jsstring) : jsstring :=
  take (match indexOf "?"%char pathname with
        | Some i => i
        | None => length pathname
        end)
       (removeFirst "/"%char pathname).

End MeetingController.

(** ** Runs of the caption engine under a clock *)

Module ClosedCaptionsRuns.
Import ClosedCaptions.

(** [reachableBy c cc]: the engine can be in state [cc] after calls of
    [mergeLatestCC] whose clock readings never went back and were at most
    [c]. *)
Inductive reachableBy : Z → ClosedCaptions → Prop :=
| reachableBy_initial c : reachableBy c initial
| reachableBy_merge c now dialogs cc :
    reachableBy c cc → (c <= now)%Z → reachableBy now (mergeLatestCC now dialogs cc).1
| reachableBy_clear c cc :
    reachableBy c cc → reachableBy c (clear cc).

(** The fields of a turn that only [completeFromUpdate] writes. *)
Definition content (e : ClosedCaptionEvent) : Z * Z * jsstring * jsstring * Z :=
  (when e, whenSpokeLast e, who e, what e, howLong e).

(** [flagsRaised e e']: the turn [e'] is the turn [e] but for its two
    classification flags, and a flag that is set in [e] is set in [e']. *)
Definition flagsRaised (e e' : ClosedCaptionEvent) : Prop :=
  content e' = content e ∧
  (interjection e = true → interjection e' = true) ∧
  (continuation e = true → continuation e' = true).

(** [raisedWithin refs st st']: the store [st'] holds the objects of [st],
    with flags raised at most, and the objects whose reference is not in
    [refs] are as they were. *)
Definition raisedWithin (refs : list nat) (st st' : list ClosedCaptionEvent) : Prop :=
  length st' = length st ∧
  (∀ r e, st !! r = Some e → ∃ e', st' !! r = Some e' ∧ flagsRaised e e') ∧
  (∀ r, r ∉ refs → st' !! r = st !! r).

(** [finalizes cc cc']: the state [cc'] is [cc] after some calls of
    [_finalizeOldestBufferedEvent], as far as the containers and the
    contents of the turns tell: the oldest [k] buffered turns have moved to
    the end of the log in their order, no turn has changed but for flags
    raised, and no turn outside the log has changed at all. *)
Definition finalizes (cc cc' : ClosedCaptions) : Prop :=
  (∃ k, events cc' = events cc ++ take k (eventsBuffer cc) ∧
        eventsBuffer cc' = drop k (eventsBuffer cc)) ∧
  raisedWithin (events cc') (store cc) (store cc').

(** [timed c e]: the turn [e] lasts at least the base length of one word,
    and it started and was last extended by the clock reading [c]. *)
Definition timed (c : Z) (e : ClosedCaptionEvent) : Prop :=
  (BASE_SEQUENCE_PER_WORD_LENGTH_MS <= howLong e ∧
   whenSpokeLast e <= c ∧
   when e + BASE_SEQUENCE_PER_WORD_LENGTH_MS <= c)%Z.

(** The turns that [mergeLatestCC] builds from a snapshot read at [now]. *)
Definition scrapedAt (now : Z) (e : ClosedCaptionEvent) : Prop :=
  ∃ author text, e = newClosedCaptionEvent now author text.

End ClosedCaptionsRuns.


(** ** Lower case of a text and of a result *)

Module StringCase.
Import ClosedCaptions.

(** [s.toLowerCase()] for a text [s] of the alphabet of [jsstring], the
    code units below 256: there the lower case of a text is the lower case
    of its characters, one for one.  (Beyond this alphabet the lower case of
    a character can take two code units.) *)
Definition lowerCase (s : jsstring) : jsstring := map toLowerCase s.

(** [f] applied to what a call returns, when it returns. *)
Definition onResult {A B : Type} (f : A → B) (c : completion A) : completion B :=
  match c with
  | Normal a => Normal (f a)
  | TypeError => TypeError
  | OutOfFuel => OutOfFuel
  end.

End StringCase.

(** ** More concrete inputs *)

Module RunExamples.
Import ClosedCaptions MeetingController.

(** A run of one participant: a strike from 1000 to 4000, an interruption
    at 5000 and a strike that opens at 6000. *)
Definition interruptedRun : list (ParticipantRuns.step * Z) :=
  [(ParticipantRuns.Signal true, 1000); (ParticipantRuns.Signal false, 4000);
   (ParticipantRuns.StopSpeaking, 5000); (ParticipantRuns.Signal true, 6000)]%Z.

(** A participant who has paused once, at [now]. *)
Definition pausedAt (now : Z) : Participant.Participant :=
  Participant.pauseSpeaking Examples.config now (Participant.fresh Examples.config).

(** Ana paused at 1000 and Ben at 9000; Ana started a new strike at 9500.
    Ana has one observer, which is connected; Ben has none. *)
Definition ana : Tracked :=
  {| initialId := str "spaces/x/devices/1"; name := str "Ana";
     profileImageUrl := str "https://example.org/ana.png"; microphoneObservers := [true];
     tracker := Participant.speaking Examples.config 9500 (pausedAt 1000) |}.
Definition ben : Tracked :=
  {| initialId := str "spaces/x/devices/2"; name := str "Ben";
     profileImageUrl := str "https://example.org/ben.png"; microphoneObservers := [];
     tracker := pausedAt 9000 |}.
Definition roster : list Tracked := [ana; ben].

(** The box of a participant in the document. *)
Definition box (id name_ : jsstring) : NodeView :=
  {| isPresentationNode := false;
     getParticipantInitialId := Some id;
     getMainElement :=
       Some {| nameElements := [name_; name_];
               imageProfileElement := Some (Some (str "https://example.org/photo.png"));
               microphoneElement := true |} |}.
Definition anaBox : NodeView := box (initialId ana) (str "Ana").
Definition benBox : NodeView := box (initialId ben) (str "Ben").
Definition eveBox : NodeView := box (str "spaces/x/devices/3") (str "Eve").

(** Two speakers on the panel, then the same two with longer lines, then
    Ben alone. *)
Definition twoLines : list dialog :=
  [[str "Ana"; str "hello there"]; [str "Ben"; str "hi"]].
Definition twoLongerLines : list dialog :=
  [[str "Ana"; str "hello there everybody"]; [str "Ben"; str "hi Ana how are you"]].
Definition benAlone : list dialog := [[str "Ben"; str "hi Ana how are you today"]].

Definition seenTwo : ClosedCaptions := (mergeLatestCC 10000 twoLines initial).1.
Definition seenTwoLonger : ClosedCaptions := (mergeLatestCC 12000 twoLongerLines seenTwo).1.

(** Ben alone at 13000, which finalizes Ana's turn, and Eve alone at 14000. *)
Definition seenBen : ClosedCaptions := (mergeLatestCC 13000 benAlone seenTwo).1.
Definition eveAlone : list dialog := [[str "Eve"; str "sorry I am late"]].

(** The two turns that [seenTwo] holds. *)
Definition anaTurn : ClosedCaptionEvent :=
  newClosedCaptionEvent 10000 (str "Ana") (str "hello there").
Definition benTurn : ClosedCaptionEvent :=
  newClosedCaptionEvent 10000 (str "Ben") (str "hi").

(** A line of 8 characters and what follows it in its next version. *)
Definition hiThere : jsstring := str "Hi there".
Definition hiThereMore : jsstring := str ", how are you all doing today?".

End RunExamples.
(** * Properties of the speaking-time tracker *)

Section ParticipantProperties.
Import Participant.
Variable config : Config.
Local Open Scope Z_scope.

Lemma truthy_nonzero (t : Z) : t <> 0 -> truthy (Some t) = true.
Proof. intros H. simpl. now apply negb_true_iff, Z.eqb_neq. Qed.

(** C1, as amended.  [spokeRecently] answers [true] exactly when
    [lastSpeakingEnd] is set and lies more than [RECENCY_THRESHOLD_MS]
    (2000 ms) before the reference time, the reference time being the clock
    when the argument is [null] or [0]: the comparison
    [lastSpeakingEnd < referenceTime - 2000] has to be TRUE, not false. *)
Theorem spokeRecently_true_iff (referenceTime : option Z) (now : Z) (p : Participant) :
  spokeRecently referenceTime now p = true <->
  exists lastEnd,
    lastSpeakingEnd p = Some lastEnd /\
    lastEnd < (if truthy referenceTime then toNumber referenceTime else now) - 2000.
Proof.
  unfold spokeRecently, RECENCY_THRESHOLD_MS.
  destruct (truthy referenceTime); simpl;
    (destruct (lastSpeakingEnd p) as [e|];
     [ rewrite Z.ltb_lt; split;
       [ intros H; exists e; split; [reflexivity | exact H]
       | intros (e' & He & H); injection He as ->; exact H ]
     | split; [ discriminate | intros (e' & He & _); discriminate ] ]).
Qed.

(** The live time of a participant grows with the clock. *)
Lemma getLiveSpeakingTime_mono (p : Participant) (now now' : Z) :
  now <= now' -> getLiveSpeakingTime now p <= getLiveSpeakingTime now' p.
Proof.
  intros H. unfold getLiveSpeakingTime.
  destruct (truthy (speakingStrikeStart p)); simpl; lia.
Qed.

(** One signal never lowers the total read after it, whatever the state. *)
Lemma onSignal_total_mono (isSpeaking : bool) (p : Participant) (now now' : Z) :
  now <= now' ->
  getTotalSpeakingTime now p <= getTotalSpeakingTime now' (onSignal config isSpeaking now' p).
Proof.
  intros H.
  unfold getTotalSpeakingTime, getLiveSpeakingTime, onSignal, speaking, pauseSpeaking,
    incrementSpeakingTime.
  destruct isSpeaking; simpl.
  - destruct (truthy (speakingStrikeStart p)) eqn:E; simpl.
    + rewrite E. simpl. lia.
    + destruct (now' =? 0) eqn:E0; simpl; lia.
  - destruct (truthy (speakingStrikeStart p)) eqn:E; simpl; rewrite ?E; simpl; lia.
Qed.

Lemma observedTotals_sorted (signals : list (bool * Z)) :
  forall (p : Participant) (now0 : Z),
    Sorted Z.le (now0 :: map snd signals) ->
    Sorted Z.le (getTotalSpeakingTime now0 p :: observedTotals config p signals).
Proof.
  induction signals as [|[isSpeaking now] rest IH]; intros p now0 Hs; simpl.
  - repeat constructor.
  - simpl in Hs. apply Sorted_inv in Hs as [Hrest Hhd].
    apply HdRel_inv in Hhd.
    constructor.
    + apply IH. exact Hrest.
    + constructor. apply onSignal_total_mono. exact Hhd.
Qed.

(** C3.  Along any run of signals whose timestamps do not decrease, the
    total speaking time read at each signal (committed time plus the live
    time of the open run) does not decrease: the reading before the run and
    the readings after each signal form a sorted sequence. *)
Theorem observed_total_time_monotone (p : Participant) (now0 : Z)
    (signals : list (bool * Z)) :
  Sorted Z.le (now0 :: map snd signals) ->
  StronglySorted Z.le (getTotalSpeakingTime now0 p :: observedTotals config p signals).
Proof.
  intros Hs. apply Sorted_StronglySorted.
  - intros x y z. apply Z.le_trans.
  - apply observedTotals_sorted. exact Hs.
Qed.

(** C2.  The clock of the program, [new Date().getTime()], counts the
    milliseconds since 1970 and does not read 0; [t1 <> 0] says so.  From a
    fresh participant, a true signal at [t1] and a false signal at
    [t2 > t1] leave [totalSpeakingTime] at [t2 - t1], [speakingStrikeStart]
    unset and [lastSpeakingEnd] at [t2]; and a true signal received while
    [speakingStrikeStart] holds [t1] changes nothing. *)
Theorem strike_accounting (t1 t2 : Z) :
  t1 <> 0 -> t2 > t1 ->
  (let p := onSignal config false t2 (onSignal config true t1 (fresh config)) in
   totalSpeakingTime p = t2 - t1 /\
   speakingStrikeStart p = None /\
   lastSpeakingEnd p = Some t2) /\
  (forall (p : Participant) (now : Z),
     speakingStrikeStart p = Some t1 -> onSignal config true now p = p).
Proof.
  intros Ht1 Hlt. split.
  - unfold onSignal, speaking, pauseSpeaking, incrementSpeakingTime, fresh. simpl.
    rewrite (proj2 (Z.eqb_neq t1 0) Ht1). simpl. repeat split; lia.
  - intros p now Hs. unfold onSignal, speaking. rewrite Hs, truthy_nonzero by exact Ht1.
    reflexivity.
Qed.

(** C10.  A false signal that finds [speakingStrikeStart] unset still writes
    [lastSpeakingEnd := now]; it leaves [totalSpeakingTime],
    [speakingStrikeTime] and [speakingStrikeStart] as they were.  It is
    therefore not a no-op, a later false signal overwrites [lastSpeakingEnd]
    again, and the answer of [spokeRecently] changes with it. *)
Theorem pauseSpeaking_idle_refreshes_lastSpeakingEnd (p : Participant) (now : Z) :
  speakingStrikeStart p = None ->
  let p' := pauseSpeaking config now p in
  lastSpeakingEnd p' = Some now /\
  totalSpeakingTime p' = totalSpeakingTime p /\
  speakingStrikeTime p' = speakingStrikeTime p /\
  speakingStrikeStart p' = None /\
  (lastSpeakingEnd p <> Some now -> p' <> p) /\
  (forall now2 : Z, lastSpeakingEnd (pauseSpeaking config now2 p') = Some now2) /\
  (forall now2 referenceTime clock : Z,
     referenceTime <> 0 ->
     now < referenceTime - 2000 <= now2 ->
     spokeRecently (Some referenceTime) clock p' = true /\
     spokeRecently (Some referenceTime) clock (pauseSpeaking config now2 p') = false).
Proof.
  intros Hidle. unfold pauseSpeaking. simpl. rewrite Hidle. simpl.
  repeat split.
  - intros Hne Heq. apply Hne. rewrite <- Heq. reflexivity.
  - unfold spokeRecently, RECENCY_THRESHOLD_MS. simpl.
    rewrite (proj2 (Z.eqb_neq referenceTime 0)) by assumption. simpl.
    apply Z.ltb_lt. lia.
  - unfold spokeRecently, RECENCY_THRESHOLD_MS. simpl.
    rewrite (proj2 (Z.eqb_neq referenceTime 0)) by assumption. simpl.
    apply Z.ltb_ge. lia.
Qed.

End ParticipantProperties.

(** * Properties of the time formatter *)

Section FormatTimeProperties.
Import Utils.
Local Open Scope Z_scope.

(** On a millisecond count, the three components are the usual ones. *)
Lemma floorDivMod_nonneg (ms unit modulus : Z) :
  0 <= ms -> 0 < unit -> 0 < modulus ->
  floorDivMod ms unit modulus = (ms / unit) mod modulus.
Proof.
  intros Hms Hu Hm. unfold floorDivMod.
  rewrite Z.rem_mod_nonneg by lia.
  rewrite Z.rem_mul_r by lia.
  rewrite (Z.mul_comm unit), Z.div_add by lia.
  rewrite Z.div_small by (apply Z.mod_pos_bound; lia).
  reflexivity.
Qed.

Lemma string_append_assoc (s t u : string) : ((s +:+ t) +:+ u = s +:+ (t +:+ u))%string.
Proof.
  induction s as [|c s IH]; [reflexivity|].
  change (String c ((s +:+ t) +:+ u) = String c (s +:+ (t +:+ u)))%string.
  now rewrite IH.
Qed.

Lemma append_colon_not_empty (s : string) : String.eqb (s +:+ ":") EmptyString = false.
Proof. destruct s; reflexivity. Qed.

Lemma formatTime_shape (ms : Z) :
  0 <= ms ->
  let h := (ms / 3600000) mod 3600 in
  let m := (ms / 60000) mod 60 in
  let s := (ms / 1000) mod 60 in
  formatTime ms =
    if h =? 0 then
      if m =? 0 then
        if s =? 0 then EmptyString else (numberToString s +:+ "s")%string
      else (numberToString m +:+ ":" +:+ pad s)%string
    else (numberToString h +:+ ":" +:+ pad m +:+ ":" +:+ pad s)%string.
Proof.
  intros Hms h m s. unfold formatTime.
  rewrite !floorDivMod_nonneg by lia.
  change (60 * 1000) with 60000. change (3600 * 1000) with 3600000.
  fold h m s.
  destruct (h =? 0) eqn:Eh; cbn [negb].
  - change (String.eqb EmptyString EmptyString) with true. cbn [negb orb].
    destruct (m =? 0) eqn:Em; cbn [negb].
    + destruct (s =? 0); reflexivity.
    + change (EmptyString +:+ numberToString m)%string with (numberToString m).
      rewrite append_colon_not_empty. cbn [negb orb].
      apply string_append_assoc.
  - change (EmptyString +:+ numberToString h +:+ ":")%string with (numberToString h +:+ ":")%string.
    rewrite append_colon_not_empty. cbn [negb orb].
    rewrite append_colon_not_empty. cbn [negb orb].
    now rewrite !string_append_assoc.
Qed.

(** C9.  [formatTime] is a function of the millisecond count alone.  It maps
    0 to the empty string, 45000 to "45s", 65000 to "1:05" and 3661000 to
    "1:01:01".  For every count [ms], with [h], [m], [s] its hour, minute and
    second components: the hours are left out when [h] is zero, the minutes
    too when [h] and [m] are zero; minutes are padded to two digits after
    hours, seconds after minutes, and nothing is padded in front; under one
    minute the result is the bare seconds followed by "s" (and nothing at
    all under one second). *)
Theorem formatTime_table_and_shape :
  (formatTime 0 = EmptyString /\
   formatTime 45000 = "45s" /\
   formatTime 65000 = "1:05" /\
   formatTime 3661000 = "1:01:01")%string /\
  forall ms : Z,
    0 <= ms ->
    (let h := (ms / 3600000) mod 3600 in
     let m := (ms / 60000) mod 60 in
     let s := (ms / 1000) mod 60 in
     formatTime ms =
       if h =? 0 then
         if m =? 0 then
           if s =? 0 then EmptyString else (numberToString s +:+ "s")%string
         else (numberToString m +:+ ":" +:+
               (if (s <? 10)%Z then "0" +:+ numberToString s else numberToString s))%string
       else (numberToString h +:+ ":" +:+
             (if (m <? 10)%Z then "0" +:+ numberToString m else numberToString m) +:+ ":" +:+
             (if (s <? 10)%Z then "0" +:+ numberToString s else numberToString s))%string) /\
    (ms < 60000 ->
     formatTime ms =
       if ms <? 1000 then EmptyString else (numberToString (ms / 1000) +:+ "s")%string).
Proof.
  split; [repeat split; vm_compute; reflexivity|].
  intros ms Hms. split.
  - apply formatTime_shape. exact Hms.
  - intros Hlt. rewrite formatTime_shape by exact Hms. cbv zeta.
    assert (Hh : ms / 3600000 = 0) by (apply Z.div_small; lia).
    assert (Hm : ms / 60000 = 0) by (apply Z.div_small; lia).
    rewrite Hh, Hm. cbn [Z.modulo Z.div_eucl Z.eqb].
    assert (Hs : 0 <= ms / 1000 < 60).
    { split; [apply Z.div_pos; lia | apply Z.div_lt_upper_bound; lia]. }
    rewrite (Z.mod_small (ms / 1000) 60) by exact Hs.
    destruct (ms <? 1000) eqn:E.
    + apply Z.ltb_lt in E. rewrite Z.div_small by lia. reflexivity.
    + apply Z.ltb_ge in E.
      assert (Hne : ms / 1000 <> 0).
      { intros H0. apply Z.div_small_iff in H0; lia. }
      rewrite (proj2 (Z.eqb_neq (ms / 1000) 0) Hne). reflexivity.
Qed.

End FormatTimeProperties.

(** The formatter at 3 723 000 ms, which is 1 h 02 min 03 s, and at
    59 000 ms. *)
Lemma formatTime_table_and_shape_witness :
  Utils.formatTime 3723000 = "1:02:03"%string /\ Utils.formatTime 59000 = "59s"%string.
Proof.
  destruct formatTime_table_and_shape as (_ & Hshape).
  split.
  - destruct (Hshape 3723000%Z ltac:(lia)) as (H & _). rewrite H. vm_compute. reflexivity.
  - destruct (Hshape 59000%Z ltac:(lia)) as (_ & H). rewrite H by lia. vm_compute. reflexivity.
Defined.

(** * Properties of the string merge *)

Section MergeStringsProperties.
Import ClosedCaptions.

(** The loop makes progress at every iteration: the pair made of the
    start offset and of the two cursors climbs in a lexicographic order that
    is bounded by the length of [mainString]. *)
Lemma mergeLoop_terminates (mainString updateString : jsstring) :
  forall (fuel idxMain idxStartMain idxUpdate : nat),
    idxStartMain <= idxMain ->
    (length mainString - idxStartMain) * (length mainString + requiredOverlapLength + 2)
      + (length mainString - idxMain) + (requiredOverlapLength - idxUpdate) < fuel ->
    mergeLoop fuel mainString updateString idxMain idxStartMain idxUpdate <> OutOfFuel.
Proof.
  induction fuel as [|fuel IH]; intros idxMain idxStartMain idxUpdate Hle Hfuel;
    [inversion Hfuel|].
  cbn [mergeLoop].
  destruct (idxMain <? length mainString) eqn:Em; cbn [negb]; [|discriminate].
  apply Nat.ltb_lt in Em.
  destruct (requiredOverlapLength <=? idxUpdate) eqn:Ek; [discriminate|].
  apply Nat.leb_gt in Ek.
  destruct (mainString !! idxMain) as [cm|]; [|discriminate].
  destruct (updateString !! idxUpdate) as [cu|]; [|discriminate].
  cbv zeta.
  repeat case_match; apply IH; try lia.
  replace (length mainString - idxStartMain)
    with (S (length mainString - S idxStartMain)) in Hfuel by lia.
  cbn [Nat.mul] in Hfuel.
  remember ((length mainString - S idxStartMain)
            * (length mainString + requiredOverlapLength + 2)) as P.
  lia.
Qed.

(** [mergeStrings] always ends: with a string or with the [TypeError]. *)
Lemma mergeStrings_terminates (mainString updateString : jsstring) :
  mergeStrings mainString updateString <> OutOfFuel.
Proof.
  unfold mergeStrings.
  destruct (_ && _); [discriminate|].
  pose proof (mergeLoop_terminates mainString updateString
                (mergeFuel mainString) 0 0 0 (Nat.le_refl 0)) as H.
  destruct (mergeLoop _ _ _ _ _ _) as [[s|]| |]; try discriminate.
  exfalso. apply H; [|reflexivity].
  unfold mergeFuel. cbn [Nat.mul]. rewrite Nat.sub_0_r.
  remember (length mainString * (length mainString + requiredOverlapLength + 2)) as P.
  lia.
Qed.

(** Short strings: the update replaces the text. *)
Lemma mergeStrings_short (mainString updateString : jsstring) :
  length mainString < 30 -> length updateString < 30 ->
  mergeStrings mainString updateString = Normal updateString.
Proof.
  intros Hm Hu. unfold mergeStrings.
  rewrite (proj2 (Nat.ltb_lt _ _) Hm), (proj2 (Nat.ltb_lt _ _) Hu). reflexivity.
Qed.

(** A long text merged with an empty update: the first iteration reads
    [updateString[0]], which is [undefined]. *)
Lemma mergeStrings_empty_update_throws (mainString : jsstring) :
  30 <= length mainString -> mergeStrings mainString [] = TypeError.
Proof.
  intros Hlen. unfold mergeStrings, mergeFuel.
  rewrite (proj2 (Nat.ltb_ge (length mainString) 30) Hlen). cbn [andb mergeLoop].
  rewrite (proj2 (Nat.ltb_lt 0 (length mainString))) by lia. cbn [negb].
  destruct (lookup_lt_is_Some_2 mainString 0 ltac:(lia)) as [c ->].
  reflexivity.
Qed.

(** Scanning a string against itself matches character by character. *)
Lemma mergeLoop_same (text : jsstring) :
  requiredOverlapLength < length text ->
  forall (n fuel i : nat),
    i + n = requiredOverlapLength -> n < fuel ->
    mergeLoop fuel text text i 0 i = Normal (Some 0).
Proof.
  intros Hlen. induction n as [|n IH]; intros fuel i Hi Hfuel;
    (destruct fuel as [|fuel]; [lia|]); cbn [mergeLoop].
  - rewrite (proj2 (Nat.ltb_lt i (length text))) by lia. cbn [negb].
    rewrite (proj2 (Nat.leb_le requiredOverlapLength i)) by lia. reflexivity.
  - rewrite (proj2 (Nat.ltb_lt i (length text))) by lia. cbn [negb].
    rewrite (proj2 (Nat.leb_gt requiredOverlapLength i)) by lia.
    destruct (lookup_lt_is_Some_2 text i ltac:(lia)) as [c Hc].
    rewrite Hc. cbv zeta. rewrite bool_decide_eq_true_2 by reflexivity.
    apply IH; lia.
Qed.

(** Merging a text with itself gives the text back. *)
Lemma mergeStrings_same (text : jsstring) :
  mergeStrings text text = Normal text.
Proof.
  unfold mergeStrings.
  destruct (length text <? 30) eqn:E; cbn [andb]; [reflexivity|].
  apply Nat.ltb_ge in E.
  rewrite (mergeLoop_same text) with (n := requiredOverlapLength);
    unfold mergeFuel, requiredOverlapLength in *; try lia.
  reflexivity.
Qed.

End MergeStringsProperties.

(** ** Where the loop and the design document agree *)

Section MergeStringsAgainstDocument.
Import ClosedCaptions.
Variables mainString updateString : jsstring.

(** An update of at least 15 characters is never indexed past its end. *)
Lemma mergeLoop_no_TypeError :
  requiredOverlapLength <= length updateString ->
  forall (fuel idxMain idxStartMain idxUpdate : nat),
    mergeLoop fuel mainString updateString idxMain idxStartMain idxUpdate <> TypeError.
Proof.
  intros Hlen. induction fuel as [|fuel IH]; intros idxMain idxStartMain idxUpdate;
    cbn [mergeLoop]; [discriminate|].
  destruct (idxMain <? length mainString) eqn:Em; cbn [negb]; [|discriminate].
  apply Nat.ltb_lt in Em.
  destruct (requiredOverlapLength <=? idxUpdate) eqn:Ek; [discriminate|].
  apply Nat.leb_gt in Ek.
  destruct (lookup_lt_is_Some_2 mainString idxMain Em) as [cm ->].
  destruct (lookup_lt_is_Some_2 updateString idxUpdate ltac:(lia)) as [cu ->].
  cbv zeta. repeat case_match; apply IH.
Qed.

Lemma mergeStrings_no_TypeError :
  requiredOverlapLength <= length updateString ->
  exists merged : jsstring, mergeStrings mainString updateString = Normal merged.
Proof.
  intros Hlen. unfold mergeStrings.
  destruct (_ && _); [eauto|].
  pose proof (mergeLoop_no_TypeError Hlen (mergeFuel mainString) 0 0 0) as Hno.
  pose proof (mergeLoop_terminates mainString updateString
                (mergeFuel mainString) 0 0 0 (Nat.le_refl 0)) as Hterm.
  destruct (mergeLoop _ _ _ _ _ _) as [[s|]| |]; eauto; try contradiction.
  exfalso. apply Hterm; [|reflexivity].
  unfold mergeFuel. cbn [Nat.mul]. rewrite Nat.sub_0_r.
  remember (length mainString * (length mainString + requiredOverlapLength + 2)) as P.
  lia.
Qed.

(** The scan of the document, unfolded by one step. *)
Lemma scanMatches_done (steps i j : nat) :
  requiredOverlapLength <= j -> scanMatches steps mainString updateString i j = true.
Proof.
  intros H. destruct steps; cbn [scanMatches];
    rewrite (proj2 (Nat.leb_le _ _) H); reflexivity.
Qed.

Lemma scanMatches_step (steps i j : nat) (cm cu : ascii) :
  j < requiredOverlapLength ->
  mainString !! i = Some cm -> updateString !! j = Some cu ->
  scanMatches (S steps) mainString updateString i j =
    if bool_decide (toLowerCase cm = toLowerCase cu) then
      scanMatches steps mainString updateString (S i) (S j)
    else if isPunctuation (toLowerCase cm) then scanMatches steps mainString updateString (S i) j
    else if isPunctuation (toLowerCase cu) then scanMatches steps mainString updateString i (S j)
    else false.
Proof.
  intros Hj Hm Hu. cbn [scanMatches].
  rewrite (proj2 (Nat.leb_gt _ _) Hj), Hm, Hu. reflexivity.
Qed.

Lemma scanMatches_zero (i j : nat) :
  j < requiredOverlapLength -> scanMatches 0 mainString updateString i j = false.
Proof. intros Hj. cbn [scanMatches]. rewrite (proj2 (Nat.leb_gt _ _) Hj). reflexivity. Qed.

(** The start offset that the loop reports is the smallest one at which
    the scan of the document matches.  [d] counts the steps the scan has
    made from [(idxStartMain, 0)] to the cursors of the loop. *)
Lemma mergeLoop_sound :
  forall (fuel idxMain idxStartMain idxUpdate d s : nat),
    (forall s', s' < idxStartMain -> matchesAt mainString updateString s' = false) ->
    (forall n, scanMatches (d + n) mainString updateString idxStartMain 0
               = scanMatches n mainString updateString idxMain idxUpdate) ->
    d + (length mainString - idxMain) + (requiredOverlapLength - idxUpdate)
      <= length mainString + requiredOverlapLength ->
    idxStartMain <= idxMain ->
    mergeLoop fuel mainString updateString idxMain idxStartMain idxUpdate = Normal (Some s) ->
    s < length mainString /\
    matchesAt mainString updateString s = true /\
    (forall s', s' < s -> matchesAt mainString updateString s' = false).
Proof.
  induction fuel as [|fuel IH]; intros idxMain idxStartMain idxUpdate d s Hsmaller Hpath Hd Hle Hrun;
    cbn [mergeLoop] in Hrun; [discriminate|].
  destruct (idxMain <? length mainString) eqn:Em; cbn [negb] in Hrun; [|discriminate].
  apply Nat.ltb_lt in Em.
  destruct (requiredOverlapLength <=? idxUpdate) eqn:Ek.
  - apply Nat.leb_le in Ek. injection Hrun as <-.
    split; [lia|]. split; [|exact Hsmaller].
    unfold matchesAt.
    replace (length mainString + requiredOverlapLength)
      with (d + (length mainString + requiredOverlapLength - d)) by lia.
    rewrite Hpath. apply scanMatches_done. exact Ek.
  - apply Nat.leb_gt in Ek.
    destruct (mainString !! idxMain) as [cm|] eqn:Hcm; [|discriminate].
    destruct (updateString !! idxUpdate) as [cu|] eqn:Hcu; [|discriminate].
    cbv zeta in Hrun.
    pose proof (fun n => scanMatches_step n idxMain idxUpdate cm cu Ek Hcm Hcu) as Hstep.
    assert (Hnext : forall n idxMain' idxUpdate',
              scanMatches (S n) mainString updateString idxMain idxUpdate
              = scanMatches n mainString updateString idxMain' idxUpdate' ->
              scanMatches (S d + n) mainString updateString idxStartMain 0
              = scanMatches n mainString updateString idxMain' idxUpdate').
    { intros n i' j' H. replace (S d + n) with (d + S n) by lia. rewrite Hpath. exact H. }
    destruct (bool_decide (toLowerCase cm = toLowerCase cu)) eqn:Eeq;
      [|destruct (isPunctuation (toLowerCase cm)) eqn:Epm;
        [|destruct (isPunctuation (toLowerCase cu)) eqn:Epu]].
    + apply (IH (S idxMain) idxStartMain (S idxUpdate) (S d) s Hsmaller);
        try exact Hrun; try lia.
      intros n. apply Hnext. rewrite Hstep. reflexivity.
    + apply (IH (S idxMain) idxStartMain idxUpdate (S d) s Hsmaller);
        try exact Hrun; try lia.
      intros n. apply Hnext. rewrite Hstep. reflexivity.
    + apply (IH idxMain idxStartMain (S idxUpdate) (S d) s Hsmaller);
        try exact Hrun; try lia.
      intros n. apply Hnext. rewrite Hstep. reflexivity.
    + apply (IH (S idxStartMain) (S idxStartMain) 0 0 s); try exact Hrun; try lia;
        [|reflexivity].
      intros s' Hs'. destruct (decide (s' = idxStartMain)) as [->|Hne];
        [|apply Hsmaller; lia].
      unfold matchesAt.
      replace (length mainString + requiredOverlapLength)
        with (d + S (length mainString + requiredOverlapLength - d - 1)) by lia.
      rewrite Hpath, Hstep. reflexivity.
Qed.

(** Whenever [mergeStrings] splices, it splices where the design document
    says, and the two merges are the same string. *)
Lemma mergeStrings_splice_agrees (s : nat) :
  mergeLoop (mergeFuel mainString) mainString updateString 0 0 0 = Normal (Some s) ->
  smallestMatch mainString updateString = Some s /\
  (30 <= length mainString \/ 30 <= length updateString ->
   mergeStrings mainString updateString = Normal (take s mainString ++ updateString) /\
   mergeSpec mainString updateString = take s mainString ++ updateString).
Proof.
  intros Hrun.
  destruct (mergeLoop_sound (mergeFuel mainString) 0 0 0 0 s) as (Hlt & Hmatch & Hmin);
    try exact Hrun; try lia; [reflexivity|].
  assert (Hsmallest : smallestMatch mainString updateString = Some s).
  { unfold smallestMatch.
    destruct (list_find _ _) as [[i x]|] eqn:Hfind.
    - apply list_find_Some in Hfind as (Hi & Hx & Hfirst).
      apply lookup_seq in Hi as [-> Hilt]. cbn [Nat.add] in *. cbn [mbind option_bind].
      f_equal. destruct (Nat.lt_trichotomy i s) as [Hlt'|[Heq|Hgt]]; [|exact Heq|].
      + rewrite (Hmin i Hlt') in Hx. discriminate Hx.
      + exfalso. apply (Hfirst s s); [|exact Hgt|exact Hmatch].
        apply lookup_seq. split; [reflexivity | exact Hlt].
    - exfalso. apply list_find_None in Hfind.
      apply (proj1 (Forall_forall _ _) Hfind s); [|exact Hmatch].
      apply elem_of_seq. lia. }
  split; [exact Hsmallest|].
  intros Hlong. unfold mergeStrings, mergeSpec. rewrite Hrun, Hsmallest.
  assert (Hshort : (length mainString <? 30) && (length updateString <? 30) = false).
  { apply andb_false_iff. destruct Hlong; [left | right]; apply Nat.ltb_ge; assumption. }
  rewrite Hshort. split; reflexivity.
Qed.

End MergeStringsAgainstDocument.

(** * Properties of the caption reconciliation engine *)

Section ClosedCaptionsFrame.
Import ClosedCaptions.

(** ** What finalization touches *)

Lemma markInterjections_length (evs : list nat) (count : nat) :
  forall (turnIdx : nat) (st : list ClosedCaptionEvent),
    length (markInterjections evs turnIdx count st) = length st.
Proof.
  induction count as [|count IH]; intros turnIdx st; cbn [markInterjections]; [reflexivity|].
  rewrite IH. destruct (evs !! turnIdx); [apply length_alter | reflexivity].
Qed.

Lemma scanBack_frame (turnCount : nat) (cc : ClosedCaptions) :
  forall candidates : nat,
    events (scanBack candidates turnCount cc) = events cc /\
    eventsBuffer (scanBack candidates turnCount cc) = eventsBuffer cc /\
    length (store (scanBack candidates turnCount cc)) = length (store cc).
Proof.
  induction candidates as [|idx IH]; cbn [scanBack]; [auto|].
  destruct (turnAt cc (turnCount - 1)) as [currentTurn|]; [|auto].
  destruct (turnAt cc idx) as [turn|]; [|auto].
  destruct (bool_decide _).
  - destruct (_ && _); [|auto]. cbn [events eventsBuffer store].
    split; [reflexivity|]. split; [reflexivity|].
    destruct (events cc !! (turnCount - 1));
      rewrite ?length_alter; apply markInterjections_length.
  - destruct (_ >? _)%Z; auto.
Qed.

Lemma _addEvent_frame (event : nat) (cc : ClosedCaptions) :
  events (_addEvent event cc) = events cc ++ [event] /\
  eventsBuffer (_addEvent event cc) = eventsBuffer cc /\
  length (store (_addEvent event cc)) = length (store cc).
Proof.
  unfold _addEvent. destruct (3 <=? _); [|auto].
  exact (scanBack_frame _ (pushEvent event cc) _).
Qed.

(** Finalization moves the oldest buffered reference to the end of the
    log, and moves nothing else. *)
Lemma _finalizeOldestBufferedEvent_frame (cc : ClosedCaptions) (r : nat) (rest : list nat) :
  eventsBuffer cc = r :: rest ->
  events (_finalizeOldestBufferedEvent cc) = events cc ++ [r] /\
  eventsBuffer (_finalizeOldestBufferedEvent cc) = rest /\
  length (store (_finalizeOldestBufferedEvent cc)) = length (store cc).
Proof.
  intros Hb. unfold _finalizeOldestBufferedEvent. rewrite Hb.
  apply (_addEvent_frame r {| store := store cc; events := events cc; eventsBuffer := rest |}).
Qed.

(** The references held, log first and buffer next, are the same list
    before and after a finalization. *)
Lemma _finalizeOldestBufferedEvent_held (cc : ClosedCaptions) :
  events (_finalizeOldestBufferedEvent cc) ++ eventsBuffer (_finalizeOldestBufferedEvent cc)
    = events cc ++ eventsBuffer cc /\
  length (store (_finalizeOldestBufferedEvent cc)) = length (store cc) /\
  length (eventsBuffer (_finalizeOldestBufferedEvent cc)) = pred (length (eventsBuffer cc)).
Proof.
  destruct (eventsBuffer cc) as [|r rest] eqn:Hb.
  - unfold _finalizeOldestBufferedEvent. rewrite Hb. rewrite Hb. auto.
  - destruct (_finalizeOldestBufferedEvent_frame cc r rest Hb) as (-> & -> & ->).
    rewrite <- app_assoc. auto.
Qed.

Lemma finalizeWhileLonger_spec (newLength : nat) :
  forall (fuel : nat) (cc : ClosedCaptions),
    let cc' := finalizeWhileLonger fuel newLength cc in
    events cc' ++ eventsBuffer cc' = events cc ++ eventsBuffer cc /\
    length (store cc') = length (store cc) /\
    (length (eventsBuffer cc) <= fuel -> length (eventsBuffer cc') <= newLength) /\
    (length (eventsBuffer cc) <= newLength -> cc' = cc).
Proof.
  induction fuel as [|fuel IH]; intros cc; cbn [finalizeWhileLonger].
  - repeat split; auto. lia.
  - destruct (newLength <? length (eventsBuffer cc)) eqn:E.
    + apply Nat.ltb_lt in E.
      destruct (_finalizeOldestBufferedEvent_held cc) as (Hheld & Hst & Hlen).
      destruct (IH (_finalizeOldestBufferedEvent cc)) as (H1 & H2 & H3 & _).
      cbv zeta. rewrite H1, H2. repeat split; auto.
      * intros Hf. apply H3. lia.
      * intros Hle. lia.
    + apply Nat.ltb_ge in E. cbv zeta. auto.
Qed.

Lemma misaligned_nil_buffer (newEvents : list ClosedCaptionEvent) (cc : ClosedCaptions) :
  eventsBuffer cc = [] -> misaligned newEvents cc = false.
Proof. intros H. unfold misaligned. rewrite H. destruct newEvents; reflexivity. Qed.

Lemma finalizeWhileMisaligned_spec (newEvents : list ClosedCaptionEvent) :
  forall (fuel : nat) (cc : ClosedCaptions),
    let cc' := finalizeWhileMisaligned fuel newEvents cc in
    events cc' ++ eventsBuffer cc' = events cc ++ eventsBuffer cc /\
    length (store cc') = length (store cc) /\
    length (eventsBuffer cc') <= length (eventsBuffer cc) /\
    (length (eventsBuffer cc) <= fuel -> misaligned newEvents cc' = false) /\
    (misaligned newEvents cc = false -> cc' = cc).
Proof.
  induction fuel as [|fuel IH]; intros cc; cbn [finalizeWhileMisaligned].
  - repeat split; auto. intros Hle. apply misaligned_nil_buffer.
    destruct (eventsBuffer cc); [reflexivity | simpl in Hle; lia].
  - destruct (misaligned newEvents cc) eqn:E.
    + destruct (_finalizeOldestBufferedEvent_held cc) as (Hheld & Hst & Hlen).
      destruct (IH (_finalizeOldestBufferedEvent cc)) as (H1 & H2 & H3 & H4 & _).
      cbv zeta. rewrite H1, H2. repeat split; auto; try lia; try discriminate.
      intros Hf. apply H4. lia.
    + cbv zeta. auto.
Qed.

(** ** The invariant *)

Lemma wf_initial : wf initial.
Proof. split; [constructor | intros r Hr; inversion Hr]. Qed.

Lemma wf_held (cc cc' : ClosedCaptions) :
  events cc' ++ eventsBuffer cc' = events cc ++ eventsBuffer cc ->
  length (store cc') = length (store cc) ->
  wf cc -> wf cc'.
Proof. intros Hh Hs [Hnd Hb]. split; rewrite Hh, ?Hs; assumption. Qed.

Lemma wf_clear (cc : ClosedCaptions) : wf cc -> wf (clear cc).
Proof.
  intros [Hnd Hb]. split; cbn [clear events eventsBuffer store app].
  - apply NoDup_app in Hnd. tauto.
  - intros r Hr. apply Hb, elem_of_app. auto.
Qed.

(** Under the invariant the reads of the model never miss: every turn of
    the log is a live object. *)
Lemma turnAt_wf (cc : ClosedCaptions) (i : nat) :
  wf cc -> i < length (events cc) -> is_Some (turnAt cc i).
Proof.
  intros [_ Hb] Hi. unfold turnAt.
  destruct (lookup_lt_is_Some_2 _ _ Hi) as [r Hr]. rewrite Hr.
  apply lookup_lt_is_Some_2, Hb, elem_of_app. left.
  apply list_elem_of_lookup. eauto.
Qed.

(** ** What a per-turn merge touches *)

Lemma mergeKeeps_refl (e : ClosedCaptionEvent) : mergeKeeps e e.
Proof. repeat split. Qed.

Lemma mergeKeeps_trans (e1 e2 e3 : ClosedCaptionEvent) :
  mergeKeeps e1 e2 -> mergeKeeps e2 e3 -> mergeKeeps e1 e3.
Proof. unfold mergeKeeps. intuition congruence. Qed.

Lemma completeFromUpdate_frame (this partialUpdate : ClosedCaptionEvent) (sameTime : bool) :
  mergeKeeps this (completeFromUpdate this partialUpdate sameTime).1.
Proof.
  unfold completeFromUpdate, mergeKeeps.
  destruct (_ && _); destruct (mergeStrings _ _); cbn; auto.
Qed.

Lemma completeFromUpdate_terminates (this partialUpdate : ClosedCaptionEvent) (sameTime : bool) :
  (completeFromUpdate this partialUpdate sameTime).2 <> OutOfFuel.
Proof.
  unfold completeFromUpdate.
  match goal with |- context [mergeStrings ?a ?b] =>
    pose proof (mergeStrings_terminates a b); destruct (mergeStrings a b) end;
    cbn; congruence.
Qed.

End ClosedCaptionsFrame.

Section ClosedCaptionsMerge.
Import ClosedCaptions.

Lemma NoDup_snoc_fresh (l : list nat) (x : nat) : x ∉ l -> NoDup l -> NoDup (l ++ [x]).
Proof.
  intros Hx Hl. apply NoDup_app. split; [exact Hl|]. split.
  - intros y Hy Hin. apply list_elem_of_singleton in Hin. subst. contradiction.
  - apply NoDup_singleton.
Qed.

(** A push allocates the next reference, which nobody holds yet. *)
Lemma wf_push (cc : ClosedCaptions) (newEvent : ClosedCaptionEvent) :
  wf cc ->
  wf {| store := store cc ++ [newEvent]; events := events cc;
        eventsBuffer := eventsBuffer cc ++ [length (store cc)] |}.
Proof.
  intros [Hnd Hb]. split; cbn [events eventsBuffer store].
  - rewrite app_assoc. apply NoDup_snoc_fresh; [|exact Hnd].
    intros Hin. apply Hb in Hin. lia.
  - intros r Hr. rewrite length_app. cbn [length].
    rewrite app_assoc in Hr. apply elem_of_app in Hr as [Hr|Hr].
    + apply Hb in Hr. lia.
    + apply list_elem_of_singleton in Hr. lia.
Qed.

Lemma wf_store_insert (cc : ClosedCaptions) (r : nat) (e : ClosedCaptionEvent) :
  wf cc ->
  wf {| store := <[r := e]> (store cc); events := events cc;
        eventsBuffer := eventsBuffer cc |}.
Proof.
  intros Hwf. apply (wf_held cc); [reflexivity | apply length_insert | exact Hwf].
Qed.

(** The merge loop: what it keeps, what it may change, and how long the
    buffer is when it returns. *)
Lemma mergeEvents_spec (newLength : nat) (remaining : list ClosedCaptionEvent) :
  forall (idx : nat) (cc cc' : ClosedCaptions) (c : completion unit),
    wf cc ->
    mergeEvents remaining idx newLength cc = (cc', c) ->
    wf cc' /\
    events cc' = events cc /\
    (exists k, eventsBuffer cc' = eventsBuffer cc ++ seq (length (store cc)) k /\
               length (store cc') = length (store cc) + k) /\
    (forall r e, store cc !! r = Some e ->
                 exists e', store cc' !! r = Some e' /\ mergeKeeps e e') /\
    (forall r, r ∉ eventsBuffer cc -> r < length (store cc) ->
               store cc' !! r = store cc !! r) /\
    c <> OutOfFuel /\
    (c = Normal tt ->
     idx <= length (eventsBuffer cc) ->
     length (eventsBuffer cc) <= idx + length remaining ->
     length (eventsBuffer cc') = idx + length remaining) /\
    (idx + length remaining <= length (eventsBuffer cc) ->
     eventsBuffer cc' = eventsBuffer cc /\ length (store cc') = length (store cc)).
Proof.
  induction remaining as [|newEvent remaining IH]; intros idx cc cc' c Hwf Hrun.
  - cbn in Hrun. injection Hrun as <- <-.
    split; [exact Hwf|]. split; [reflexivity|].
    split; [exists 0; cbn; rewrite app_nil_r, Nat.add_0_r; auto|].
    split; [intros r e He; exists e; split; [exact He | apply mergeKeeps_refl]|].
    split; [auto|]. split; [discriminate|].
    split; [|auto].
    intros _ H1 H2. cbn [length] in *. lia.
  - cbn [mergeEvents] in Hrun.
    destruct (idx <? length (eventsBuffer cc)) eqn:Elt.
    + apply Nat.ltb_lt in Elt.
      destruct (eventsBuffer cc !! idx) as [r|] eqn:Er;
        [|apply lookup_ge_None in Er; lia].
      assert (Hrin : r ∈ eventsBuffer cc) by (apply list_elem_of_lookup; eauto).
      assert (Hrlt : r < length (store cc)).
      { apply Hwf, elem_of_app. auto. }
      destruct (store cc !! r) as [this|] eqn:Ethis;
        [|apply lookup_ge_None in Ethis; lia].
      pose proof (completeFromUpdate_frame this newEvent
                    (negb (idx =? newLength - 1))) as Hwho.
      pose proof (completeFromUpdate_terminates this newEvent
                    (negb (idx =? newLength - 1))) as Hterm.
      destruct (completeFromUpdate this newEvent (negb (idx =? newLength - 1)))
        as [this' c1]. cbn [fst snd] in Hwho, Hterm.
      set (cc1 := {| store := <[r := this']> (store cc); events := events cc;
                     eventsBuffer := eventsBuffer cc |}) in *.
      assert (Hwf1 : wf cc1) by (apply wf_store_insert; exact Hwf).
      assert (Hwho1 : forall r0 e, store cc !! r0 = Some e ->
                 exists e', store cc1 !! r0 = Some e' /\ mergeKeeps e e').
      { intros r0 e He. cbn [cc1 store]. destruct (decide (r = r0)) as [<-|Hne].
        - rewrite list_lookup_insert_eq by exact Hrlt. exists this'. split; [reflexivity|].
          replace e with this by congruence. exact Hwho.
        - rewrite list_lookup_insert_ne by exact Hne. exists e. split; [exact He|].
          apply mergeKeeps_refl. }
      assert (Hframe1 : forall r0, r0 ∉ eventsBuffer cc -> store cc1 !! r0 = store cc !! r0).
      { intros r0 Hnin. cbn [cc1 store]. apply list_lookup_insert_ne.
        intros ->. contradiction. }
      assert (Hlen1 : length (store cc1) = length (store cc)) by apply length_insert.
      destruct c1 as [[]| |].
      * destruct (IH (S idx) cc1 cc' c Hwf1 Hrun)
          as (Hwf' & Hev & (k & Hbuf & Hst) & Hwho' & Hframe' & Hc & Hlen' & Hsame').
        split; [exact Hwf'|]. split; [exact Hev|].
        split; [exists k; rewrite Hbuf, Hst, Hlen1; auto|].
        split.
        { intros r0 e He. destruct (Hwho1 r0 e He) as (e1 & He1 & Hw1).
          destruct (Hwho' r0 e1 He1) as (e' & He' & Hw'). exists e'.
          split; [exact He' | exact (mergeKeeps_trans _ _ _ Hw1 Hw')]. }
        split.
        { intros r0 Hnin Hlt. rewrite Hframe' by (cbn [cc1 eventsBuffer]; auto; lia).
          apply Hframe1. exact Hnin. }
        split; [exact Hc|].
        split.
        { intros HN H1 H2. rewrite Hlen' by (cbn [cc1 eventsBuffer length] in *; auto; lia).
          cbn [length]. lia. }
        intros Hfit. cbn [length] in Hfit.
        destruct Hsame' as [-> ->]; [cbn [cc1 eventsBuffer]; lia|]. auto.
      * injection Hrun as <- <-.
        split; [exact Hwf1|]. split; [reflexivity|].
        split; [exists 0; cbn [seq]; rewrite app_nil_r, Nat.add_0_r; auto|].
        split; [exact Hwho1|]. split; [auto|]. split; [discriminate|].
        split; [discriminate|]. auto.
      * contradiction.
    + apply Nat.ltb_ge in Elt.
      set (cc1 := {| store := store cc ++ [newEvent]; events := events cc;
                     eventsBuffer := eventsBuffer cc ++ [length (store cc)] |}) in *.
      assert (Hwf1 : wf cc1) by (apply wf_push; exact Hwf).
      destruct (IH (S idx) cc1 cc' c Hwf1 Hrun)
        as (Hwf' & Hev & (k & Hbuf & Hst) & Hwho' & Hframe' & Hc & Hlen' & _).
      cbn [cc1 store eventsBuffer events] in Hbuf, Hst, Hev.
      rewrite length_app in Hbuf, Hst. cbn [length] in Hbuf, Hst.
      split; [exact Hwf'|]. split; [exact Hev|].
      split.
      { exists (S k). cbn [seq]. rewrite Hbuf, Hst, <- app_assoc.
        replace (length (store cc) + 1) with (S (length (store cc))) by lia.
        split; [reflexivity | lia]. }
      split.
      { intros r0 e He. apply Hwho'. cbn [cc1 store].
        rewrite lookup_app_l by (eapply lookup_lt_Some; exact He). exact He. }
      split.
      { intros r0 Hnin Hlt. rewrite Hframe'.
        - cbn [cc1 store]. apply lookup_app_l. exact Hlt.
        - cbn [cc1 eventsBuffer]. intros Hin. apply elem_of_app in Hin as [Hin|Hin];
            [contradiction|]. apply list_elem_of_singleton in Hin. lia.
        - cbn [cc1 store]. rewrite length_app. lia. }
      split; [exact Hc|].
      split.
      { intros HN H1 H2. rewrite Hlen'; cbn [cc1 eventsBuffer length] in *;
          rewrite ?length_app; cbn [length]; auto; lia. }
      intros Hfit. cbn [length] in Hfit. lia.
Qed.

(** [scrape] keeps the dialogs that have exactly two inner blocks. *)
Lemma scrape_length (now : Z) (dialogs : list dialog) :
  length (scrape now dialogs) = length (filter (λ d : dialog, length d = 2) dialogs).
Proof.
  unfold scrape. induction dialogs as [|d dialogs IH]; [reflexivity|].
  cbn [omap list_omap]. rewrite filter_cons.
  destruct d as [|a [|t [|x d]]]; cbn [length];
    destruct (decide _) as [E|E]; try discriminate E; try (exfalso; apply E; reflexivity);
    cbn [length]; rewrite <- ?IH; reflexivity.
Qed.

(** The three phases of [mergeLatestCC], with the state between them. *)
Lemma mergeLatestCC_phases (now : Z) (dialogs : list dialog) (cc : ClosedCaptions) :
  exists ccb : ClosedCaptions,
    events ccb ++ eventsBuffer ccb = events cc ++ eventsBuffer cc /\
    length (store ccb) = length (store cc) /\
    length (eventsBuffer ccb) <= length (scrape now dialogs) /\
    misaligned (scrape now dialogs) ccb = false /\
    (length (eventsBuffer cc) <= length (scrape now dialogs) ->
     misaligned (scrape now dialogs) cc = false -> ccb = cc) /\
    mergeLatestCC now dialogs cc
      = mergeEvents (scrape now dialogs) 0 (length (scrape now dialogs)) ccb.
Proof.
  unfold mergeLatestCC. cbv zeta.
  set (newEvents := scrape now dialogs).
  pose proof (finalizeWhileLonger_spec (length newEvents) (length (eventsBuffer cc)) cc)
    as (A1 & A2 & A3 & A4).
  set (cca := finalizeWhileLonger (length (eventsBuffer cc)) (length newEvents) cc) in *.
  pose proof (finalizeWhileMisaligned_spec newEvents (length (eventsBuffer cca)) cca)
    as (B1 & B2 & B3 & B4 & B5).
  set (ccb := finalizeWhileMisaligned (length (eventsBuffer cca)) newEvents cca) in *.
  exists ccb.
  assert (Hle : length (eventsBuffer ccb) <= length newEvents).
  { specialize (A3 (Nat.le_refl _)). lia. }
  split; [congruence|]. split; [congruence|]. split; [exact Hle|].
  split; [apply B4; lia|].
  split.
  { intros H1 H2. rewrite (A4 H1) in B5. exact (B5 H2). }
  rewrite (proj2 (Nat.leb_le _ _) Hle). reflexivity.
Qed.

Lemma mergeLatestCC_wf (now : Z) (dialogs : list dialog) (cc : ClosedCaptions) :
  wf cc -> wf (mergeLatestCC now dialogs cc).1.
Proof.
  intros Hwf.
  destruct (mergeLatestCC_phases now dialogs cc) as (ccb & Hheld & Hst & _ & _ & _ & ->).
  destruct (mergeEvents _ _ _ ccb) as [cc' c] eqn:Hrun.
  apply mergeEvents_spec in Hrun; [tauto|].
  apply (wf_held cc); assumption.
Qed.

(** [mergeLatestCC] ends: it returns or throws the [TypeError]. *)
Lemma mergeLatestCC_terminates (now : Z) (dialogs : list dialog) (cc : ClosedCaptions) :
  wf cc -> (mergeLatestCC now dialogs cc).2 <> OutOfFuel.
Proof.
  intros Hwf.
  destruct (mergeLatestCC_phases now dialogs cc) as (ccb & Hheld & Hst & _ & _ & _ & ->).
  destruct (mergeEvents _ _ _ ccb) as [cc' c] eqn:Hrun.
  apply mergeEvents_spec in Hrun; [tauto|].
  apply (wf_held cc); assumption.
Qed.

Lemma reachable_wf (cc : ClosedCaptions) : reachable cc -> wf cc.
Proof.
  induction 1 as [|now dialogs cc _ IH|cc _ IH].
  - apply wf_initial.
  - apply mergeLatestCC_wf. exact IH.
  - apply wf_clear. exact IH.
Qed.

End ClosedCaptionsMerge.

Section ClosedCaptionsIdempotence.
Import ClosedCaptions.

(** Two scrapes of the same dialogs differ by their timestamps only. *)
Lemma scrape_same_text (now1 now2 : Z) (dialogs : list dialog) :
  Forall2 (λ ev1 ev2, who ev1 = who ev2 /\ what ev1 = what ev2)
          (scrape now1 dialogs) (scrape now2 dialogs).
Proof.
  unfold scrape. induction dialogs as [|d dialogs IH]; [constructor|].
  cbn [omap list_omap].
  destruct d as [|a [|t [|x d]]]; try exact IH.
  constructor; [split; reflexivity | exact IH].
Qed.

(** A per-turn merge of a turn with its own text changes nothing. *)
Lemma completeFromUpdate_same_text (this partialUpdate : ClosedCaptionEvent)
    (sameTime : bool) :
  what this = what partialUpdate ->
  completeFromUpdate this partialUpdate sameTime = (this, Normal tt).
Proof.
  intros Hw. unfold completeFromUpdate. rewrite <- Hw.
  rewrite Nat.eqb_refl. cbn [negb andb]. rewrite mergeStrings_same.
  destruct this; reflexivity.
Qed.

(** When each buffered turn already holds the text of its line, the merge
    loop leaves the state as it is. *)
Lemma mergeEvents_synced (newLength : nat) (remaining : list ClosedCaptionEvent) :
  forall (idx : nat) (cc : ClosedCaptions),
    (forall j ev, remaining !! j = Some ev ->
       exists r this, eventsBuffer cc !! (idx + j) = Some r /\
                      store cc !! r = Some this /\ what this = what ev) ->
    mergeEvents remaining idx newLength cc = (cc, Normal tt).
Proof.
  induction remaining as [|newEvent remaining IH]; intros idx cc Hsync; [reflexivity|].
  cbn [mergeEvents].
  destruct (Hsync 0 newEvent eq_refl) as (r & this & Hr & Hthis & Hw).
  rewrite Nat.add_0_r in Hr.
  rewrite (proj2 (Nat.ltb_lt idx _) (lookup_lt_Some _ _ _ Hr)).
  rewrite Hr, Hthis, (completeFromUpdate_same_text _ _ _ Hw).
  rewrite (list_insert_id _ _ _ Hthis).
  replace {| store := store cc; events := events cc; eventsBuffer := eventsBuffer cc |}
    with cc by (destruct cc; reflexivity).
  apply IH. intros j ev Hj. replace (S idx + j) with (idx + S j) by lia.
  apply Hsync. exact Hj.
Qed.

(** After a call that returned, the oldest buffered turn and the first line
    of the snapshot have the same speaker. *)
Lemma mergeLatestCC_aligned (now now' : Z) (dialogs : list dialog)
    (cc cc1 : ClosedCaptions) :
  wf cc ->
  mergeLatestCC now dialogs cc = (cc1, Normal tt) ->
  misaligned (scrape now' dialogs) cc1 = false.
Proof.
  intros Hwf Hrun.
  destruct (mergeLatestCC_phases now dialogs cc) as (ccb & Hheld & Hst & Hle & Hal & _ & Heq).
  rewrite Heq in Hrun. clear Heq.
  assert (Hwfb : wf ccb) by (apply (wf_held cc); assumption).
  pose proof (scrape_same_text now now' dialogs) as Hsame.
  destruct Hsame as [|ev ev' rest rest' [Hwho _] _]; [reflexivity|].
  unfold misaligned in Hal |- *.
  destruct (eventsBuffer ccb) as [|r bufrest] eqn:Hbuf.
  - cbn [mergeEvents] in Hrun. rewrite Hbuf in Hrun. cbn [length Nat.ltb Nat.leb app] in Hrun.
    apply mergeEvents_spec in Hrun;
      [|pose proof (wf_push ccb ev Hwfb) as Hp; rewrite Hbuf in Hp; exact Hp].
    destruct Hrun as (_ & _ & (k & Hb1 & _) & Hkeep & _).
    cbn [eventsBuffer store app] in Hb1, Hkeep. rewrite Hb1.
    destruct (Hkeep (length (store ccb)) ev) as (e' & He' & Hk & _).
    { rewrite lookup_app_r by lia. rewrite Nat.sub_diag. reflexivity. }
    rewrite He'. rewrite bool_decide_eq_true_2 by congruence. reflexivity.
  - assert (Hrlt : r < length (store ccb)).
    { apply Hwfb, elem_of_app. right. rewrite Hbuf. left. }
    destruct (lookup_lt_is_Some_2 _ _ Hrlt) as [e He]. rewrite He in Hal.
    apply negb_false_iff, bool_decide_eq_true in Hal.
    apply mergeEvents_spec in Hrun; [|exact Hwfb].
    destruct Hrun as (_ & _ & (k & Hb1 & _) & Hkeep & _).
    rewrite Hbuf in Hb1. rewrite Hb1. cbn [app].
    destruct (Hkeep r e He) as (e' & He' & Hk & _).
    rewrite He'. rewrite bool_decide_eq_true_2 by congruence. reflexivity.
Qed.

(** C5, as amended.  A second [mergeLatestCC] on the same dialogs finalizes
    nothing: the finalized log, the turns in it and the sequence of buffered
    turns are as the first call left them, and each buffered turn keeps its
    speaker, its start and its flags.  When, after the first call, every
    buffered turn holds exactly the text of its line (as the turns do that
    the first call created), the second call changes nothing at all and
    returns.  Otherwise the text, the duration and the time of the last
    update of a buffered turn may change again. *)
Theorem second_identical_snapshot (now1 now2 : Z) (dialogs : list dialog)
    (cc0 cc1 : ClosedCaptions) :
  reachable cc0 ->
  mergeLatestCC now1 dialogs cc0 = (cc1, Normal tt) ->
  let cc2 := (mergeLatestCC now2 dialogs cc1).1 in
  (events cc2 = events cc1 /\
   eventsBuffer cc2 = eventsBuffer cc1 /\
   (forall r, r ∈ events cc1 -> store cc2 !! r = store cc1 !! r) /\
   (forall r e1, r ∈ eventsBuffer cc1 -> store cc1 !! r = Some e1 ->
      exists e2, store cc2 !! r = Some e2 /\ mergeKeeps e1 e2)) /\
  ((forall i r e ev,
      eventsBuffer cc1 !! i = Some r -> store cc1 !! r = Some e ->
      scrape now1 dialogs !! i = Some ev -> what e = what ev) ->
   mergeLatestCC now2 dialogs cc1 = (cc1, Normal tt)).
Proof.
  intros Hreach Hrun1 cc2. apply reachable_wf in Hreach.
  assert (Hwf1 : wf cc1).
  { pose proof (mergeLatestCC_wf now1 dialogs cc0 Hreach) as H. rewrite Hrun1 in H. exact H. }
  pose proof (mergeLatestCC_aligned now1 now2 dialogs cc0 cc1 Hreach Hrun1) as Hal.
  assert (Hlen1 : length (eventsBuffer cc1) = length (scrape now1 dialogs)).
  { destruct (mergeLatestCC_phases now1 dialogs cc0) as (ccb & Hh & Hs & Hle & _ & _ & Heq).
    rewrite Heq in Hrun1.
    apply mergeEvents_spec in Hrun1; [|apply (wf_held cc0); assumption].
    destruct Hrun1 as (_ & _ & _ & _ & _ & _ & Hlen & _).
    rewrite Hlen by (auto; lia). reflexivity. }
  pose proof (scrape_same_text now1 now2 dialogs) as Hsame.
  pose proof (Forall2_length _ _ _ Hsame) as Hlen12.
  destruct (mergeLatestCC_phases now2 dialogs cc1) as (ccb & _ & _ & _ & _ & Hid & Heq).
  rewrite (Hid ltac:(lia) Hal) in Heq. clear Hid ccb.
  split.
  - subst cc2. rewrite Heq.
    destruct (mergeEvents _ _ _ cc1) as [cc2 c2] eqn:Hrun2. cbn [fst].
    apply mergeEvents_spec in Hrun2; [|exact Hwf1].
    destruct Hrun2 as (_ & Hev & _ & Hkeep & Hframe & _ & _ & Hfit).
    destruct Hfit as [Hbuf Hst]; [lia|].
    split; [exact Hev|]. split; [exact Hbuf|]. split.
    + intros r Hr. destruct Hwf1 as [Hnd Hb]. apply Hframe.
      * apply NoDup_app in Hnd as (_ & Hdisj & _). apply Hdisj. exact Hr.
      * apply Hb, elem_of_app. auto.
    + intros r e1 _ He1. apply Hkeep. exact He1.
  - intros Hsync. rewrite Heq. apply mergeEvents_synced.
    intros j ev2 Hj. cbn [Nat.add].
    destruct (Forall2_lookup_r _ _ _ _ _ Hsame Hj) as (ev1 & Hj1 & _ & Hw).
    assert (Hjlt : j < length (eventsBuffer cc1)).
    { rewrite Hlen1. eapply lookup_lt_Some. exact Hj1. }
    destruct (lookup_lt_is_Some_2 _ _ Hjlt) as [r Hr].
    assert (Hrlt : r < length (store cc1)).
    { apply Hwf1, elem_of_app. right. apply list_elem_of_lookup. eauto. }
    destruct (lookup_lt_is_Some_2 _ _ Hrlt) as [e He].
    exists r, e. split; [exact Hr|]. split; [exact He|].
    rewrite <- Hw. eapply Hsync; eassumption.
Qed.

End ClosedCaptionsIdempotence.

Section InterjectionScan.
Import ClosedCaptions.

(** The marking loop sets the flag of the [count] turns from [turnIdx] on. *)
Lemma markInterjections_foldl (evs : list nat) (count : nat) :
  forall (turnIdx : nat) (st : list ClosedCaptionEvent),
    markInterjections evs turnIdx count st
    = foldl (λ st r, alter setInterjection r st) st (take count (drop turnIdx evs)).
Proof.
  induction count as [|count IH]; intros turnIdx st; cbn [markInterjections];
    [reflexivity|].
  rewrite IH. destruct (evs !! turnIdx) as [r|] eqn:E.
  - rewrite (drop_S _ _ _ E). reflexivity.
  - apply lookup_ge_None in E.
    rewrite (drop_ge evs turnIdx) by exact E.
    rewrite (drop_ge evs (S turnIdx)) by lia.
    rewrite !take_nil. reflexivity.
Qed.

Lemma foldl_setInterjection_lookup (refs : list nat) :
  forall (st : list ClosedCaptionEvent) (r : nat),
    foldl (λ st r, alter setInterjection r st) st refs !! r
    = if decide (r ∈ refs) then setInterjection <$> st !! r else st !! r.
Proof.
  induction refs as [|r0 refs IH]; intros st r; cbn [foldl].
  - destruct (decide (r ∈ [])) as [H|H]; [inversion H | reflexivity].
  - rewrite IH, list_lookup_alter.
    destruct (decide (r0 = r)) as [Heq|Hne].
    + subst r0. rewrite (decide_True (P := r ∈ r :: refs)) by apply list_elem_of_here.
      destruct (decide (r ∈ refs)); [destruct (st !! r); reflexivity | reflexivity].
    + destruct (decide (r ∈ refs)) as [Hin|Hnin].
      * rewrite (decide_True (P := r ∈ r0 :: refs)) by (apply list_elem_of_further; exact Hin). reflexivity.
      * rewrite (decide_False (P := r ∈ r0 :: refs)); [reflexivity|].
        intros Hin'. apply elem_of_cons in Hin' as [->|Hin']; contradiction.
Qed.

Context (cc : ClosedCaptions) (current : nat) (currentTurn : ClosedCaptionEvent).
Context (pre : list nat) (candidate : nat) (between : list nat).
Hypothesis Hevents : events cc = pre ++ candidate :: between.
Hypothesis Hcurrent : store cc !! current = Some currentTurn.
Hypothesis Hbetween :
  Forall (λ r, exists t, store cc !! r = Some t /\ who t <> who currentTurn /\
                         (howLong t <= SHORT_SEQUENCE_MAX_LENGTH_MS)%Z) between.

Local Abbreviation pushed := (pushEvent current cc).
Local Abbreviation turnCount := (length (events (pushEvent current cc))).

Lemma turnCount_eq : turnCount = length pre + 1 + length between + 1.
Proof.
  unfold pushEvent. cbn [events]. rewrite Hevents.
  rewrite !length_app. cbn [length]. lia.
Qed.

Lemma turnAt_current : turnAt pushed (turnCount - 1) = Some currentTurn.
Proof.
  unfold turnAt. rewrite turnCount_eq. unfold pushEvent. cbn [events store]. rewrite Hevents.
  replace (pre ++ candidate :: between) with ((pre ++ [candidate]) ++ between)
    by (rewrite <- app_assoc; reflexivity).
  rewrite lookup_app_r by (rewrite !length_app; cbn [length]; lia).
  rewrite !length_app. cbn [length].
  replace (length pre + 1 + length between + 1 - 1 - (length pre + 1 + length between))
    with 0 by lia.
  exact Hcurrent.
Qed.

Lemma events_current : events pushed !! (turnCount - 1) = Some current.
Proof.
  rewrite turnCount_eq. unfold pushEvent. cbn [events]. rewrite Hevents.
  rewrite lookup_app_r by (rewrite !length_app; cbn [length]; lia).
  rewrite !length_app. cbn [length].
  replace (length pre + 1 + length between + 1 - 1 - (length pre + S (length between)))
    with 0 by lia.
  reflexivity.
Qed.

Lemma turnAt_between (k : nat) (r : nat) :
  between !! k = Some r -> turnAt pushed (length pre + 1 + k) = store cc !! r.
Proof.
  intros Hk. unfold turnAt, pushEvent. cbn [events store]. rewrite Hevents.
  rewrite <- app_assoc. rewrite lookup_app_r by lia.
  replace (length pre + 1 + k - length pre) with (S k) by lia.
  change (((candidate :: between) ++ [current]) !! S k)
    with ((between ++ [current]) !! k).
  rewrite lookup_app_l by (eapply lookup_lt_Some; exact Hk).
  rewrite Hk. reflexivity.
Qed.

Lemma turnAt_candidate : turnAt pushed (length pre) = store cc !! candidate.
Proof.
  unfold turnAt, pushEvent. cbn [events store]. rewrite Hevents.
  rewrite <- app_assoc. rewrite lookup_app_r by lia.
  rewrite Nat.sub_diag. reflexivity.
Qed.

(** The scan walks back over the short turns of other speakers. *)
Lemma scanBack_skips_between (k : nat) :
  k <= length between ->
  scanBack (length pre + 1 + k) turnCount pushed = scanBack (length pre + 1) turnCount pushed.
Proof.
  induction k as [|k IH]; intros Hk; [rewrite Nat.add_0_r; reflexivity|].
  replace (length pre + 1 + S k) with (S (length pre + 1 + k)) by lia.
  cbn [scanBack]. rewrite turnAt_current.
  destruct (lookup_lt_is_Some_2 between k ltac:(lia)) as [r Hr].
  rewrite (turnAt_between k r Hr).
  pose proof (proj1 (Forall_lookup _ _) Hbetween k r Hr) as (t & Ht & Hwho & Hshort).
  rewrite Ht. rewrite bool_decide_eq_false_2 by congruence.
  rewrite Z.gtb_ltb, (proj2 (Z.ltb_ge _ _)) by exact Hshort.
  apply IH. lia.
Qed.

Lemma between_marked :
  take (turnCount - 1 - S (length pre)) (drop (S (length pre)) (events pushed)) = between.
Proof.
  rewrite turnCount_eq. unfold pushEvent. cbn [events]. rewrite Hevents.
  replace ((pre ++ candidate :: between) ++ [current])
    with ((pre ++ [candidate]) ++ (between ++ [current]))
    by (rewrite <- !app_assoc; reflexivity).
  rewrite (drop_app_length' (pre ++ [candidate]))
    by (rewrite length_app; cbn [length]; lia).
  apply take_app_length'. lia.
Qed.

(** C6, as amended.  [current] is the turn being finalized, [candidate] the
    turn at which the backward scan stops, and [between] the turns after it,
    all of them by other speakers and at most 3000 ms long.

    - If [candidate] is by another speaker and longer than 3000 ms, the
      scan stops there and nothing is classified.
    - If [candidate] is by the speaker of [current], AT LEAST ONE TURN LIES
      BETWEEN THE TWO, and its duration exceeds five times the gap
      [currentTurn.when - turn.whenSpokeLast], then every turn in between is
      marked [interjection] and [current] is marked [continuation]; no other
      turn changes.
    - If [candidate] is by the speaker of [current] and either immediately
      precedes it or is not long enough, nothing is classified. *)
Theorem interjection_scan (turn : ClosedCaptionEvent) :
  store cc !! candidate = Some turn ->
  let cc' := _addEvent current cc in
  (who turn <> who currentTurn ->
   (howLong turn > SHORT_SEQUENCE_MAX_LENGTH_MS)%Z ->
   cc' = pushEvent current cc) /\
  (who turn = who currentTurn ->
   between <> [] ->
   (howLong turn > (when currentTurn - whenSpokeLast turn)
                   * INTERJECTIONS_TO_SEQUENCE_MIN_RATIO)%Z ->
   events cc' = events cc ++ [current] /\
   eventsBuffer cc' = eventsBuffer cc /\
   (forall r, r ∈ between -> exists e, store cc' !! r = Some e /\ interjection e = true) /\
   (exists e, store cc' !! current = Some e /\ continuation e = true) /\
   (forall r, r ∉ between -> r <> current -> store cc' !! r = store cc !! r)) /\
  (who turn = who currentTurn ->
   between = [] \/
   (howLong turn <= (when currentTurn - whenSpokeLast turn)
                    * INTERJECTIONS_TO_SEQUENCE_MIN_RATIO)%Z ->
   cc' = pushEvent current cc).
Proof.
  intros Hturn cc'. subst cc'. unfold _addEvent. cbv zeta.
  destruct (3 <=? turnCount) eqn:E3.
  2:{ apply Nat.leb_gt in E3. rewrite turnCount_eq in E3.
      assert (Hnil : between = []) by (destruct between; [reflexivity | cbn in E3; lia]).
      split; [auto|]. split; [|auto]. intros _ Hne. contradiction. }
  replace (turnCount - 1) with (length pre + 1 + length between)
    by (rewrite turnCount_eq; lia).
  rewrite scanBack_skips_between by lia.
  replace (length pre + 1) with (S (length pre)) by lia.
  cbn [scanBack]. rewrite turnAt_current, turnAt_candidate, Hturn.
  split; [|split].
  - intros Hwho Hlong.
    rewrite bool_decide_eq_false_2 by congruence.
    rewrite (proj2 (Z.gtb_gt _ _)) by exact Hlong. reflexivity.
  - intros Hwho Hne Hlong.
    rewrite bool_decide_eq_true_2 by congruence.
    rewrite (proj2 (Nat.ltb_lt (length pre) (turnCount - 2))).
    2:{ rewrite turnCount_eq. destruct between; [contradiction | cbn [length]; lia]. }
    rewrite (proj2 (Z.gtb_gt _ _)) by exact Hlong. cbn [andb].
    rewrite events_current, markInterjections_foldl, between_marked.
    cbn [events eventsBuffer store pushEvent].
    split; [reflexivity|]. split; [reflexivity|].
    assert (Hlook : forall r,
      alter setContinuation current
        (foldl (λ st r, alter setInterjection r st) (store cc) between) !! r
      = (if decide (current = r) then fmap setContinuation else id)
          (if decide (r ∈ between) then setInterjection <$> store cc !! r
           else store cc !! r)).
    { intros r. rewrite list_lookup_alter, !foldl_setInterjection_lookup.
      destruct (decide (current = r)) as [->|]; reflexivity. }
    split; [|split].
    + intros r Hr. rewrite Hlook. rewrite (decide_True (P := r ∈ between)) by exact Hr.
      pose proof (proj1 (Forall_forall _ _) Hbetween r Hr) as (t & Ht & _).
      rewrite Ht. destruct (decide (current = r)); eexists; split; reflexivity.
    + rewrite Hlook, Hcurrent. rewrite (decide_True (P := current = current)) by reflexivity.
      destruct (decide (current ∈ between)); eexists; split; reflexivity.
    + intros r Hnin Hne'. rewrite Hlook.
      rewrite (decide_False (P := current = r)) by congruence.
      rewrite (decide_False (P := r ∈ between)) by exact Hnin. reflexivity.
  - intros Hwho Hor.
    rewrite bool_decide_eq_true_2 by congruence.
    destruct Hor as [Hnil|Hshort].
    + rewrite (proj2 (Nat.ltb_ge (length pre) (turnCount - 2))).
      2:{ rewrite turnCount_eq, Hnil. cbn [length]. lia. }
      reflexivity.
    + rewrite Z.gtb_ltb, (proj2 (Z.ltb_ge _ _)) by exact Hshort.
      rewrite andb_false_r. reflexivity.
Qed.

End InterjectionScan.

(** * The timing of a per-turn merge *)

Section CompleteFromUpdateTiming.
Import ClosedCaptions.
Local Open Scope Z_scope.

Lemma wordsInString_pos (s : jsstring) : 1 <= wordsInString s.
Proof. unfold wordsInString. lia. Qed.

(** The event built for a line seen at [now] is backdated: its [when] lies
    100 ms per word before [now], its [whenSpokeLast] is [now]. *)
Lemma newClosedCaptionEvent_backdated (now : Z) (author text : jsstring) :
  let ev := newClosedCaptionEvent now author text in
  whenSpokeLast ev = now /\ when ev = now - 100 * wordsInString text /\ when ev < now.
Proof.
  cbn. unfold BASE_SEQUENCE_PER_WORD_LENGTH_MS.
  pose proof (wordsInString_pos text). repeat split. lia.
Qed.

(** What [completeFromUpdate] does to the timing fields. *)
Lemma completeFromUpdate_timing (this partialUpdate : ClosedCaptionEvent) (sameTime : bool) :
  let this' := (completeFromUpdate this partialUpdate sameTime).1 in
  (length (what this) <> length (what partialUpdate) -> sameTime = false ->
   howLong this' = howLong this + (whenSpokeLast partialUpdate - whenSpokeLast this) /\
   whenSpokeLast this' = when partialUpdate) /\
  (length (what this) = length (what partialUpdate) \/ sameTime = true ->
   howLong this' = howLong this /\ whenSpokeLast this' = whenSpokeLast this).
Proof.
  unfold completeFromUpdate. split.
  - intros Hne ->. rewrite (proj2 (Nat.eqb_neq _ _) Hne). cbn [negb andb].
    destruct (mergeStrings _ _); cbn; auto.
  - intros [Heq| ->].
    + rewrite (proj2 (Nat.eqb_eq _ _) Heq). cbn [negb andb].
      destruct (mergeStrings _ _); cbn; auto.
    + rewrite andb_false_r. destruct (mergeStrings _ _); cbn; auto.
Qed.

End CompleteFromUpdateTiming.

(** C8 on a concrete turn.  A turn first seen at 10000 gets a longer text at
    12000 and a longer one still at 13000, each time as the last line of the
    panel.  The first update adds the 2000 ms elapsed to the duration, but
    leaves [whenSpokeLast] at 11600, the backdated [when] of the update, not
    at 12000, the time of the update; the second update then adds 1400 ms
    although 1000 ms went by. *)
Theorem completeFromUpdate_lastUpdate_backdated :
  let turn1 := (ClosedCaptions.completeFromUpdate Examples.helloTurn Examples.helloUpdate1 false).1 in
  let turn2 := (ClosedCaptions.completeFromUpdate turn1 Examples.helloUpdate2 false).1 in
  (ClosedCaptions.whenSpokeLast Examples.helloTurn = 10000 /\
   ClosedCaptions.whenSpokeLast Examples.helloUpdate1 = 12000 /\
   ClosedCaptions.howLong turn1 = ClosedCaptions.howLong Examples.helloTurn + 2000 /\
   ClosedCaptions.whenSpokeLast turn1 = 11600 /\
   ClosedCaptions.whenSpokeLast Examples.helloUpdate2 = 13000 /\
   ClosedCaptions.howLong turn2 = ClosedCaptions.howLong turn1 + 1400 /\
   ClosedCaptions.whenSpokeLast turn2 = 12500)%Z /\
  ClosedCaptions.store Examples.helloSeen1 !! 0 = Some Examples.helloTurn /\
  ClosedCaptions.store Examples.helloSeen2 !! 0 = Some turn1 /\
  ClosedCaptions.store Examples.helloSeen3 !! 0 = Some turn2.
Proof. vm_compute. repeat split. Qed.

(** * The string merge against the design document *)

(** C4 on two concrete pairs.  [budgetMain] ends with the first 15
    characters of [budgetUpdate]: offset 33 is the smallest one at which the
    scan of the document matches, and the document splices there, but the
    loop of [mergeStrings] leaves when [idxMain] reaches the end of
    [mainString], before it tests [idxUpdate >= requiredOverlapLength], and
    the texts are concatenated.  [okayUpdate] has 5 characters and its
    letters occur in [okayMain]: the loop reads [updateString[5]], which is
    [undefined], and the call throws. *)
Theorem mergeStrings_misses_overlap_at_end :
  ClosedCaptions.matchesAt Examples.budgetMain Examples.budgetUpdate 33 = true /\
  ClosedCaptions.smallestMatch Examples.budgetMain Examples.budgetUpdate = Some 33 /\
  ClosedCaptions.mergeSpec Examples.budgetMain Examples.budgetUpdate
    = ClosedCaptions.str "I think we should talk about the budget for next year and beyond" /\
  ClosedCaptions.mergeStrings Examples.budgetMain Examples.budgetUpdate
    = ClosedCaptions.Normal
        (ClosedCaptions.str
           "I think we should talk about the budget for nextbudget for next year and beyond") /\
  ClosedCaptions.mergeStrings Examples.okayMain Examples.okayUpdate
    = ClosedCaptions.TypeError.
Proof. vm_compute. repeat split. Qed.

(** Where the loop does find the overlap, code and document agree: the two
    examples of the design document. *)
Lemma mergeStrings_document_examples :
  ClosedCaptions.mergeStrings (ClosedCaptions.str "Hi") (ClosedCaptions.str "Hi there")
    = ClosedCaptions.Normal (ClosedCaptions.str "Hi there") /\
  ClosedCaptions.mergeStrings Examples.weatherMain Examples.weatherUpdate
    = ClosedCaptions.Normal
        (ClosedCaptions.mergeSpec Examples.weatherMain Examples.weatherUpdate) /\
  ClosedCaptions.mergeSpec Examples.weatherMain Examples.weatherUpdate
    = ClosedCaptions.str "It looks to me like the weather is nice today and".
Proof. vm_compute. repeat split. Qed.

(** * Counterexamples to the claims as worded, and instances of the theorems *)

(** C1 as the claim words it fails: the participant's last utterance ended
    at 1000, [spokeRecently(5000)] answers [true], and
    [1000 < 5000 - 2000] is true, not false. *)
Lemma spokeRecently_claim_fails :
  ~ (Participant.spokeRecently (Some 5000%Z) 5000 Examples.endedAt1000 = true <->
     exists lastEnd : Z,
       Participant.lastSpeakingEnd Examples.endedAt1000 = Some lastEnd /\
       ~ (lastEnd < 5000 - 2000)%Z).
Proof.
  intros [H _].
  destruct (H eq_refl) as (e & He & Hn).
  injection He as <-. apply Hn. reflexivity.
Qed.


(** A strike that starts at 3000 and pauses at 7000 lasts 4000 ms. *)
Lemma strike_accounting_witness :
  let p := Participant.onSignal Examples.config false 7000
             (Participant.onSignal Examples.config true 3000
                (Participant.fresh Examples.config)) in
  Participant.totalSpeakingTime p = 4000%Z /\
  Participant.speakingStrikeStart p = None /\
  Participant.lastSpeakingEnd p = Some 7000%Z.
Proof.
  exact (proj1 (strike_accounting Examples.config 3000 7000 ltac:(discriminate) eq_refl)).
Defined.

(** A run of five signals from a fresh participant, the first at 1000. *)
Lemma observed_total_time_monotone_witness :
  StronglySorted Z.le
    (Participant.getTotalSpeakingTime 0 (Participant.fresh Examples.config)
     :: Participant.observedTotals Examples.config (Participant.fresh Examples.config)
          [(true, 1000); (true, 1500); (false, 4000); (false, 4100); (true, 5000)]%Z).
Proof.
  apply observed_total_time_monotone. cbn [map snd].
  repeat (constructor; try (apply Z.leb_le; reflexivity)).
Defined.

(** A participant who paused at 1000 and gets a second false signal at
    2000: asked at 3500, [spokeRecently] answers [true] before the second
    signal and [false] after it. *)
Lemma pauseSpeaking_idle_refreshes_lastSpeakingEnd_witness :
  Participant.lastSpeakingEnd
    (Participant.pauseSpeaking Examples.config 2000 Examples.endedAt1000) = Some 2000%Z /\
  Participant.spokeRecently (Some 3500%Z) 3500 Examples.endedAt1000 = true /\
  Participant.spokeRecently (Some 3500%Z) 3500
    (Participant.pauseSpeaking Examples.config 2000 Examples.endedAt1000) = false.
Proof.
  destruct (pauseSpeaking_idle_refreshes_lastSpeakingEnd Examples.config
              (Participant.fresh Examples.config) 1000 eq_refl)
    as (_ & _ & _ & _ & _ & Hrefresh & Hrecent).
  split; [exact (Hrefresh 2000%Z)|].
  exact (Hrecent 2000%Z 3500%Z 3500%Z ltac:(discriminate) ltac:(lia)).
Defined.

(** C5 as the claim words it fails.  The line of the only speaker reads
    "Okay" twice in a row; the second call doubles the "Okay" that the first
    one appended to the buffered text, and lengthens the turn. *)
Lemma second_identical_snapshot_changes_buffer :
  ClosedCaptions.mergeLatestCC 11000 [Examples.okayLine] Examples.seenPlanned
    = (Examples.seenOkay, ClosedCaptions.Normal tt) /\
  ClosedCaptions.mergeLatestCC 12000 [Examples.okayLine] Examples.seenOkay
    = (Examples.seenOkayAgain, ClosedCaptions.Normal tt) /\
  ClosedCaptions.eventsBuffer Examples.seenOkay = [0] /\
  ClosedCaptions.eventsBuffer Examples.seenOkayAgain = [0] /\
  ClosedCaptions.what <$> ClosedCaptions.store Examples.seenOkay !! 0
    = Some (ClosedCaptions.str "We initially planned it differently, but fine.Okay") /\
  ClosedCaptions.what <$> ClosedCaptions.store Examples.seenOkayAgain !! 0
    = Some (ClosedCaptions.str "We initially planned it differently, but fine.OkayOkay") /\
  ClosedCaptions.howLong <$> ClosedCaptions.store Examples.seenOkay !! 0 = Some 1700%Z /\
  ClosedCaptions.howLong <$> ClosedCaptions.store Examples.seenOkayAgain !! 0 = Some 2800%Z /\
  ClosedCaptions.whenSpokeLast <$> ClosedCaptions.store Examples.seenOkay !! 0 = Some 10900%Z /\
  ClosedCaptions.whenSpokeLast <$> ClosedCaptions.store Examples.seenOkayAgain !! 0
    = Some 11900%Z /\
  ClosedCaptions.deref Examples.seenOkayAgain (ClosedCaptions.eventsBuffer Examples.seenOkayAgain)
    <> ClosedCaptions.deref Examples.seenOkay (ClosedCaptions.eventsBuffer Examples.seenOkay).
Proof.
  repeat split; try (vm_compute; reflexivity).
  intros H. vm_compute in H. discriminate H.
Qed.

(** The first snapshot of a meeting, seen twice: the turn was created by
    the first call and holds the text of its line. *)
Lemma second_identical_snapshot_witness :
  ClosedCaptions.mergeLatestCC 10500 [Examples.plannedLine] Examples.seenPlanned
    = (Examples.seenPlanned, ClosedCaptions.Normal tt).
Proof.
  refine (proj2 (second_identical_snapshot 10000 10500 [Examples.plannedLine]
                   ClosedCaptions.initial Examples.seenPlanned
                   ClosedCaptions.reachable_initial _) _).
  - vm_compute. reflexivity.
  - intros i r e ev Hr He Hev.
    destruct i as [|i]; [|discriminate Hev].
    vm_compute in Hr. injection Hr as <-.
    vm_compute in He. injection He as <-.
    vm_compute in Hev. injection Hev as <-.
    reflexivity.
Defined.

(** C6 as the claim words it fails.  Ana's first turn is found, it lasted
    8000 ms and the gap is 600 ms, but no turn lies between her two turns:
    the second one is not marked as a continuation. *)
Lemma adjacent_same_speaker_not_continuation :
  let cc' := ClosedCaptions._finalizeOldestBufferedEvent Examples.adjacentLog in
  ClosedCaptions.who Examples.anaLong = ClosedCaptions.who Examples.anaResumes /\
  (ClosedCaptions.howLong Examples.anaLong
   > (ClosedCaptions.when Examples.anaResumes - ClosedCaptions.whenSpokeLast Examples.anaLong) * 5)%Z /\
  ClosedCaptions.events cc' = [0; 1; 2] /\
  ClosedCaptions.store Examples.adjacentLog !! 1 = Some Examples.anaLong /\
  ClosedCaptions.store cc' !! 2 = Some Examples.anaResumes /\
  ClosedCaptions.continuation Examples.anaResumes = false.
Proof. vm_compute. repeat split. Qed.

(** The example of the design document: Ana speaks for 8000 ms, Ben for
    500 ms, Ana resumes. *)
Lemma interjection_scan_witness :
  let cc' := ClosedCaptions._addEvent 2 Examples.sandwichLog in
  (exists e, ClosedCaptions.store cc' !! 1 = Some e /\ ClosedCaptions.interjection e = true) /\
  (exists e, ClosedCaptions.store cc' !! 2 = Some e /\ ClosedCaptions.continuation e = true).
Proof.
  assert (Hbetween :
    Forall (λ r, exists t, ClosedCaptions.store Examples.sandwichLog !! r = Some t /\
                   ClosedCaptions.who t <> ClosedCaptions.who Examples.anaResumes /\
                   (ClosedCaptions.howLong t <= ClosedCaptions.SHORT_SEQUENCE_MAX_LENGTH_MS)%Z)
           [1]).
  { constructor; [|constructor]. exists Examples.benShort.
    split; [reflexivity|]. split; [intros H; vm_compute in H; discriminate H|].
    intros H; vm_compute in H; discriminate H. }
  destruct (interjection_scan Examples.sandwichLog 2 Examples.anaResumes [] 0 [1]
              eq_refl eq_refl Hbetween Examples.anaLong eq_refl)
    as (_ & Hmark & _).
  destruct Hmark as (_ & _ & Hint & Hcont & _);
    [reflexivity | discriminate | reflexivity |].
  split; [apply Hint; apply list_elem_of_here | exact Hcont].
Defined.


(** * More on the speaking-time tracker *)

Section ParticipantRunsProperties.
Import Participant ParticipantRuns.
Variable config : Config.
Local Open Scope Z_scope.

Lemma speaking_keeps_readings (now : Z) (p : Participant) :
  getLiveSpeakingTime now (speaking config now p) = getLiveSpeakingTime now p /\
  totalSpeakingTime (speaking config now p) = totalSpeakingTime p /\
  speakingStrikeTime (speaking config now p) = speakingStrikeTime p.
Proof.
  unfold speaking, getLiveSpeakingTime.
  destruct (truthy (speakingStrikeStart p)) eqn:E; cbn [negb]; [rewrite E; auto|].
  cbn. destruct (now =? 0); cbn; repeat split; lia.
Qed.

Lemma pauseSpeaking_keeps_readings (now : Z) (p : Participant) :
  getTotalSpeakingTime now (pauseSpeaking config now p) = getTotalSpeakingTime now p /\
  getSpeakingStrikeTime now (pauseSpeaking config now p) = getSpeakingStrikeTime now p.
Proof.
  unfold pauseSpeaking, getTotalSpeakingTime, getSpeakingStrikeTime, getLiveSpeakingTime,
    incrementSpeakingTime.
  cbn. destruct (truthy (speakingStrikeStart p)) eqn:E; cbn; rewrite ?E; cbn; lia.
Qed.

(** X1.  A signal does not move the clocks of the display: read at the
    instant of the signal, the total speaking time and the strike time are
    the same before and after it.  A pause commits exactly the live time of
    the open run, and a start opens a run of length zero. *)
Theorem onSignal_keeps_readings (isSpeaking : bool) (now : Z) (p : Participant) :
  getTotalSpeakingTime now (onSignal config isSpeaking now p) = getTotalSpeakingTime now p /\
  getSpeakingStrikeTime now (onSignal config isSpeaking now p) = getSpeakingStrikeTime now p.
Proof.
  destruct isSpeaking; cbn [onSignal].
  - destruct (speaking_keeps_readings now p) as (Hl & Ht & Hs).
    unfold getTotalSpeakingTime, getSpeakingStrikeTime. rewrite Hl, Ht, Hs. auto.
  - apply pauseSpeaking_keeps_readings.
Qed.

(** X2.  The same signal delivered twice at the same clock reading leaves
    the timing fields as the first delivery left them; only the log of
    persisted events can grow. *)
Theorem onSignal_twice_same_instant (isSpeaking : bool) (now : Z) (p : Participant) :
  timing (onSignal config isSpeaking now (onSignal config isSpeaking now p))
  = timing (onSignal config isSpeaking now p).
Proof.
  unfold timing. destruct isSpeaking; cbn [onSignal].
  - unfold speaking.
    destruct (truthy (speakingStrikeStart p)) eqn:E; cbn [negb]; [rewrite E; reflexivity|].
    cbn. destruct (now =? 0); reflexivity.
  - unfold pauseSpeaking, incrementSpeakingTime. cbn.
    destruct (truthy (speakingStrikeStart p)) eqn:E; cbn; rewrite ?E; reflexivity.
Qed.

Lemma inv_step (t0 c now : Z) (s : step) (p : Participant) :
  c <= now -> runInvariant t0 c p -> runInvariant t0 now (applyStep config s now p).
Proof.
  unfold runInvariant. intros Hle (Ht0 & Hst & Htot & Hstart).
  destruct s as [[]|]; cbn [applyStep onSignal].
  - unfold speaking. destruct (truthy (speakingStrikeStart p)) eqn:E; cbn [negb].
    + rewrite E. specialize (Hstart eq_refl). repeat split; lia.
    + cbn. repeat split; try lia.
  - unfold pauseSpeaking, incrementSpeakingTime. cbn.
    destruct (truthy (speakingStrikeStart p)) eqn:E; cbn.
    + specialize (Hstart eq_refl). repeat split; try lia; try discriminate.
    + rewrite E. repeat split; try lia; try discriminate.
  - unfold stopSpeaking. cbn. repeat split; try lia; try discriminate.
Qed.

Lemma inv_run (t0 now : Z) (steps : list (step * Z)) :
  forall (c : Z) (p : Participant),
    runInvariant t0 c p ->
    Sorted Z.le (c :: map snd steps ++ [now]) ->
    exists c', c' <= now /\ runInvariant t0 c' (run config p steps).
Proof.
  induction steps as [|[s t] steps IH]; intros c p Hinv Hs.
  - exists c. split; [|exact Hinv].
    cbn in Hs. apply Sorted_inv in Hs as [_ Hhd]. apply HdRel_inv in Hhd. exact Hhd.
  - cbn [map snd app] in Hs. apply Sorted_inv in Hs as [Hrest Hhd]. apply HdRel_inv in Hhd.
    unfold run. cbn [foldl]. fold (run config (applyStep config s t p) steps).
    exact (IH t (applyStep config s t p) (inv_step t0 c t s p Hhd Hinv) Hrest).
Qed.

(** X3.  Along any run of signals and interruptions whose clock readings do
    not go back, from a participant constructed at clock [t0]: both counters
    stay non-negative, the strike time never exceeds the total, and the total
    speaking time displayed at a later instant [now] never exceeds the time
    elapsed since [t0]. *)
Theorem speaking_time_within_elapsed (t0 now : Z) (steps : list (step * Z)) :
  Sorted Z.le (t0 :: map snd steps ++ [now]) ->
  let p := run config (fresh config) steps in
  0 <= getSpeakingStrikeTime now p <= getTotalSpeakingTime now p /\
  getTotalSpeakingTime now p <= now - t0.
Proof.
  intros Hs p.
  assert (Hfresh : runInvariant t0 t0 (fresh config)).
  { unfold runInvariant, fresh. cbn. repeat split; try lia; try discriminate. }
  destruct (inv_run t0 now steps t0 (fresh config) Hfresh Hs) as (c & Hc & Hinv).
  fold p in Hinv. unfold runInvariant in Hinv. destruct Hinv as (Ht0 & Hst & Htot & Hstart).
  unfold getSpeakingStrikeTime, getTotalSpeakingTime, getLiveSpeakingTime.
  destruct (truthy (speakingStrikeStart p)) eqn:E; cbn [negb].
  - specialize (Hstart eq_refl). lia.
  - lia.
Qed.

Lemma speaking_repeated (ts : list Z) :
  forall p : Participant,
    truthy (speakingStrikeStart p) = true ->
    foldl (λ p t, speaking config t p) p ts = p.
Proof.
  induction ts as [|t ts IH]; intros p Hp; [reflexivity|].
  cbn [foldl]. unfold speaking at 2. rewrite Hp. cbn [negb]. apply IH. exact Hp.
Qed.

(** X4.  A strike is measured from its first true signal: whatever true
    signals follow it before the pause, a strike opened at a nonzero time
    [t1] and paused at [t2] adds exactly [t2 - t1] to the total and to the
    strike time, whatever these were. *)
Theorem strike_measured_from_first_signal (p : Participant) (t1 t2 : Z) (ts : list Z) :
  truthy (speakingStrikeStart p) = false ->
  t1 <> 0 ->
  let p' := pauseSpeaking config t2
              (foldl (λ p t, speaking config t p) (speaking config t1 p) ts) in
  totalSpeakingTime p' = totalSpeakingTime p + (t2 - t1) /\
  speakingStrikeTime p' = speakingStrikeTime p + (t2 - t1) /\
  speakingStrikeStart p' = None /\
  lastSpeakingEnd p' = Some t2.
Proof.
  intros Hidle Ht1 p'. subst p'.
  assert (Hs : speakingStrikeStart (speaking config t1 p) = Some t1
               /\ totalSpeakingTime (speaking config t1 p) = totalSpeakingTime p
               /\ speakingStrikeTime (speaking config t1 p) = speakingStrikeTime p).
  { unfold speaking. rewrite Hidle. cbn. auto. }
  destruct Hs as (Hstart & Htot & Hstr).
  rewrite speaking_repeated
    by (rewrite Hstart; cbn; apply negb_true_iff, Z.eqb_neq; exact Ht1).
  unfold pauseSpeaking, incrementSpeakingTime. cbn. rewrite Hstart. cbn.
  rewrite (proj2 (Z.eqb_neq t1 0) Ht1). cbn. rewrite Htot, Hstr. auto.
Qed.

End ParticipantRunsProperties.

(** * The meeting controller *)

Section SummaryTimer.
Import MeetingController.

Local Abbreviation lastEnd := (λ p : Tracked, Participant.lastSpeakingEnd (tracker p)).

Lemma elem_of_map {A B : Type} (f : A -> B) (l : list A) (y : B) :
  y ∈ map f l <-> exists x, y = f x /\ x ∈ l.
Proof.
  rewrite list_elem_of_In, in_map_iff. split; intros (x & H1 & H2); exists x.
  - split; [symmetry; exact H1 | apply list_elem_of_In; exact H2].
  - split; [symmetry; exact H1 | apply list_elem_of_In; exact H2].
Qed.

Lemma foldl_max_ge (rest : list (option Z)) :
  forall a : Z,
    (a <= foldl (λ m x, Z.max m (toNumber x)) a rest)%Z /\
    (forall x, x ∈ rest -> (toNumber x <= foldl (λ m x, Z.max m (toNumber x)) a rest)%Z).
Proof.
  induction rest as [|y rest IH]; intros a; cbn [foldl].
  - split; [lia | intros x Hx; inversion Hx].
  - destruct (IH (Z.max a (toNumber y))) as [H1 H2]. split; [lia|].
    intros x Hx. apply elem_of_cons in Hx as [->|Hx]; [lia | auto].
Qed.

Lemma foldl_max_attained (rest : list (option Z)) :
  forall a : Z,
    foldl (λ m x, Z.max m (toNumber x)) a rest = a \/
    exists x, x ∈ rest /\ foldl (λ m x, Z.max m (toNumber x)) a rest = toNumber x.
Proof.
  induction rest as [|y rest IH]; intros a; cbn [foldl]; [auto|].
  destruct (IH (Z.max a (toNumber y))) as [H|(x & Hx & H)].
  - rewrite H. destruct (Z.max_spec a (toNumber y)) as [[_ ->]|[_ ->]].
    + right. exists y. split; [left | reflexivity].
    + left. reflexivity.
  - right. exists x. split; [right; exact Hx | exact H].
Qed.

(** [Math.max] returns the greatest of its arguments. *)
Lemma mathMax_spec (first : option Z) (rest : list (option Z)) (m : Z) :
  mathMax first rest = m <->
  (forall x, x ∈ first :: rest -> (toNumber x <= m)%Z) /\
  (exists x, x ∈ first :: rest /\ toNumber x = m).
Proof.
  unfold mathMax.
  destruct (foldl_max_ge rest (toNumber first)) as [Hge1 Hge2].
  pose proof (foldl_max_attained rest (toNumber first)) as Hatt.
  split.
  - intros <-. split.
    + intros x Hx. apply elem_of_cons in Hx as [->|Hx]; auto.
    + destruct Hatt as [H|(x & Hx & H)].
      * exists first. split; [left | symmetry; exact H].
      * exists x. split; [right; exact Hx | symmetry; exact H].
  - intros [Hub (x & Hx & Hm)].
    apply Z.le_antisymm.
    + destruct Hatt as [H|(y & Hy & H)]; rewrite H; apply Hub; [left | right; exact Hy].
    + rewrite <- Hm. apply elem_of_cons in Hx as [->|Hx]; auto.
Qed.

Lemma resetInterrupted_cons (now : Z) (first : Tracked) (rest : list Tracked) :
  resetInterrupted now (first :: rest)
  = map (λ p, if Participant.spokeRecently
                   (Some (mathMax (lastEnd first) (map lastEnd rest))) now (tracker p)
              then setTracker (Participant.stopSpeaking (tracker p)) p
              else p)
        (first :: rest).
Proof. reflexivity. Qed.

(** When the reference time is not zero, the clock plays no part. *)
Lemma spokeRecently_nonzero_reference (m now : Z) (p : Participant.Participant) :
  m <> 0%Z ->
  Participant.spokeRecently (Some m) now p
  = match Participant.lastSpeakingEnd p with
    | Some e => (e <? m - 2000)%Z
    | None => false
    end.
Proof.
  intros Hm. unfold Participant.spokeRecently. cbn.
  rewrite (proj2 (Z.eqb_neq m 0) Hm). reflexivity.
Qed.

Lemma spokeRecently_unset (r : option Z) (now : Z) (p : Participant.Participant) :
  Participant.lastSpeakingEnd p = None -> Participant.spokeRecently r now p = false.
Proof. intros H. unfold Participant.spokeRecently. rewrite H. reflexivity. Qed.

(** X5.  The summary timer leaves each participant either untouched or
    reset by [stopSpeaking]; it never changes who is tracked, in which
    order, nor anybody's committed total.  For a participant who is reset
    the displayed total falls back to the committed total: the live time of
    a run that was open is dropped. *)
Theorem resetInterrupted_frame (now : Z) (participants : list Tracked) :
  length (resetInterrupted now participants) = length participants /\
  forall i p,
    participants !! i = Some p ->
    exists p',
      resetInterrupted now participants !! i = Some p' /\
      initialId p' = initialId p /\
      Participant.totalSpeakingTime (tracker p') = Participant.totalSpeakingTime (tracker p) /\
      (p' = p \/
       (tracker p' = Participant.stopSpeaking (tracker p) /\
        forall now',
          Participant.getTotalSpeakingTime now' (tracker p')
          = Participant.totalSpeakingTime (tracker p))).
Proof.
  destruct participants as [|first rest]; [split; [reflexivity | intros i p H; inversion H]|].
  rewrite resetInterrupted_cons. split; [apply length_map|].
  intros i p Hi. setoid_rewrite list_lookup_fmap. rewrite Hi. cbn [fmap option_fmap option_map].
  destruct (Participant.spokeRecently _ now (tracker p)).
  - eexists. split; [reflexivity|]. cbn. repeat split. right. split; [reflexivity|].
    intros now'. unfold Participant.getTotalSpeakingTime, Participant.getLiveSpeakingTime.
    cbn. lia.
  - exists p. auto.
Qed.

(** X6.  The timer never resets the participant who stopped last: whoever
    holds the greatest [lastSpeakingEnd] (nonzero) is left as is. *)
Theorem resetInterrupted_keeps_latest_speaker (now : Z) (participants : list Tracked)
    (i : nat) (p : Tracked) (e : Z) :
  participants !! i = Some p ->
  lastEnd p = Some e ->
  e <> 0%Z ->
  (forall q, q ∈ participants -> (toNumber (lastEnd q) <= e)%Z) ->
  resetInterrupted now participants !! i = Some p.
Proof.
  intros Hi He Hne Hmax.
  destruct participants as [|first rest]; [inversion Hi|].
  rewrite resetInterrupted_cons.
  assert (Hm : mathMax (lastEnd first) (map lastEnd rest) = e).
  { apply mathMax_spec. split.
    - intros x Hx. apply (elem_of_map lastEnd (first :: rest)) in Hx as (q & -> & Hq).
      apply Hmax. exact Hq.
    - exists (Some e). split; [|reflexivity].
      apply (elem_of_map lastEnd (first :: rest)). exists p. split; [symmetry; exact He|].
      apply list_elem_of_lookup. eauto. }
  rewrite Hm. setoid_rewrite list_lookup_fmap. rewrite Hi.
  cbn [fmap option_fmap option_map].
  rewrite spokeRecently_nonzero_reference by exact Hne. cbn in He. rewrite He.
  rewrite (proj2 (Z.ltb_ge e (e - 2000))) by lia. reflexivity.
Qed.

Lemma map_id_where (g : Tracked -> Tracked) (l : list Tracked) :
  Forall (λ q, lastEnd q = None) l ->
  (forall q, lastEnd q = None -> g q = q) ->
  map g l = l.
Proof.
  intros Hall Hg. induction Hall as [|q l Hq _ IH]; [reflexivity|].
  cbn [map]. rewrite (Hg q Hq), IH. reflexivity.
Qed.

(** X7.  With positive timestamps the timer is idempotent: a second tick,
    at whatever time, resets nobody that the first one left alone.  (A
    participant is reset again only after a new pause.) *)
Theorem resetInterrupted_idempotent (now now' : Z) (participants : list Tracked) :
  (forall q e, q ∈ participants -> lastEnd q = Some e -> (0 < e)%Z) ->
  resetInterrupted now' (resetInterrupted now participants)
  = resetInterrupted now participants.
Proof.
  intros Hpos.
  destruct participants as [|first rest]; [reflexivity|].
  set (ps := first :: rest) in *.
  set (m := mathMax (lastEnd first) (map lastEnd rest)).
  set (f := λ p : Tracked,
              if Participant.spokeRecently (Some m) now (tracker p)
              then setTracker (Participant.stopSpeaking (tracker p)) p else p).
  assert (Hres : resetInterrupted now ps = map f ps) by reflexivity.
  rewrite Hres.
  destruct (decide (Forall (λ q, lastEnd q = None) ps)) as [Hall|Hsome].
  - (* nobody has paused yet: nothing happens, twice *)
    assert (Hf : map f ps = ps).
    { apply map_id_where; [exact Hall|].
      intros q Hq. unfold f. rewrite spokeRecently_unset by exact Hq. reflexivity. }
    rewrite Hf. subst ps. rewrite resetInterrupted_cons.
    apply map_id_where; [exact Hall|].
    intros q Hq. rewrite spokeRecently_unset by exact Hq. reflexivity.
  - apply not_Forall_Exists in Hsome; [|intros q; apply _].
    apply Exists_exists in Hsome as (q1 & Hq1 & Hq1e).
    destruct (lastEnd q1) as [e1|] eqn:He1; [|contradiction]. clear Hq1e.
    pose proof (Hpos q1 e1 Hq1 He1) as He1pos.
    assert (Hspec := proj1 (mathMax_spec (lastEnd first) (map lastEnd rest) m) eq_refl).
    destruct Hspec as [Hub (x0 & Hx0 & Hx0m)].
    assert (Hmpos : (0 < m)%Z).
    { specialize (Hub (Some e1)). cbn in Hub. cbn in He1.
      assert ((e1 <= m)%Z); [|lia].
      apply Hub. apply (elem_of_map lastEnd ps). exists q1.
      split; [symmetry; exact He1 | exact Hq1]. }
    apply (elem_of_map lastEnd ps) in Hx0 as (q0 & -> & Hq0).
    assert (Hq0e : lastEnd q0 = Some m).
    { destruct (lastEnd q0) as [e0|]; cbn in Hx0m; [congruence | lia]. }
    assert (Hfq0 : f q0 = q0).
    { unfold f. rewrite spokeRecently_nonzero_reference by lia. cbn in Hq0e. rewrite Hq0e.
      rewrite (proj2 (Z.ltb_ge m (m - 2000))) by lia. reflexivity. }
    assert (Hfend : forall q, lastEnd (f q) = lastEnd q \/ lastEnd (f q) = None).
    { intros q. unfold f. destruct (Participant.spokeRecently _ now (tracker q)); auto. }
    (* the second tick computes the same reference time *)
    assert (Hm' : forall first' rest',
               map f ps = first' :: rest' ->
               mathMax (lastEnd first') (map lastEnd rest') = m).
    { intros first' rest' Heq. apply mathMax_spec. split.
      - intros x Hx. apply (elem_of_map lastEnd (first' :: rest')) in Hx as (q' & -> & Hq').
        rewrite <- Heq in Hq'. apply elem_of_map in Hq' as (q & -> & Hq).
        destruct (Hfend q) as [->| ->]; [|cbn; lia].
        apply Hub. apply (elem_of_map lastEnd ps). eauto.
      - exists (Some m). split; [|reflexivity].
        apply (elem_of_map lastEnd (first' :: rest')). exists q0.
        split; [symmetry; exact Hq0e|].
        rewrite <- Heq. apply elem_of_map. exists q0.
        split; [symmetry; exact Hfq0 | exact Hq0]. }
    destruct (map f ps) as [|first' rest'] eqn:Hmap; [reflexivity|].
    rewrite resetInterrupted_cons, (Hm' first' rest' eq_refl).
    rewrite <- Hmap. rewrite map_map.
    apply map_ext. intros q.
    destruct (Participant.spokeRecently (Some m) now (tracker q)) eqn:E.
    + assert (Hfq : f q = setTracker (Participant.stopSpeaking (tracker q)) q)
        by (unfold f; rewrite E; reflexivity).
      rewrite Hfq. rewrite spokeRecently_unset by reflexivity. reflexivity.
    + assert (Hfq : f q = q) by (unfold f; rewrite E; reflexivity).
      rewrite Hfq. rewrite spokeRecently_nonzero_reference in E by lia.
      rewrite spokeRecently_nonzero_reference by lia. rewrite E. reflexivity.
Qed.

End SummaryTimer.

(** ** The roster of tracked participants *)

Section RosterProperties.
Import ClosedCaptions MeetingController.
Variable config : Participant.Config.

Lemma startObservers_keeps (view : NodeView) (p : Tracked) :
  initialId (startObservers view p).1 = initialId p /\
  name (startObservers view p).1 = name p /\
  profileImageUrl (startObservers view p).1 = profileImageUrl p /\
  tracker (startObservers view p).1 = tracker p.
Proof.
  unfold startObservers. destruct (getMainElement view) as [main|]; [|auto].
  destruct (microphoneElement main); auto.
Qed.

Lemma startObservers_observers (view : NodeView) (p : Tracked) :
  microphoneObservers (startObservers view p).1 = microphoneObservers p \/
  microphoneObservers (startObservers view p).1 = true :: microphoneObservers p.
Proof.
  unfold startObservers. destruct (getMainElement view) as [main|]; [|auto].
  destruct (microphoneElement main); auto.
Qed.

Lemma startObservers_completion (view : NodeView) (p q : Tracked) :
  (startObservers view p).2 = (startObservers view q).2.
Proof.
  unfold startObservers. destruct (getMainElement view) as [main|]; [|reflexivity].
  destruct (microphoneElement main); reflexivity.
Qed.

Lemma newParticipant_initialId (view : NodeView) (id : jsstring) (p : Tracked) :
  newParticipant config view id = Some p -> initialId p = id.
Proof.
  unfold newParticipant. destruct (getName view); try discriminate.
  destruct (getImageProfileSrc view); try discriminate.
  intros [= <-]. reflexivity.
Qed.

Lemma getParticipantByInitialId_insert (id : jsstring) (participants : list Tracked)
    (i : nat) (p p' : Tracked) :
  getParticipantByInitialId id participants = Some (i, p) ->
  initialId p' = initialId p ->
  getParticipantByInitialId id (<[i := p']> participants) = Some (i, p').
Proof.
  intros Hfind Hid. apply list_find_Some in Hfind as (Hi & Hp & Hfirst).
  apply list_find_insert_Some. right. left.
  split; [reflexivity|]. split; [reflexivity|].
  split; [eapply lookup_lt_Some; exact Hi|].
  split; [congruence|]. intros j z Hz Hlt. apply (Hfirst j z Hz Hlt).
Qed.

Lemma getParticipantByInitialId_snoc (id : jsstring) (participants : list Tracked)
    (p : Tracked) :
  getParticipantByInitialId id participants = None ->
  initialId p = id ->
  getParticipantByInitialId id (participants ++ [p]) = Some (length participants, p).
Proof.
  intros Hfind Hid. unfold getParticipantByInitialId.
  rewrite list_find_app_r by exact Hfind.
  cbn [list_find]. rewrite decide_True by exact Hid.
  cbn. rewrite ?Nat.add_0_r. reflexivity.
Qed.

Lemma map_insert_same {A B : Type} (f : A -> B) (l : list A) (i : nat) (x y : A) :
  l !! i = Some x -> f y = f x -> map f (<[i := y]> l) = map f l.
Proof.
  revert i. induction l as [|a l IH]; intros i Hi Hf; [reflexivity|].
  destruct i as [|i]; cbn in *.
  - injection Hi as ->. rewrite Hf. reflexivity.
  - f_equal. apply (IH i Hi Hf).
Qed.

(** X9.  Adding a node never tracks an id twice, and never touches the
    identity, the place or the speaking times of a participant who is
    tracked already, whether the call returns or throws: a box that shows
    up again does not reset its participant. *)
Theorem onParticipantNodeAdded_keeps_roster (view : NodeView) (participants : list Tracked) :
  NoDup (map initialId participants) ->
  NoDup (map initialId (onParticipantNodeAdded config view participants).1) /\
  forall i p,
    participants !! i = Some p ->
    exists p',
      (onParticipantNodeAdded config view participants).1 !! i = Some p' /\
      initialId p' = initialId p /\ name p' = name p /\
      profileImageUrl p' = profileImageUrl p /\ tracker p' = tracker p.
Proof.
  intros Hnd. unfold onParticipantNodeAdded.
  assert (Hsame : forall i p, participants !! i = Some p ->
            exists p', participants !! i = Some p' /\
              initialId p' = initialId p /\ name p' = name p /\
              profileImageUrl p' = profileImageUrl p /\ tracker p' = tracker p)
    by (intros i p Hi; exists p; auto).
  destruct (isPresentationNode view); [cbn; auto|].
  destruct (truthyString (getParticipantInitialId view)); [|cbn; auto].
  cbv zeta.
  destruct (getParticipantByInitialId _ participants) as [[j found]|] eqn:Hfind.
  - apply list_find_Some in Hfind as (Hj & Hid & _).
    destruct (startObservers_keeps view found) as (K1 & K2 & K3 & K4).
    destruct (startObservers view found) as [found' c]. cbn [fst] in *.
    split.
    + rewrite (map_insert_same initialId participants j found) by assumption. exact Hnd.
    + intros i p Hi. destruct (decide (j = i)) as [->|Hne].
      * rewrite list_lookup_insert_eq by (eapply lookup_lt_Some; exact Hi).
        replace p with found by congruence. eauto 6.
      * rewrite list_lookup_insert_ne by exact Hne. eauto 6.
  - destruct (newParticipant config view _) as [participant|] eqn:Enew; [|cbn; auto].
    assert (Hid : initialId participant = orEmpty (getParticipantInitialId view)).
    { unfold newParticipant in Enew.
      destruct (getName view); try discriminate.
      destruct (getImageProfileSrc view); try discriminate.
      injection Enew as <-. reflexivity. }
    destruct (startObservers_keeps view participant) as (K1 & _).
    destruct (startObservers view participant) as [participant' c]. cbn [fst] in *.
    destruct (negb (isPresentationBox participant)); [|cbn; auto].
    cbn [fst]. split.
    + rewrite map_app. cbn [map]. rewrite K1, Hid.
      apply NoDup_app. split; [exact Hnd|]. split; [|apply NoDup_singleton].
      intros x Hx Hin. apply list_elem_of_singleton in Hin. subst x.
      apply list_find_None in Hfind.
      apply list_elem_of_In, in_map_iff in Hx as (q & Hq & HqIn).
      apply (proj1 (Forall_forall _ _) Hfind q); [apply list_elem_of_In; exact HqIn | exact Hq].
    + intros i p Hi. exists p. rewrite lookup_app_l by (eapply lookup_lt_Some; exact Hi). auto.
Qed.

Lemma onParticipantNodeAdded_found (view : NodeView) (participants : list Tracked)
    (i : nat) (p : Tracked) :
  isPresentationNode view = false ->
  truthyString (getParticipantInitialId view) = true ->
  getParticipantByInitialId (orEmpty (getParticipantInitialId view)) participants
    = Some (i, p) ->
  onParticipantNodeAdded config view participants
  = (<[i := (startObservers view p).1]> participants, (startObservers view p).2).
Proof.
  intros Hpres Hid Hfind. unfold onParticipantNodeAdded.
  rewrite Hpres, Hid. cbv zeta. rewrite Hfind.
  destruct (startObservers view p); reflexivity.
Qed.

(** After a call, either the array is as it was, or the participant of
    the node is tracked. *)
Lemma onParticipantNodeAdded_tracks (view : NodeView) (participants : list Tracked) :
  (onParticipantNodeAdded config view participants).1 = participants \/
  (isPresentationNode view = false /\
   truthyString (getParticipantInitialId view) = true /\
   exists i p,
     getParticipantByInitialId (orEmpty (getParticipantInitialId view))
       (onParticipantNodeAdded config view participants).1 = Some (i, p) /\
     (startObservers view p).2 = (onParticipantNodeAdded config view participants).2).
Proof.
  unfold onParticipantNodeAdded.
  destruct (isPresentationNode view); [left; reflexivity|].
  destruct (truthyString (getParticipantInitialId view)); [|left; reflexivity].
  cbv zeta.
  destruct (getParticipantByInitialId _ participants) as [[i found]|] eqn:Hfind.
  - right. split; [reflexivity|]. split; [reflexivity|].
    destruct (startObservers_keeps view found) as (K1 & _).
    pose proof (startObservers_completion view (startObservers view found).1 found) as Hc.
    destruct (startObservers view found) as [found' c]. cbn [fst snd] in *.
    exists i, found'. split; [|exact Hc].
    apply (getParticipantByInitialId_insert _ _ _ found); assumption.
  - destruct (newParticipant config view _) as [participant|] eqn:Enew; [|left; reflexivity].
    pose proof (newParticipant_initialId _ _ _ Enew) as Hid.
    destruct (startObservers_keeps view participant) as (K1 & _).
    pose proof (startObservers_completion view (startObservers view participant).1
                  participant) as Hc.
    destruct (startObservers view participant) as [participant' c]. cbn [fst snd] in *.
    destruct (negb (isPresentationBox participant)); [|left; reflexivity].
    right. split; [reflexivity|]. split; [reflexivity|]. cbn [fst snd].
    exists (length participants), participant'. split; [|exact Hc].
    apply getParticipantByInitialId_snoc; [exact Hfind | congruence].
Qed.

(** X10.  Adding the same node a second time, the document unchanged,
    ends as the first call ended and adds nobody: every participant keeps
    its place, id, name, image and speaking times.  It disconnects no
    observer; and when the node is a participant box whose participant is
    tracked and whose microphone element exists, it connects one more
    observer for that participant, beside those connected before. *)
Theorem onParticipantNodeAdded_twice (view : NodeView) (participants : list Tracked) :
  let once := onParticipantNodeAdded config view participants in
  let twice := onParticipantNodeAdded config view once.1 in
  twice.2 = once.2 /\
  length twice.1 = length once.1 /\
  (forall i p1,
     once.1 !! i = Some p1 ->
     exists p2,
       twice.1 !! i = Some p2 /\
       initialId p2 = initialId p1 /\ name p2 = name p1 /\
       profileImageUrl p2 = profileImageUrl p1 /\ tracker p2 = tracker p1 /\
       (microphoneObservers p2 = microphoneObservers p1 \/
        microphoneObservers p2 = true :: microphoneObservers p1)) /\
  (forall i p1 main,
     isPresentationNode view = false ->
     truthyString (getParticipantInitialId view) = true ->
     getMainElement view = Some main ->
     microphoneElement main = true ->
     getParticipantByInitialId (orEmpty (getParticipantInitialId view)) once.1 = Some (i, p1) ->
     exists p2,
       twice.1 !! i = Some p2 /\
       microphoneObservers p2 = true :: microphoneObservers p1).
Proof.
  intros once twice. split; [|split; [|split]].
  4:{ intros i p1 main Hpres Hid Hmain Hmic Hfind. unfold twice.
      rewrite (onParticipantNodeAdded_found view once.1 i p1 Hpres Hid Hfind). cbn [fst].
      apply list_find_Some in Hfind as (Hi & _ & _).
      rewrite list_lookup_insert_eq by (eapply lookup_lt_Some; exact Hi).
      eexists. split; [reflexivity|].
      unfold startObservers. rewrite Hmain, Hmic. reflexivity. }
  all: destruct (onParticipantNodeAdded_tracks view participants)
         as [Hsame|(Hpres & Hid & i & p & Hfind & Hc)];
       [assert (Ht : twice = once) by (unfold twice, once; rewrite Hsame; reflexivity)
       |assert (Ht : twice = (<[i := (startObservers view p).1]> once.1,
                              (startObservers view p).2))
          by exact (onParticipantNodeAdded_found view once.1 i p Hpres Hid Hfind)];
       rewrite Ht; cbn [fst snd].
  - reflexivity.
  - exact Hc.
  - reflexivity.
  - apply length_insert.
  - intros j p1 Hj. exists p1. auto 10.
  - intros j p1 Hj. fold once in Hfind.
    pose proof Hfind as Hfind'. apply list_find_Some in Hfind' as (Hi & _ & _).
    destruct (decide (i = j)) as [<-|Hne].
    + rewrite list_lookup_insert_eq by (eapply lookup_lt_Some; exact Hi).
      replace p1 with p by congruence.
      destruct (startObservers_keeps view p) as (K1 & K2 & K3 & K4).
      eexists. split; [reflexivity|]. repeat (split; [assumption|]).
      apply startObservers_observers.
    + rewrite list_lookup_insert_ne by exact Hne. exists p1. auto 10.
Qed.

Lemma getTotalSpokenTime_sum (now : Z) (participants : list Tracked) :
  forall acc : Z,
    foldl (λ a q, a + Participant.getTotalSpeakingTime now (tracker q))%Z acc participants
    = (acc + foldr Z.add 0%Z
               (map (λ q, Participant.getTotalSpeakingTime now (tracker q)) participants))%Z.
Proof.
  induction participants as [|p l IH]; intros acc; cbn [foldl foldr map]; [lia|].
  rewrite IH. lia.
Qed.

(** X11.  When the box of a tracked participant goes away, the roster keeps
    the same participants in the same order and the total spoken time of
    the meeting, read at that instant, is what it was; the participant's own
    total stops growing at the value it had then, its live time being
    committed and not lost.  Without an observer the call throws and changes
    nothing. *)
Theorem onParticipantNodeRemoved_commits (view : NodeView) (now : Z)
    (participants : list Tracked) :
  map initialId (onParticipantNodeRemoved config view now participants).1
    = map initialId participants /\
  getTotalSpokenTime now (onParticipantNodeRemoved config view now participants).1
    = getTotalSpokenTime now participants /\
  (forall i p,
     getParticipantByInitialId (orEmpty (getParticipantInitialId view)) participants
       = Some (i, p) ->
     truthyString (getParticipantInitialId view) = true ->
     if microphoneObserver p then
       exists p', (onParticipantNodeRemoved config view now participants).1 !! i = Some p' /\
                  Participant.lastSpeakingEnd (tracker p') = Some now /\
                  forall now', Participant.getTotalSpeakingTime now' (tracker p')
                               = Participant.getTotalSpeakingTime now (tracker p)
     else onParticipantNodeRemoved config view now participants = (participants, TypeError)).
Proof.
  unfold onParticipantNodeRemoved.
  destruct (truthyString (getParticipantInitialId view)); [|cbn; repeat split; discriminate].
  destruct (getParticipantByInitialId _ participants) as [[j found]|] eqn:Hfind;
    [|cbn; repeat split; discriminate].
  pose proof Hfind as Hfind0. apply list_find_Some in Hfind as (Hj & Hid & _).
  unfold stopObservers.
  destruct (microphoneObservers found) as [|newest older] eqn:Eobs; cbn [fst].
  - rewrite list_insert_id by exact Hj.
    split; [reflexivity|]. split; [reflexivity|].
    intros i p Heq _. injection Heq as <- <-.
    unfold microphoneObserver. rewrite Eobs. reflexivity.
  - split; [|split].
    + apply (map_insert_same initialId participants j found); [exact Hj | reflexivity].
    + unfold getTotalSpokenTime. rewrite !getTotalSpokenTime_sum. f_equal.
      f_equal.
      apply (map_insert_same _ participants j found); [exact Hj|]. cbn [tracker].
      apply pauseSpeaking_keeps_readings.
    + intros i p Heq _. injection Heq as <- <-.
      unfold microphoneObserver. rewrite Eobs.
      eexists. split; [apply list_lookup_insert_eq; eapply lookup_lt_Some; exact Hj|].
      cbn [tracker].
      unfold Participant.pauseSpeaking, Participant.incrementSpeakingTime,
        Participant.getTotalSpeakingTime, Participant.getLiveSpeakingTime.
      cbn. destruct (truthy (Participant.speakingStrikeStart (tracker found))) eqn:E; cbn.
      * split; [reflexivity|]. intros now'. lia.
      * rewrite E. cbn. split; [reflexivity|]. intros now'. lia.
Qed.

Lemma indexOf_fresh (c : ascii) (s t : jsstring) :
  c ∉ s -> indexOf c (s ++ c :: t) = Some (length s) /\ indexOf c s = None.
Proof.
  induction s as [|x s IH]; intros Hc; cbn.
  - rewrite bool_decide_true by reflexivity. auto.
  - apply not_elem_of_cons in Hc as [Hx Hs].
    rewrite bool_decide_false by congruence.
    destruct (IH Hs) as [-> ->]. auto.
Qed.

(** X8.  For a path made of a slash and an id without question mark,
    [getMeetingId] is the id.  When a question mark follows the id, the
    result is the id with the question mark: the cut is measured on the path
    that still has its slash. *)
Theorem getMeetingId_of_path (id rest : jsstring) :
  "?"%char ∉ id ->
  getMeetingId ("/"%char :: id) = id /\
  getMeetingId ("/"%char :: id ++ "?"%char :: rest) = id ++ ["?"%char].
Proof.
  intros Hid. destruct (indexOf_fresh "?"%char id rest Hid) as [H1 H2].
  unfold getMeetingId. cbn [indexOf removeFirst].
  rewrite !bool_decide_false by discriminate.
  rewrite bool_decide_true by reflexivity.
  rewrite H1, H2. cbn [fmap option_fmap option_map length]. split.
  - apply firstn_all2. lia.
  - replace (id ++ "?"%char :: rest) with ((id ++ ["?"%char]) ++ rest)
      by (rewrite <- app_assoc; reflexivity).
    apply take_app_length'. rewrite length_app. cbn. lia.
Qed.

End RosterProperties.

(** * More on the caption reconciliation engine *)

Section ClosedCaptionsRunsProperties.
Import ClosedCaptions ClosedCaptionsRuns.

(** ** What finalization does to the contents of the turns *)

Lemma flagsRaised_refl (e : ClosedCaptionEvent) : flagsRaised e e.
Proof. repeat split; auto. Qed.

Lemma flagsRaised_trans (e1 e2 e3 : ClosedCaptionEvent) :
  flagsRaised e1 e2 -> flagsRaised e2 e3 -> flagsRaised e1 e3.
Proof. unfold flagsRaised. intros (A & B & C) (A' & B' & C'). split; [congruence | auto]. Qed.

Lemma raisedWithin_refl (refs : list nat) (st : list ClosedCaptionEvent) :
  raisedWithin refs st st.
Proof.
  split; [reflexivity|]. split; [|reflexivity].
  intros r e He. exists e. split; [exact He | apply flagsRaised_refl].
Qed.

Lemma raisedWithin_trans (refs refs' : list nat) (st1 st2 st3 : list ClosedCaptionEvent) :
  refs ⊆ refs' ->
  raisedWithin refs st1 st2 -> raisedWithin refs' st2 st3 -> raisedWithin refs' st1 st3.
Proof.
  intros Hsub (L1 & R1 & F1) (L2 & R2 & F2). split; [congruence|]. split.
  - intros r e He. destruct (R1 r e He) as (e2 & He2 & Hr2).
    destruct (R2 r e2 He2) as (e3 & He3 & Hr3).
    exists e3. split; [exact He3 | exact (flagsRaised_trans _ _ _ Hr2 Hr3)].
  - intros r Hr. rewrite F2 by exact Hr. apply F1. intros Hin. apply Hr, Hsub, Hin.
Qed.

Lemma raisedWithin_trans_same (refs : list nat) (st1 st2 st3 : list ClosedCaptionEvent) :
  raisedWithin refs st1 st2 -> raisedWithin refs st2 st3 -> raisedWithin refs st1 st3.
Proof. apply raisedWithin_trans. intros x Hx. exact Hx. Qed.

Lemma raisedWithin_alter (f : ClosedCaptionEvent -> ClosedCaptionEvent)
    (refs : list nat) (i : nat) (st : list ClosedCaptionEvent) :
  (forall e, flagsRaised e (f e)) -> i ∈ refs -> raisedWithin refs st (alter f i st).
Proof.
  intros Hf Hi. split; [apply length_alter|]. split.
  - intros r e He. destruct (decide (i = r)) as [->|Hne].
    + rewrite list_lookup_alter, He, decide_True by reflexivity.
      exists (f e). split; [reflexivity | apply Hf].
    + rewrite list_lookup_alter_ne by exact Hne. exists e. split; [exact He|].
      apply flagsRaised_refl.
  - intros r Hr. apply list_lookup_alter_ne. intros ->. contradiction.
Qed.

Lemma markInterjections_raised (evs : list nat) (count : nat) :
  forall (turnIdx : nat) (st : list ClosedCaptionEvent),
    raisedWithin evs st (markInterjections evs turnIdx count st).
Proof.
  induction count as [|count IH]; intros turnIdx st; cbn [markInterjections].
  - apply raisedWithin_refl.
  - eapply raisedWithin_trans_same; [|apply IH].
    destruct (evs !! turnIdx) as [r|] eqn:Er; [|apply raisedWithin_refl].
    apply raisedWithin_alter; [repeat split; auto|].
    apply list_elem_of_lookup. eauto.
Qed.

Lemma scanBack_raised (turnCount : nat) (cc : ClosedCaptions) :
  forall candidates : nat,
    raisedWithin (events cc) (store cc) (store (scanBack candidates turnCount cc)).
Proof.
  induction candidates as [|idx IH]; cbn [scanBack]; [apply raisedWithin_refl|].
  destruct (turnAt cc (turnCount - 1)) as [currentTurn|]; [|apply raisedWithin_refl].
  destruct (turnAt cc idx) as [turn|]; [|apply raisedWithin_refl].
  destruct (bool_decide _).
  - destruct (_ && _); [|apply raisedWithin_refl]. cbn [store].
    eapply raisedWithin_trans_same; [apply markInterjections_raised|].
    destruct (events cc !! (turnCount - 1)) as [r|] eqn:Er; [|apply raisedWithin_refl].
    apply raisedWithin_alter; [repeat split; auto|].
    apply list_elem_of_lookup. eauto.
  - destruct (_ >? _)%Z; [apply raisedWithin_refl | exact IH].
Qed.

Lemma _addEvent_raised (event : nat) (cc : ClosedCaptions) :
  raisedWithin (events cc ++ [event]) (store cc) (store (_addEvent event cc)).
Proof.
  unfold _addEvent. destruct (3 <=? _); [|apply raisedWithin_refl].
  exact (scanBack_raised _ (pushEvent event cc) _).
Qed.

Lemma finalizes_refl (cc : ClosedCaptions) : finalizes cc cc.
Proof.
  split; [|apply raisedWithin_refl].
  exists 0. rewrite take_0, drop_0, app_nil_r. auto.
Qed.

Lemma finalizes_step (cc cc' : ClosedCaptions) :
  finalizes (_finalizeOldestBufferedEvent cc) cc' -> finalizes cc cc'.
Proof.
  destruct (eventsBuffer cc) as [|r rest] eqn:Hb.
  - unfold _finalizeOldestBufferedEvent. rewrite Hb. auto.
  - destruct (_finalizeOldestBufferedEvent_frame cc r rest Hb) as (Hev & Hbuf & Hlen).
    pose proof (_addEvent_raised r
                  {| store := store cc; events := events cc; eventsBuffer := rest |}) as Hr.
    cbn [store events] in Hr.
    assert (Heq : _finalizeOldestBufferedEvent cc
                  = _addEvent r {| store := store cc; events := events cc;
                                   eventsBuffer := rest |}).
    { unfold _finalizeOldestBufferedEvent. rewrite Hb. reflexivity. }
    rewrite <- Heq in Hr.
    intros [(k & Hev' & Hbuf') Hr']. rewrite Hev, Hbuf in *. split.
    + exists (S k). rewrite Hb. cbn [take drop]. rewrite Hev', Hbuf', <- app_assoc. auto.
    + eapply (raisedWithin_trans (events cc ++ [r])); [|exact Hr|exact Hr'].
      rewrite Hev'. intros x Hx. apply elem_of_app. left. exact Hx.
Qed.

Lemma finalizeWhileLonger_finalizes (newLength : nat) :
  forall (fuel : nat) (cc : ClosedCaptions),
    finalizes cc (finalizeWhileLonger fuel newLength cc).
Proof.
  induction fuel as [|fuel IH]; intros cc; cbn [finalizeWhileLonger];
    [apply finalizes_refl|].
  destruct (newLength <? _); [|apply finalizes_refl].
  apply finalizes_step, IH.
Qed.

Lemma finalizeWhileMisaligned_finalizes (newEvents : list ClosedCaptionEvent) :
  forall (fuel : nat) (cc : ClosedCaptions),
    finalizes cc (finalizeWhileMisaligned fuel newEvents cc).
Proof.
  induction fuel as [|fuel IH]; intros cc; cbn [finalizeWhileMisaligned];
    [apply finalizes_refl|].
  destruct (misaligned _ _); [|apply finalizes_refl].
  apply finalizes_step, IH.
Qed.

Lemma finalizes_trans (cc1 cc2 cc3 : ClosedCaptions) :
  finalizes cc1 cc2 -> finalizes cc2 cc3 -> finalizes cc1 cc3.
Proof.
  intros [(k & Hev & Hbuf) Hr] [(k' & Hev' & Hbuf') Hr']. split.
  - exists (k + k'). rewrite Hev', Hbuf', Hev, Hbuf, <- app_assoc.
    rewrite drop_drop. split; [|reflexivity]. f_equal.
    apply take_take_drop.
  - eapply (raisedWithin_trans (events cc2)); [|exact Hr|exact Hr'].
    rewrite Hev'. intros x Hx. apply elem_of_app. auto.
Qed.

(** The phases of [mergeLatestCC]: the state [ccb] that the loop of the
    merge starts from is the state given, some buffered turns finalized. *)
Lemma mergeLatestCC_finalizes (now : Z) (dialogs : list dialog) (cc : ClosedCaptions) :
  exists ccb : ClosedCaptions,
    finalizes cc ccb /\
    length (eventsBuffer ccb) <= length (scrape now dialogs) /\
    misaligned (scrape now dialogs) ccb = false /\
    (eventsBuffer cc = [] -> ccb = cc) /\
    mergeLatestCC now dialogs cc
      = mergeEvents (scrape now dialogs) 0 (length (scrape now dialogs)) ccb.
Proof.
  unfold mergeLatestCC. cbv zeta.
  set (newEvents := scrape now dialogs).
  pose proof (finalizeWhileLonger_spec (length newEvents) (length (eventsBuffer cc)) cc)
    as (A1 & A2 & A3 & A4).
  pose proof (finalizeWhileLonger_finalizes (length newEvents) (length (eventsBuffer cc)) cc)
    as FA.
  set (cca := finalizeWhileLonger (length (eventsBuffer cc)) (length newEvents) cc) in *.
  pose proof (finalizeWhileMisaligned_spec newEvents (length (eventsBuffer cca)) cca)
    as (B1 & B2 & B3 & B4 & B5).
  pose proof (finalizeWhileMisaligned_finalizes newEvents (length (eventsBuffer cca)) cca)
    as FB.
  set (ccb := finalizeWhileMisaligned (length (eventsBuffer cca)) newEvents cca) in *.
  exists ccb.
  assert (Hle : length (eventsBuffer ccb) <= length newEvents).
  { specialize (A3 (Nat.le_refl _)). lia. }
  split; [exact (finalizes_trans _ _ _ FA FB)|]. split; [exact Hle|].
  split; [apply B4; lia|].
  split.
  { intros Hnil. assert (Hcca : cca = cc) by (apply A4; rewrite Hnil; cbn; lia).
    rewrite Hcca in B5. apply B5, misaligned_nil_buffer, Hnil. }
  rewrite (proj2 (Nat.leb_le _ _) Hle). reflexivity.
Qed.

Lemma finalizes_wf (cc ccb : ClosedCaptions) : finalizes cc ccb -> wf cc -> wf ccb.
Proof.
  intros [(k & Hev & Hbuf) (Hlen & _)]. apply wf_held; [|exact Hlen].
  rewrite Hev, Hbuf, <- app_assoc, take_drop. reflexivity.
Qed.

Lemma finalizes_held (cc ccb : ClosedCaptions) :
  finalizes cc ccb -> wf cc ->
  forall r, r ∈ events ccb -> r ∉ eventsBuffer ccb.
Proof.
  intros Hfin Hwf r Hev Hbuf.
  destruct (finalizes_wf _ _ Hfin Hwf) as [Hnd _].
  apply NoDup_app in Hnd as (_ & Hdisj & _). exact (Hdisj r Hev Hbuf).
Qed.

(** C7.  In every state the engine can reach, a call of [mergeLatestCC] that
    returns leaves a buffer with as many turns as the snapshot has dialogs
    with exactly two inner blocks, and no turn is held by the buffer and by
    the finalized log at once: every turn held is held exactly once.
    Finalization moves a turn from one container to the other: the call
    has moved the oldest [k] turns of the buffer to the end of the log, in
    their order, and nothing else has entered or left the log; the other
    turns of the buffer have stayed, followed by the [j] turns that the call
    has created.  One call of [_finalizeOldestBufferedEvent] takes the
    oldest turn from the buffer and puts it at the end of the log. *)
Theorem buffer_length_and_ownership (now : Z) (dialogs : list dialog)
    (cc cc' : ClosedCaptions) :
  reachable cc ->
  mergeLatestCC now dialogs cc = (cc', Normal tt) ->
  length (eventsBuffer cc') = length (filter (λ d : dialog, length d = 2) dialogs) /\
  (forall r, r ∈ eventsBuffer cc' -> r ∉ events cc') /\
  NoDup (events cc' ++ eventsBuffer cc') /\
  (exists k j : nat,
     events cc' = events cc ++ take k (eventsBuffer cc) /\
     eventsBuffer cc' = drop k (eventsBuffer cc) ++ seq (length (store cc)) j) /\
  (forall r rest,
     eventsBuffer cc = r :: rest ->
     events (_finalizeOldestBufferedEvent cc) = events cc ++ [r] /\
     eventsBuffer (_finalizeOldestBufferedEvent cc) = rest).
Proof.
  intros Hreach Hrun. apply reachable_wf in Hreach.
  destruct (mergeLatestCC_finalizes now dialogs cc) as (ccb & Hfin & Hle & _ & _ & Heq).
  rewrite Heq in Hrun.
  pose proof (finalizes_wf _ _ Hfin Hreach) as Hwfb.
  destruct Hfin as [(k & Hev & Hbuf) (Hst & _)].
  apply mergeEvents_spec in Hrun; [|exact Hwfb].
  destruct Hrun as ([Hnd Hb] & Hev' & (j & Hbuf' & _) & _ & _ & _ & Hlen & _).
  split; [|split; [|split; [|split]]].
  - rewrite Hlen by (auto; lia). rewrite Nat.add_0_l. apply scrape_length.
  - intros r Hin Hev0. apply NoDup_app in Hnd as (_ & Hdisj & _).
    exact (Hdisj r Hev0 Hin).
  - exact Hnd.
  - exists k, j. rewrite Hev', Hbuf', Hev, Hbuf, Hst. auto.
  - intros r rest Hb0.
    destruct (_finalizeOldestBufferedEvent_frame cc r rest Hb0) as (H1 & H2 & _). auto.
Qed.

(** X12.  A call of [mergeLatestCC] appends to the log and never rewrites
    it: the log after the call is the log before it followed by the oldest
    turns of the buffer, in their order; the buffer is what is left of it,
    followed by the turns created by the call, which get the next free
    references of the store. *)
Theorem mergeLatestCC_finalizes_in_order (now : Z) (dialogs : list dialog)
    (cc : ClosedCaptions) :
  reachable cc ->
  exists k j : nat,
    events (mergeLatestCC now dialogs cc).1 = events cc ++ take k (eventsBuffer cc) /\
    eventsBuffer (mergeLatestCC now dialogs cc).1
      = drop k (eventsBuffer cc) ++ seq (length (store cc)) j /\
    length (store (mergeLatestCC now dialogs cc).1) = length (store cc) + j.
Proof.
  intros Hreach. apply reachable_wf in Hreach.
  destruct (mergeLatestCC_finalizes now dialogs cc) as (ccb & Hfin & _ & _ & _ & ->).
  pose proof (finalizes_wf _ _ Hfin Hreach) as Hwfb.
  destruct Hfin as [(k & Hev & Hbuf) (Hlen & _)].
  destruct (mergeEvents _ _ _ ccb) as [cc' c] eqn:Hrun. cbn [fst].
  apply mergeEvents_spec in Hrun; [|exact Hwfb].
  destruct Hrun as (_ & Hev' & (j & Hbuf' & Hst') & _).
  exists k, j. rewrite Hev', Hbuf', Hst', Hev, Hbuf, Hlen. auto.
Qed.

(** X13.  A turn that is in the log after a call of [mergeLatestCC], be it
    finalized by that call or before, has the content it had when the call
    began: its times, speaker, text and length are not touched, and its
    flags can only be raised.  The snapshot that finalizes a turn is never
    merged into it. *)
Theorem finalized_turn_keeps_content (now : Z) (dialogs : list dialog)
    (cc : ClosedCaptions) (r : nat) (e : ClosedCaptionEvent) :
  reachable cc ->
  r ∈ events (mergeLatestCC now dialogs cc).1 ->
  store cc !! r = Some e ->
  exists e', store (mergeLatestCC now dialogs cc).1 !! r = Some e' /\ flagsRaised e e'.
Proof.
  intros Hreach. apply reachable_wf in Hreach.
  destruct (mergeLatestCC_finalizes now dialogs cc) as (ccb & Hfin & _ & _ & _ & ->).
  pose proof (finalizes_wf _ _ Hfin Hreach) as Hwfb.
  pose proof (finalizes_held _ _ Hfin Hreach) as Hheld.
  destruct Hfin as [_ (Hlen & Hraised & _)].
  destruct (mergeEvents _ _ _ ccb) as [cc' c] eqn:Hrun. cbn [fst].
  apply mergeEvents_spec in Hrun; [|exact Hwfb].
  destruct Hrun as (_ & Hev' & _ & _ & Hframe & _).
  intros Hin He. rewrite Hev' in Hin.
  destruct (Hraised r e He) as (e' & He' & Hr).
  exists e'. split; [|exact Hr].
  rewrite Hframe; [exact He' | apply Hheld, Hin | eapply lookup_lt_Some; exact He'].
Qed.

Lemma scrape_nil (now : Z) (dialogs : list dialog) :
  Forall (λ d : dialog, length d ≠ 2) dialogs -> scrape now dialogs = [].
Proof.
  unfold scrape. induction 1 as [|d dialogs Hd _ IH]; [reflexivity|].
  cbn [omap list_omap]. rewrite IH.
  destruct d as [|a [|t [|x d]]]; try reflexivity. contradiction Hd. reflexivity.
Qed.

(** X14.  A snapshot without a well-formed dialog, the empty panel for one,
    ends every turn in flight: the call returns, the buffer is empty
    afterwards, and its turns have gone to the end of the log in their
    order, their contents untouched. *)
Theorem empty_snapshot_flushes_buffer (now : Z) (dialogs : list dialog)
    (cc : ClosedCaptions) :
  Forall (λ d : dialog, length d ≠ 2) dialogs ->
  (mergeLatestCC now dialogs cc).2 = Normal tt /\
  events (mergeLatestCC now dialogs cc).1 = events cc ++ eventsBuffer cc /\
  eventsBuffer (mergeLatestCC now dialogs cc).1 = [] /\
  forall r e, store cc !! r = Some e ->
    exists e', store (mergeLatestCC now dialogs cc).1 !! r = Some e' /\ flagsRaised e e'.
Proof.
  intros Hall.
  destruct (mergeLatestCC_finalizes now dialogs cc) as (ccb & Hfin & Hle & _ & _ & ->).
  rewrite (scrape_nil now dialogs Hall) in *. cbn [mergeEvents fst snd length] in *.
  destruct Hfin as [(k & Hev & Hbuf) (_ & Hraised & _)].
  assert (Hnil : eventsBuffer ccb = []) by (apply length_zero_iff_nil; lia).
  split; [reflexivity|]. split; [|split; [exact Hnil | exact Hraised]].
  rewrite Hev. f_equal. apply take_ge.
  rewrite Hnil in Hbuf. symmetry in Hbuf. apply drop_nil_inv in Hbuf. exact Hbuf.
Qed.

Lemma mergeEvents_push_all (newLength : nat) (remaining : list ClosedCaptionEvent) :
  forall (idx : nat) (cc : ClosedCaptions),
    length (eventsBuffer cc) <= idx ->
    mergeEvents remaining idx newLength cc
    = ({| store := store cc ++ remaining; events := events cc;
          eventsBuffer := eventsBuffer cc ++ seq (length (store cc)) (length remaining) |},
       Normal tt).
Proof.
  induction remaining as [|newEvent remaining IH]; intros idx cc Hle; cbn [mergeEvents].
  - cbn. rewrite !app_nil_r. destruct cc; reflexivity.
  - rewrite (proj2 (Nat.ltb_ge _ _) Hle).
    rewrite IH by (cbn [eventsBuffer]; rewrite length_app; cbn; lia).
    cbn [store events eventsBuffer length seq].
    rewrite <- !app_assoc, length_app. cbn [length app].
    replace (length (store cc) + 1) with (S (length (store cc))) by lia. reflexivity.
Qed.

(** X15.  With nothing in flight, a snapshot is taken as it is: the call
    returns, every well-formed dialog becomes a new turn at the end of the
    store, built by the constructor at the clock of the call, the buffer
    holds these turns in the order of the panel, and the log is as it was. *)
Theorem mergeLatestCC_on_empty_buffer (now : Z) (dialogs : list dialog)
    (cc : ClosedCaptions) :
  eventsBuffer cc = [] ->
  mergeLatestCC now dialogs cc
  = ({| store := store cc ++ scrape now dialogs;
        events := events cc;
        eventsBuffer := seq (length (store cc)) (length (scrape now dialogs)) |},
     Normal tt).
Proof.
  intros Hnil.
  destruct (mergeLatestCC_finalizes now dialogs cc) as (ccb & _ & _ & _ & Hsame & ->).
  rewrite (Hsame Hnil).
  rewrite mergeEvents_push_all by (rewrite Hnil; cbn; lia).
  rewrite Hnil. reflexivity.
Qed.

End ClosedCaptionsRunsProperties.

Section ClosedCaptionsTiming.
Import ClosedCaptions ClosedCaptionsRuns.
Local Open Scope Z_scope.

(** ** Times and lengths of the turns under a clock that does not go back *)

Lemma timed_later (c now : Z) (e : ClosedCaptionEvent) : c <= now -> timed c e -> timed now e.
Proof. unfold timed. lia. Qed.

Lemma timed_flagsRaised (c : Z) (e e' : ClosedCaptionEvent) :
  flagsRaised e e' -> timed c e -> timed c e'.
Proof.
  unfold flagsRaised, content, timed. intros (Hc & _) H.
  injection Hc as -> -> _ _ ->. exact H.
Qed.

Lemma scrapedAt_timed (now : Z) (e : ClosedCaptionEvent) : scrapedAt now e -> timed now e.
Proof.
  intros (author & text & ->). unfold timed, newClosedCaptionEvent. cbn.
  pose proof (wordsInString_pos text). unfold BASE_SEQUENCE_PER_WORD_LENGTH_MS. lia.
Qed.

Lemma scrape_scrapedAt (now : Z) (dialogs : list dialog) :
  Forall (scrapedAt now) (scrape now dialogs).
Proof.
  unfold scrape. induction dialogs as [|d dialogs IH]; [constructor|].
  cbn [omap list_omap].
  destruct d as [|a [|t [|x d]]]; try exact IH.
  constructor; [|exact IH]. exists a, t. reflexivity.
Qed.

Lemma completeFromUpdate_timed (now : Z) (this partialUpdate : ClosedCaptionEvent)
    (sameTime : bool) :
  timed now this -> scrapedAt now partialUpdate ->
  timed now (completeFromUpdate this partialUpdate sameTime).1 /\
  howLong this <= howLong (completeFromUpdate this partialUpdate sameTime).1.
Proof.
  intros (H1 & H2 & H3) (author & text & ->).
  pose proof (wordsInString_pos text) as Hw.
  unfold completeFromUpdate, timed, newClosedCaptionEvent in *.
  unfold BASE_SEQUENCE_PER_WORD_LENGTH_MS in *. cbn [when whenSpokeLast howLong what].
  destruct (_ && _); destruct (mergeStrings _ _); cbn; lia.
Qed.

(** The loop of the merge keeps the turns timed, and shortens none. *)
Lemma mergeEvents_timed (now : Z) (newLength : nat) (remaining : list ClosedCaptionEvent) :
  forall (idx : nat) (cc : ClosedCaptions),
    Forall (scrapedAt now) remaining ->
    (forall r e, store cc !! r = Some e -> timed now e) ->
    (forall r e', store (mergeEvents remaining idx newLength cc).1 !! r = Some e' ->
                  timed now e') /\
    (forall r e, store cc !! r = Some e ->
       exists e', store (mergeEvents remaining idx newLength cc).1 !! r = Some e' /\
                  howLong e <= howLong e').
Proof.
  induction remaining as [|newEvent remaining IH]; intros idx cc Hnew Hall.
  - cbn. split; [exact Hall|]. intros r e He. exists e. split; [exact He | lia].
  - apply Forall_cons in Hnew as [Hhead Hnew].
    assert (Hrefl : forall r e, store cc !! r = Some e ->
              exists e', store cc !! r = Some e' /\ howLong e <= howLong e')
      by (intros r e He; exists e; split; [exact He | lia]).
    cbn [mergeEvents]. destruct (idx <? length (eventsBuffer cc))%nat.
    + destruct (eventsBuffer cc !! idx) as [r0|]; [|cbn; auto].
      destruct (store cc !! r0) as [this|] eqn:Ethis; [|cbn; auto].
      destruct (completeFromUpdate_timed now this newEvent
                  (negb (idx =? newLength - 1)%nat) (Hall r0 this Ethis) Hhead)
        as [Htimed Hlong].
      destruct (completeFromUpdate this newEvent _) as [this' c1]. cbn [fst] in *.
      set (cc1 := {| store := <[r0 := this']> (store cc); events := events cc;
                     eventsBuffer := eventsBuffer cc |}).
      assert (Hall1 : forall r e, store cc1 !! r = Some e -> timed now e).
      { intros r e. cbn [cc1 store]. destruct (decide (r0 = r)) as [<-|Hne].
        - rewrite list_lookup_insert_eq by (eapply lookup_lt_Some; exact Ethis).
          intros [= <-]. exact Htimed.
        - rewrite list_lookup_insert_ne by exact Hne. apply Hall. }
      assert (Hlong1 : forall r e, store cc !! r = Some e ->
                exists e', store cc1 !! r = Some e' /\ howLong e <= howLong e').
      { intros r e He. cbn [cc1 store]. destruct (decide (r0 = r)) as [<-|Hne].
        - rewrite list_lookup_insert_eq by (eapply lookup_lt_Some; exact Ethis).
          exists this'. split; [reflexivity|]. replace e with this by congruence. exact Hlong.
        - rewrite list_lookup_insert_ne by exact Hne. exists e. split; [exact He | lia]. }
      destruct c1 as [[]| |]; [|cbn [fst]; auto..].
      destruct (IH (S idx) cc1 Hnew Hall1) as [IH1 IH2]. split; [exact IH1|].
      intros r e He. destruct (Hlong1 r e He) as (e1 & He1 & Hle1).
      destruct (IH2 r e1 He1) as (e' & He' & Hle'). exists e'. split; [exact He' | lia].
    + set (cc1 := {| store := store cc ++ [newEvent]; events := events cc;
                     eventsBuffer := eventsBuffer cc ++ [length (store cc)] |}).
      assert (Hall1 : forall r e, store cc1 !! r = Some e -> timed now e).
      { intros r e. cbn [cc1 store]. intros He.
        apply lookup_app_Some in He as [He|[_ He]]; [exact (Hall r e He)|].
        apply list_lookup_singleton_Some in He as [_ <-]. apply scrapedAt_timed, Hhead. }
      destruct (IH (S idx) cc1 Hnew Hall1) as [IH1 IH2]. split; [exact IH1|].
      intros r e He. apply IH2. cbn [cc1 store]. apply lookup_app_l_Some. exact He.
Qed.

Lemma mergeLatestCC_timed (c now : Z) (dialogs : list dialog) (cc : ClosedCaptions) :
  c <= now ->
  (forall r e, store cc !! r = Some e -> timed c e) ->
  (forall r e', store (mergeLatestCC now dialogs cc).1 !! r = Some e' -> timed now e') /\
  (forall r e, store cc !! r = Some e ->
     exists e', store (mergeLatestCC now dialogs cc).1 !! r = Some e' /\
                howLong e <= howLong e').
Proof.
  intros Hc Hall.
  destruct (mergeLatestCC_finalizes now dialogs cc) as (ccb & Hfin & _ & _ & _ & ->).
  destruct Hfin as [_ (Hlen & Hraised & _)].
  assert (Hallb : forall r e, store ccb !! r = Some e -> timed now e).
  { intros r e He.
    destruct (lookup_lt_is_Some_2 (store cc) r) as [e0 He0];
      [rewrite <- Hlen; eapply lookup_lt_Some; exact He|].
    destruct (Hraised r e0 He0) as (e' & He' & Hr).
    replace e with e' by congruence.
    apply (timed_flagsRaised now e0 e' Hr), (timed_later c now e0 Hc), (Hall r e0 He0). }
  destruct (mergeEvents_timed now (length (scrape now dialogs)) (scrape now dialogs) 0%nat ccb
              (scrape_scrapedAt now dialogs) Hallb) as [H1 H2].
  split; [exact H1|].
  intros r e He. destruct (Hraised r e He) as (eb & Heb & (Hcontent & _)).
  destruct (H2 r eb Heb) as (e' & He' & Hle). exists e'. split; [exact He'|].
  unfold content in Hcontent. injection Hcontent as _ _ _ _ Hhl. lia.
Qed.

Lemma reachableBy_all_timed (c : Z) (cc : ClosedCaptions) :
  reachableBy c cc -> forall r e, store cc !! r = Some e -> timed c e.
Proof.
  induction 1 as [c|c now dialogs cc _ IH Hc|c cc _ IH].
  - intros r e He. cbn in He. rewrite lookup_nil in He. discriminate He.
  - exact (proj1 (mergeLatestCC_timed c now dialogs cc Hc IH)).
  - exact IH.
Qed.

(** X16.  As long as the clock does not go back between the calls, every
    turn the engine holds, in flight or finalized, is at least as long as
    the base length of one word, was last extended no later than the last
    clock reading, and started at least a base length before it. *)
Theorem stored_turns_are_timed (c : Z) (cc : ClosedCaptions) (r : nat)
    (e : ClosedCaptionEvent) :
  reachableBy c cc ->
  store cc !! r = Some e ->
  BASE_SEQUENCE_PER_WORD_LENGTH_MS <= howLong e /\
  whenSpokeLast e <= c /\
  when e + BASE_SEQUENCE_PER_WORD_LENGTH_MS <= c.
Proof. intros Hreach He. exact (reachableBy_all_timed c cc Hreach r e He). Qed.

(** X17.  As long as the clock does not go back, a call of [mergeLatestCC]
    shortens no turn: every turn of the store is still there after the call,
    and its length has grown or is what it was. *)
Theorem mergeLatestCC_never_shortens (c now : Z) (dialogs : list dialog)
    (cc : ClosedCaptions) (r : nat) (e : ClosedCaptionEvent) :
  reachableBy c cc ->
  c <= now ->
  store cc !! r = Some e ->
  exists e', store (mergeLatestCC now dialogs cc).1 !! r = Some e' /\
             howLong e <= howLong e'.
Proof.
  intros Hreach Hc He.
  exact (proj2 (mergeLatestCC_timed c now dialogs cc Hc (reachableBy_all_timed c cc Hreach))
           r e He).
Qed.

End ClosedCaptionsTiming.

Section ClosedCaptionsBuffer.
Import ClosedCaptions ClosedCaptionsRuns.

(** ** The turns in flight *)

Lemma scrapedAt_unflagged (now : Z) (e : ClosedCaptionEvent) :
  scrapedAt now e -> interjection e = false /\ continuation e = false.
Proof. intros (author & text & ->). auto. Qed.

Lemma mergeEvents_unflagged (now : Z) (newLength : nat) (remaining : list ClosedCaptionEvent) :
  forall (idx : nat) (cc : ClosedCaptions),
    Forall (scrapedAt now) remaining ->
    (forall r e, r ∈ eventsBuffer cc -> store cc !! r = Some e ->
                 interjection e = false /\ continuation e = false) ->
    forall r e,
      r ∈ eventsBuffer (mergeEvents remaining idx newLength cc).1 ->
      store (mergeEvents remaining idx newLength cc).1 !! r = Some e ->
      interjection e = false /\ continuation e = false.
Proof.
  induction remaining as [|newEvent remaining IH]; intros idx cc Hnew Hall; [exact Hall|].
  apply Forall_cons in Hnew as [Hhead Hnew].
  cbn [mergeEvents]. destruct (idx <? length (eventsBuffer cc)).
  - destruct (eventsBuffer cc !! idx) as [r0|] eqn:Er0; [|exact Hall].
    destruct (store cc !! r0) as [this|] eqn:Ethis; [|exact Hall].
    pose proof (completeFromUpdate_frame this newEvent (negb (idx =? newLength - 1)))
      as (_ & _ & Hi & Hc).
    destruct (completeFromUpdate this newEvent _) as [this' c1]. cbn [fst] in *.
    set (cc1 := {| store := <[r0 := this']> (store cc); events := events cc;
                   eventsBuffer := eventsBuffer cc |}).
    assert (Hall1 : forall r e, r ∈ eventsBuffer cc1 -> store cc1 !! r = Some e ->
                      interjection e = false /\ continuation e = false).
    { intros r e. cbn [cc1 store eventsBuffer]. intros Hin.
      destruct (decide (r0 = r)) as [<-|Hne].
      - rewrite list_lookup_insert_eq by (eapply lookup_lt_Some; exact Ethis).
        intros [= <-]. rewrite Hi, Hc. exact (Hall r0 this Hin Ethis).
      - rewrite list_lookup_insert_ne by exact Hne. apply Hall, Hin. }
    destruct c1 as [[]| |]; [|exact Hall1..].
    exact (IH (S idx) cc1 Hnew Hall1).
  - apply IH; [exact Hnew|].
    intros r e. cbn [store eventsBuffer]. intros Hin He.
    apply lookup_app_Some in He as [He|[_ He]].
    + apply (Hall r e); [|exact He].
      apply elem_of_app in Hin as [Hin|Hin]; [exact Hin|].
      apply list_elem_of_singleton in Hin. apply lookup_lt_Some in He. lia.
    + apply list_lookup_singleton_Some in He as [_ <-].
      exact (scrapedAt_unflagged now newEvent Hhead).
Qed.

Lemma reachable_buffer_unflagged (cc : ClosedCaptions) :
  reachable cc ->
  forall r e, r ∈ eventsBuffer cc -> store cc !! r = Some e ->
              interjection e = false /\ continuation e = false.
Proof.
  induction 1 as [|now dialogs cc Hreach IH|cc _ IH].
  - intros r e Hin. inversion Hin.
  - apply reachable_wf in Hreach.
    destruct (mergeLatestCC_finalizes now dialogs cc) as (ccb & Hfin & _ & _ & _ & ->).
    apply (mergeEvents_unflagged now); [apply scrape_scrapedAt|].
    pose proof (finalizes_held _ _ Hfin Hreach) as Hheld.
    destruct Hfin as [(k & Hev & Hbuf) (_ & _ & Hframe)].
    intros r e Hin He. rewrite Hframe in He.
    + apply (IH r e); [|exact He].
      rewrite Hbuf in Hin. exact (subseteq_drop k (eventsBuffer cc) r Hin).
    + intros Hev'. exact (Hheld r Hev' Hin).
  - exact IH.
Qed.

(** X18.  A turn in flight is never classified: in every state the engine
    can reach, no turn of the buffer is marked as an interjection or as a
    continuation.  The flags are set at finalization only. *)
Theorem buffered_turns_are_unflagged (cc : ClosedCaptions) (r : nat)
    (e : ClosedCaptionEvent) :
  reachable cc ->
  r ∈ eventsBuffer cc ->
  store cc !! r = Some e ->
  interjection e = false /\ continuation e = false.
Proof. intros Hreach. exact (reachable_buffer_unflagged cc Hreach r e). Qed.

(** With [sameTime] the times of the turn are left alone. *)
Lemma completeFromUpdate_sameTime (this partialUpdate : ClosedCaptionEvent) :
  howLong (completeFromUpdate this partialUpdate true).1 = howLong this /\
  whenSpokeLast (completeFromUpdate this partialUpdate true).1 = whenSpokeLast this.
Proof.
  unfold completeFromUpdate. rewrite andb_false_r.
  destruct (mergeStrings _ _); auto.
Qed.

(** The loop of the merge extends the turn at the last index of the
    snapshot, and no other. *)
Lemma mergeEvents_retimes_last (newLength : nat) (remaining : list ClosedCaptionEvent) :
  forall (idx : nat) (cc : ClosedCaptions) (r : nat) (e : ClosedCaptionEvent),
    store cc !! r = Some e ->
    eventsBuffer cc !! (newLength - 1) ≠ Some r ->
    exists e', store (mergeEvents remaining idx newLength cc).1 !! r = Some e' /\
               howLong e' = howLong e /\ whenSpokeLast e' = whenSpokeLast e.
Proof.
  induction remaining as [|newEvent remaining IH]; intros idx cc r e He Hlast.
  - exists e. auto.
  - assert (Hrefl : exists e', store cc !! r = Some e' /\
                      howLong e' = howLong e /\ whenSpokeLast e' = whenSpokeLast e)
      by (exists e; auto).
    cbn [mergeEvents]. destruct (idx <? length (eventsBuffer cc)).
    + destruct (eventsBuffer cc !! idx) as [r0|] eqn:Er0; [|exact Hrefl].
      destruct (store cc !! r0) as [this|] eqn:Ethis; [|exact Hrefl].
      pose proof (completeFromUpdate_sameTime this newEvent) as Hsame.
      destruct (completeFromUpdate this newEvent (negb (idx =? newLength - 1)))
        as [this' c1] eqn:Erun.
      set (cc1 := {| store := <[r0 := this']> (store cc); events := events cc;
                     eventsBuffer := eventsBuffer cc |}).
      assert (H1 : exists e1, store cc1 !! r = Some e1 /\
                     howLong e1 = howLong e /\ whenSpokeLast e1 = whenSpokeLast e).
      { cbn [cc1 store]. destruct (decide (r0 = r)) as [->|Hne].
        - rewrite list_lookup_insert_eq by (eapply lookup_lt_Some; exact He).
          exists this'. split; [reflexivity|].
          assert (Hidx : (idx =? newLength - 1) = false).
          { apply Nat.eqb_neq. intros ->. contradiction. }
          rewrite Hidx in Erun. cbn [negb] in Erun. rewrite Erun in Hsame. cbn [fst] in Hsame.
          replace e with this by congruence. exact Hsame.
        - rewrite list_lookup_insert_ne by exact Hne. exact Hrefl. }
      destruct c1 as [[]| |]; [|exact H1..].
      destruct H1 as (e1 & He1 & Hh1 & Hw1).
      destruct (IH (S idx) cc1 r e1 He1 Hlast) as (e' & He' & Hh' & Hw').
      exists e'. split; [exact He'|]. split; congruence.
    + apply IH; cbn [store eventsBuffer].
      * apply lookup_app_l_Some. exact He.
      * intros Hin. apply lookup_app_Some in Hin as [Hin|[_ Hin]]; [contradiction|].
        apply list_lookup_singleton_Some in Hin as [_ Hin].
        apply lookup_lt_Some in He. lia.
Qed.

(** X19.  A call of [mergeLatestCC] extends one turn at most, the last
    one of the buffer it leaves: every other turn of the store keeps its
    length and the time it was last extended. *)
Theorem only_last_buffered_turn_is_retimed (now : Z) (dialogs : list dialog)
    (cc : ClosedCaptions) (r : nat) (e : ClosedCaptionEvent) :
  reachable cc ->
  store cc !! r = Some e ->
  last (eventsBuffer (mergeLatestCC now dialogs cc).1) ≠ Some r ->
  exists e', store (mergeLatestCC now dialogs cc).1 !! r = Some e' /\
             howLong e' = howLong e /\ whenSpokeLast e' = whenSpokeLast e.
Proof.
  intros Hreach He. apply reachable_wf in Hreach.
  destruct (mergeLatestCC_finalizes now dialogs cc) as (ccb & Hfin & Hle & _ & _ & ->).
  pose proof (finalizes_wf _ _ Hfin Hreach) as Hwfb.
  destruct Hfin as [_ (_ & Hraised & _)].
  destruct (Hraised r e He) as (eb & Heb & (Hcontent & _)).
  unfold content in Hcontent. injection Hcontent as _ Hw _ _ Hh.
  intros Hlast.
  destruct (mergeEvents_retimes_last (length (scrape now dialogs)) (scrape now dialogs)
              0 ccb r eb Heb) as (e' & He' & Hh' & Hw').
  - intros Hin.
    destruct (mergeEvents (scrape now dialogs) 0 (length (scrape now dialogs)) ccb)
      as [cc' c] eqn:Hrun. cbn [fst] in Hlast.
    apply mergeEvents_spec in Hrun; [|exact Hwfb].
    destruct Hrun as (_ & _ & _ & _ & _ & _ & _ & Hfit).
    pose proof (lookup_lt_Some _ _ _ Hin) as Hlt.
    destruct Hfit as [Hbuf _]; [lia|].
    apply Hlast. rewrite Hbuf, last_lookup.
    replace (Init.Nat.pred (length (eventsBuffer ccb)))
      with (length (scrape now dialogs) - 1) by lia.
    exact Hin.
  - exists e'. split; [exact He'|]. split; congruence.
Qed.

(** X20.  A turn never changes hands: after a call of [mergeLatestCC],
    however it ends, every turn of the store is still there under its
    reference, with the speaker and the start time it was created with. *)
Theorem turn_keeps_speaker_and_start (now : Z) (dialogs : list dialog)
    (cc : ClosedCaptions) (r : nat) (e : ClosedCaptionEvent) :
  reachable cc ->
  store cc !! r = Some e ->
  exists e', store (mergeLatestCC now dialogs cc).1 !! r = Some e' /\
             who e' = who e /\ when e' = when e.
Proof.
  intros Hreach He. apply reachable_wf in Hreach.
  destruct (mergeLatestCC_finalizes now dialogs cc) as (ccb & Hfin & _ & _ & _ & ->).
  pose proof (finalizes_wf _ _ Hfin Hreach) as Hwfb.
  destruct Hfin as [_ (_ & Hraised & _)].
  destruct (Hraised r e He) as (eb & Heb & (Hcontent & _)).
  unfold content in Hcontent. injection Hcontent as Hwhen _ Hwho _ _.
  destruct (mergeEvents _ _ _ ccb) as [cc' c] eqn:Hrun. cbn [fst].
  apply mergeEvents_spec in Hrun; [|exact Hwfb].
  destruct Hrun as (_ & _ & _ & Hkeeps & _).
  destruct (Hkeeps r eb Heb) as (e' & He' & (Kwho & Kwhen & _)).
  exists e'. split; [exact He'|]. split; congruence.
Qed.

End ClosedCaptionsBuffer.

Section ClosedCaptionsAlignment.
Import ClosedCaptions ClosedCaptionsRuns.

(** X28.  After a call of [mergeLatestCC] on a snapshot that has a
    well-formed dialog, however the call ends, the buffer is not empty and
    its oldest turn is a turn of the speaker of the first such dialog: the
    buffer is aligned with the panel on its first speaker. *)
Theorem buffer_head_is_first_speaker (now : Z) (dialogs : list dialog)
    (cc : ClosedCaptions) (first : ClosedCaptionEvent) (rest : list ClosedCaptionEvent) :
  reachable cc ->
  scrape now dialogs = first :: rest ->
  exists (r : nat) (others : list nat) (e : ClosedCaptionEvent),
    eventsBuffer (mergeLatestCC now dialogs cc).1 = r :: others /\
    store (mergeLatestCC now dialogs cc).1 !! r = Some e /\
    who e = who first.
Proof.
  intros Hreach Hscrape. apply reachable_wf in Hreach.
  destruct (mergeLatestCC_finalizes now dialogs cc) as (ccb & Hfin & _ & Hal & _ & ->).
  pose proof (finalizes_wf _ _ Hfin Hreach) as Hwfb.
  rewrite Hscrape in *.
  destruct (eventsBuffer ccb) as [|r others] eqn:Hbuf.
  - rewrite mergeEvents_push_all by (rewrite Hbuf; cbn; lia).
    cbn [fst eventsBuffer store]. rewrite Hbuf. cbn [length seq app].
    exists (length (store ccb)), (seq (S (length (store ccb))) (length rest)), first.
    split; [reflexivity|]. split; [|reflexivity].
    rewrite lookup_app_r by lia. rewrite Nat.sub_diag. reflexivity.
  - unfold misaligned in Hal. rewrite Hbuf in Hal.
    assert (Hlt : r < length (store ccb)).
    { apply Hwfb, elem_of_app. right. rewrite Hbuf. apply list_elem_of_here. }
    destruct (lookup_lt_is_Some_2 _ _ Hlt) as [oldest Ho]. rewrite Ho in Hal.
    apply negb_false_iff, bool_decide_eq_true_1 in Hal.
    destruct (mergeEvents _ _ _ ccb) as [cc' c] eqn:Hrun. cbn [fst].
    apply mergeEvents_spec in Hrun; [|exact Hwfb].
    destruct Hrun as (_ & _ & (k & Hbuf' & _) & Hkeeps & _).
    destruct (Hkeeps r oldest Ho) as (e' & He' & (Kwho & _)).
    rewrite Hbuf in Hbuf'. cbn [app] in Hbuf'.
    exists r, (others ++ seq (length (store ccb)) k), e'.
    split; [exact Hbuf'|]. split; [exact He' | congruence].
Qed.

End ClosedCaptionsAlignment.

Section MergeStringsCase.
Import ClosedCaptions StringCase.

Lemma toLowerCase_idempotent (c : ascii) : toLowerCase (toLowerCase c) = toLowerCase c.
Proof. destruct c as [[] [] [] [] [] [] [] []]; reflexivity. Qed.

Lemma lowerCase_lookup (s : jsstring) (i : nat) :
  lowerCase s !! i = toLowerCase <$> s !! i.
Proof. unfold lowerCase. revert i. induction s as [|c s IH]; intros [|i]; cbn; auto. Qed.

Lemma mergeLoop_lowerCase (mainString updateString : jsstring) :
  forall (fuel idxMain idxStartMain idxUpdate : nat),
    mergeLoop fuel (lowerCase mainString) (lowerCase updateString)
      idxMain idxStartMain idxUpdate
    = mergeLoop fuel mainString updateString idxMain idxStartMain idxUpdate.
Proof.
  induction fuel as [|fuel IH]; intros idxMain idxStartMain idxUpdate; [reflexivity|].
  cbn [mergeLoop]. rewrite !lowerCase_lookup.
  replace (length (lowerCase mainString)) with (length mainString)
    by (unfold lowerCase; rewrite length_map; reflexivity).
  destruct (mainString !! idxMain) as [cm|]; destruct (updateString !! idxUpdate) as [cu|];
    cbn [fmap option_fmap option_map]; try reflexivity.
  cbv zeta. rewrite !toLowerCase_idempotent, !IH. reflexivity.
Qed.

(** X29.  On texts of code units below 256, the alphabet of [jsstring],
    where lower-casing keeps the length of a text, the merge commutes with
    lower-casing: the merge of the lower-cased texts ends as the merge of
    the texts does, and returns the lower-cased result.  Where such texts
    are spliced does not depend on their case. *)
Theorem mergeStrings_lowerCase (mainString updateString : jsstring) :
  mergeStrings (lowerCase mainString) (lowerCase updateString)
  = onResult lowerCase (mergeStrings mainString updateString).
Proof.
  unfold mergeStrings, mergeFuel.
  replace (length (lowerCase mainString)) with (length mainString)
    by (unfold lowerCase; rewrite length_map; reflexivity).
  replace (length (lowerCase updateString)) with (length updateString)
    by (unfold lowerCase; rewrite length_map; reflexivity).
  destruct (_ && _); [reflexivity|].
  rewrite mergeLoop_lowerCase.
  destruct (mergeLoop _ _ _ _ _ _) as [[s|]| |]; cbn [onResult]; try reflexivity.
  - unfold lowerCase. rewrite map_app, <- firstn_map. reflexivity.
  - unfold lowerCase. rewrite map_app. reflexivity.
Qed.

End MergeStringsCase.

(** * More on the string merge and on the time formatter *)

Section MergeStringsEdges.
Import ClosedCaptions.

(** ** The string merge: what it returns and when it throws *)

(** X21.  Whatever [mergeStrings] returns ends with the update, unaltered,
    and begins with a prefix of the main text: the merge never edits the
    update and never reorders or inserts text. *)
Theorem mergeStrings_result_shape (mainString updateString merged : jsstring) :
  mergeStrings mainString updateString = Normal merged ->
  exists s : nat, s <= length mainString /\ merged = take s mainString ++ updateString.
Proof.
  unfold mergeStrings. destruct (_ && _).
  - intros [= <-]. exists 0. split; [lia | reflexivity].
  - destruct (mergeLoop _ _ _ _ _ _) as [[s|]| |]; intros [= <-].
    + exists (min s (length mainString)). split; [lia|]. f_equal.
      destruct (Nat.le_ge_cases s (length mainString)) as [Hle|Hge].
      * rewrite Nat.min_l by exact Hle. reflexivity.
      * rewrite Nat.min_r by exact Hge. rewrite !take_ge by lia. reflexivity.
    + exists (length mainString). split; [lia|]. rewrite take_ge by lia. reflexivity.
Qed.

(** X22.  [mergeStrings] always ends.  It returns whenever the update has
    at least 15 characters or the main text has fewer than 30; with a main
    text of 30 characters or more, an empty update makes it throw. *)
Theorem mergeStrings_error_behaviour (mainString updateString : jsstring) :
  mergeStrings mainString updateString <> OutOfFuel /\
  (requiredOverlapLength <= length updateString \/ length mainString < 30 ->
   exists merged : jsstring, mergeStrings mainString updateString = Normal merged) /\
  (30 <= length mainString -> mergeStrings mainString [] = TypeError).
Proof.
  split; [apply mergeStrings_terminates|]. split; [|apply mergeStrings_empty_update_throws].
  intros [Hu|Hm]; [apply mergeStrings_no_TypeError; exact Hu|].
  destruct (Nat.lt_ge_cases (length updateString) 30) as [Hshort|Hlong].
  - exists updateString. apply mergeStrings_short; assumption.
  - apply mergeStrings_no_TypeError. unfold requiredOverlapLength. lia.
Qed.

(** The scan of a text against the same text with more behind it. *)
Lemma mergeLoop_extension (text more : jsstring) :
  forall (n fuel i : nat),
    i + n = min (length text) requiredOverlapLength -> n < fuel ->
    mergeLoop fuel text (text ++ more) i 0 i
    = if requiredOverlapLength <? length text then Normal (Some 0) else Normal None.
Proof.
  induction n as [|n IH]; intros fuel i Hi Hfuel;
    (destruct fuel as [|fuel]; [lia|]); cbn [mergeLoop].
  - destruct (requiredOverlapLength <? length text) eqn:E.
    + apply Nat.ltb_lt in E.
      rewrite (proj2 (Nat.ltb_lt i (length text))) by lia. cbn [negb].
      rewrite (proj2 (Nat.leb_le requiredOverlapLength i)) by lia. reflexivity.
    + apply Nat.ltb_ge in E.
      rewrite (proj2 (Nat.ltb_ge i (length text))) by lia. reflexivity.
  - assert (Hlt : i < length text) by lia.
    rewrite (proj2 (Nat.ltb_lt i (length text))) by lia. cbn [negb].
    rewrite (proj2 (Nat.leb_gt requiredOverlapLength i)) by lia.
    destruct (lookup_lt_is_Some_2 text i Hlt) as [c Hc].
    rewrite (lookup_app_l_Some _ _ _ _ Hc), Hc. cbv zeta.
    rewrite bool_decide_eq_true_2 by reflexivity.
    apply IH; lia.
Qed.

Lemma mergeLoop_extension_run (text more : jsstring) :
  mergeLoop (mergeFuel text) text (text ++ more) 0 0 0
  = if requiredOverlapLength <? length text then Normal (Some 0) else Normal None.
Proof.
  apply (mergeLoop_extension text more (min (length text) requiredOverlapLength));
    [reflexivity|].
  unfold mergeFuel, requiredOverlapLength. lia.
Qed.

(** X23.  A line that grows at its end is replaced by its new version:
    when the update is the main text with more text behind it, the merge is
    the update, provided that the main text is longer than 15 characters or
    that the update is shorter than 30. *)
Theorem mergeStrings_extension (mainString more : jsstring) :
  requiredOverlapLength < length mainString \/ length (mainString ++ more) < 30 ->
  mergeStrings mainString (mainString ++ more) = Normal (mainString ++ more).
Proof.
  intros Hcase. unfold mergeStrings. destruct (_ && _) eqn:Eshort; [reflexivity|].
  rewrite mergeLoop_extension_run.
  destruct Hcase as [Hlong|Hshort].
  - rewrite (proj2 (Nat.ltb_lt _ _) Hlong). reflexivity.
  - exfalso. apply andb_false_iff in Eshort as [E|E]; apply Nat.ltb_ge in E;
      rewrite length_app in *; lia.
Qed.

(** X24.  A short line that grows into a long one is doubled: when the
    main text has 15 characters at most and the update is the main text
    with more behind it, 30 characters or more in all, the scan reaches the
    end of the main text before it has matched 15 characters, and the merge
    is the main text followed by the whole update. *)
Theorem mergeStrings_doubles_short_line (mainString more : jsstring) :
  length mainString <= requiredOverlapLength ->
  30 <= length (mainString ++ more) ->
  mergeStrings mainString (mainString ++ more) = Normal (mainString ++ mainString ++ more).
Proof.
  intros Hshort Hlong. unfold mergeStrings.
  rewrite (proj2 (Nat.ltb_ge (length (mainString ++ more)) 30) Hlong), andb_false_r.
  rewrite mergeLoop_extension_run.
  rewrite (proj2 (Nat.ltb_ge _ _) Hshort). reflexivity.
Qed.

End MergeStringsEdges.

Section FormatTimeEdges.
Import Utils.
Local Open Scope Z_scope.

Lemma append_cons_not_empty (s t : string) (c : ascii) :
  (s +:+ String c t)%string <> EmptyString.
Proof. destruct s; discriminate. Qed.

(** X25.  [formatTime] reads whole seconds only: a count and the count
    rounded down to the second below are formatted alike. *)
Theorem formatTime_whole_seconds (ms : Z) :
  0 <= ms -> formatTime ms = formatTime (1000 * (ms / 1000)).
Proof.
  intros Hms.
  assert (Hq : 0 <= ms / 1000) by (apply Z.div_pos; lia).
  rewrite (formatTime_shape ms Hms), (formatTime_shape (1000 * (ms / 1000))) by lia.
  cbv zeta.
  assert (H1 : 1000 * (ms / 1000) / 1000 = ms / 1000).
  { rewrite Z.mul_comm. apply Z.div_mul. lia. }
  assert (H2 : 1000 * (ms / 1000) / 60000 = ms / 60000).
  { change 60000 with (1000 * 60). rewrite <- !Z.div_div by lia. rewrite H1. reflexivity. }
  assert (H3 : 1000 * (ms / 1000) / 3600000 = ms / 3600000).
  { change 3600000 with (1000 * 3600). rewrite <- !Z.div_div by lia. rewrite H1. reflexivity. }
  rewrite H1, H2, H3. reflexivity.
Qed.

(** X26.  Within the first 3600 hours, the counts that [formatTime] shows
    as the empty string are those under one second. *)
Theorem formatTime_empty_iff (ms : Z) :
  0 <= ms < 3600 * 3600000 ->
  formatTime ms = EmptyString <-> ms < 1000.
Proof.
  intros [Hms Hmax]. rewrite (formatTime_shape ms Hms). cbv zeta.
  assert (Hh : 0 <= ms / 3600000 < 3600).
  { split; [apply Z.div_pos; lia | apply Z.div_lt_upper_bound; lia]. }
  rewrite (Z.mod_small (ms / 3600000) 3600) by exact Hh.
  split.
  - intros Hempty.
    destruct (ms / 3600000 =? 0) eqn:Eh;
      [|exfalso; exact (append_cons_not_empty _ _ _ Hempty)].
    destruct ((ms / 60000) mod 60 =? 0) eqn:Em;
      [|exfalso; exact (append_cons_not_empty _ _ _ Hempty)].
    destruct ((ms / 1000) mod 60 =? 0) eqn:Es;
      [|exfalso; exact (append_cons_not_empty _ _ _ Hempty)].
    apply Z.eqb_eq in Eh, Em, Es.
    apply Z.div_small_iff in Eh; [|lia].
    assert (Hm0 : ms / 60000 = 0).
    { rewrite Z.mod_small in Em; [exact Em|].
      split; [apply Z.div_pos; lia | apply Z.div_lt_upper_bound; lia]. }
    apply Z.div_small_iff in Hm0; [|lia].
    assert (Hs0 : ms / 1000 = 0).
    { rewrite Z.mod_small in Es; [exact Es|].
      split; [apply Z.div_pos; lia | apply Z.div_lt_upper_bound; lia]. }
    apply Z.div_small_iff in Hs0; lia.
  - intros Hlt.
    rewrite (Z.div_small ms 3600000), (Z.div_small ms 60000), (Z.div_small ms 1000) by lia.
    reflexivity.
Qed.

(** X27.  The hours wrap at 3600: a count of 3600 hours or more is
    formatted as the count less 3600 hours, so that no more than 3599 hours
    are ever shown. *)
Theorem formatTime_wraps_at_3600_hours (ms : Z) :
  0 <= ms -> formatTime (ms + 3600 * 3600000) = formatTime ms.
Proof.
  intros Hms.
  rewrite (formatTime_shape ms Hms), (formatTime_shape (ms + 3600 * 3600000)) by lia.
  cbv zeta.
  assert (H1 : ((ms + 3600 * 3600000) / 1000) mod 60 = (ms / 1000) mod 60).
  { replace (ms + 3600 * 3600000) with (ms + (216000 * 60) * 1000) by lia.
    rewrite Z.div_add by lia. apply Z.mod_add. lia. }
  assert (H2 : ((ms + 3600 * 3600000) / 60000) mod 60 = (ms / 60000) mod 60).
  { replace (ms + 3600 * 3600000) with (ms + (3600 * 60) * 60000) by lia.
    rewrite Z.div_add by lia. apply Z.mod_add. lia. }
  assert (H3 : ((ms + 3600 * 3600000) / 3600000) mod 3600 = (ms / 3600000) mod 3600).
  { rewrite Z.div_add by lia. replace (ms / 3600000 + 3600) with (ms / 3600000 + 1 * 3600) by lia.
    apply Z.mod_add. lia. }
  rewrite H1, H2, H3. reflexivity.
Qed.

End FormatTimeEdges.

(** * Instances of the theorems above *)

(** The run [interruptedRun], read at 9000 by a participant constructed at
    0. *)
Lemma speaking_time_within_elapsed_witness :
  let p := ParticipantRuns.run Examples.config (Participant.fresh Examples.config)
             RunExamples.interruptedRun in
  (0 <= Participant.getSpeakingStrikeTime 9000 p <= Participant.getTotalSpeakingTime 9000 p /\
   Participant.getTotalSpeakingTime 9000 p <= 9000 - 0)%Z.
Proof.
  apply (speaking_time_within_elapsed Examples.config 0 9000 RunExamples.interruptedRun).
  cbn [RunExamples.interruptedRun map snd app].
  repeat (constructor; try lia).
Defined.

(** A strike opened at 3000, confirmed at 3500 and at 4000, paused at
    7000. *)
Lemma strike_measured_from_first_signal_witness :
  let p := Participant.fresh Examples.config in
  let p' := Participant.pauseSpeaking Examples.config 7000
              (foldl (λ p t, Participant.speaking Examples.config t p)
                 (Participant.speaking Examples.config 3000 p) [3500; 4000]%Z) in
  (Participant.totalSpeakingTime p' = Participant.totalSpeakingTime p + (7000 - 3000) /\
   Participant.speakingStrikeTime p' = Participant.speakingStrikeTime p + (7000 - 3000) /\
   Participant.speakingStrikeStart p' = None /\
   Participant.lastSpeakingEnd p' = Some 7000)%Z.
Proof.
  exact (strike_measured_from_first_signal Examples.config
           (Participant.fresh Examples.config) 3000 7000 [3500; 4000]%Z
           eq_refl ltac:(discriminate)).
Defined.

(** A tick at 9600 on Ana, who paused at 1000, and Ben, who paused at
    9000. *)
Lemma resetInterrupted_frame_witness :
  exists p',
    MeetingController.resetInterrupted 9600 RunExamples.roster !! 0 = Some p' /\
    MeetingController.initialId p' = MeetingController.initialId RunExamples.ana /\
    Participant.totalSpeakingTime (MeetingController.tracker p')
      = Participant.totalSpeakingTime (MeetingController.tracker RunExamples.ana) /\
    (p' = RunExamples.ana \/
     (MeetingController.tracker p'
        = Participant.stopSpeaking (MeetingController.tracker RunExamples.ana) /\
      forall now',
        Participant.getTotalSpeakingTime now' (MeetingController.tracker p')
        = Participant.totalSpeakingTime (MeetingController.tracker RunExamples.ana))).
Proof.
  exact (proj2 (resetInterrupted_frame 9600 RunExamples.roster) 0 RunExamples.ana eq_refl).
Defined.

Lemma resetInterrupted_keeps_latest_speaker_witness :
  MeetingController.resetInterrupted 9600 RunExamples.roster !! 1 = Some RunExamples.ben.
Proof.
  apply (resetInterrupted_keeps_latest_speaker 9600 RunExamples.roster 1 RunExamples.ben 9000);
    [reflexivity | reflexivity | discriminate |].
  intros q Hq. apply elem_of_cons in Hq as [->|Hq]; [vm_compute; discriminate|].
  apply list_elem_of_singleton in Hq as ->. vm_compute. discriminate.
Defined.

Lemma resetInterrupted_idempotent_witness :
  MeetingController.resetInterrupted 20000
    (MeetingController.resetInterrupted 9600 RunExamples.roster)
  = MeetingController.resetInterrupted 9600 RunExamples.roster.
Proof.
  apply (resetInterrupted_idempotent 9600 20000 RunExamples.roster).
  intros q e Hq. apply elem_of_cons in Hq as [->|Hq].
  - intros [= <-]. reflexivity.
  - apply list_elem_of_singleton in Hq as ->. intros [= <-]. reflexivity.
Defined.

(** The path of a meeting, without and with a query. *)
Lemma getMeetingId_of_path_witness :
  MeetingController.getMeetingId (ClosedCaptions.str "/abc-defg-hij")
    = ClosedCaptions.str "abc-defg-hij" /\
  MeetingController.getMeetingId (ClosedCaptions.str "/abc-defg-hij?authuser=0")
    = ClosedCaptions.str "abc-defg-hij?".
Proof.
  apply (getMeetingId_of_path (ClosedCaptions.str "abc-defg-hij")
           (ClosedCaptions.str "authuser=0")).
  refine (bool_decide_unpack _ _). vm_compute. exact I.
Defined.

(** Eve's box is added to the roster of Ana and Ben. *)
Lemma onParticipantNodeAdded_keeps_roster_witness :
  NoDup (map MeetingController.initialId
           (MeetingController.onParticipantNodeAdded Examples.config RunExamples.eveBox
              RunExamples.roster).1) /\
  forall i p,
    RunExamples.roster !! i = Some p ->
    exists p',
      (MeetingController.onParticipantNodeAdded Examples.config RunExamples.eveBox
         RunExamples.roster).1 !! i = Some p' /\
      MeetingController.initialId p' = MeetingController.initialId p /\
      MeetingController.name p' = MeetingController.name p /\
      MeetingController.profileImageUrl p' = MeetingController.profileImageUrl p /\
      MeetingController.tracker p' = MeetingController.tracker p.
Proof.
  apply (onParticipantNodeAdded_keeps_roster Examples.config RunExamples.eveBox
           RunExamples.roster).
  refine (bool_decide_unpack _ _). vm_compute. exact I.
Defined.

(** Ana's box goes away at 12000, while she is speaking since 9500. *)
Lemma onParticipantNodeRemoved_commits_witness :
  exists p',
    (MeetingController.onParticipantNodeRemoved Examples.config RunExamples.anaBox 12000
       RunExamples.roster).1 !! 0 = Some p' /\
    Participant.lastSpeakingEnd (MeetingController.tracker p') = Some 12000%Z /\
    forall now',
      Participant.getTotalSpeakingTime now' (MeetingController.tracker p')
      = Participant.getTotalSpeakingTime 12000 (MeetingController.tracker RunExamples.ana).
Proof.
  exact (proj2 (proj2 (onParticipantNodeRemoved_commits Examples.config RunExamples.anaBox
                         12000 RunExamples.roster))
           0 RunExamples.ana eq_refl eq_refl).
Defined.

(** The second snapshot of [twoLongerLines], on the state left by the
    first. *)
Lemma mergeLatestCC_finalizes_in_order_witness :
  exists k j : nat,
    ClosedCaptions.events
      (ClosedCaptions.mergeLatestCC 13000 RunExamples.benAlone RunExamples.seenTwo).1
      = ClosedCaptions.events RunExamples.seenTwo
        ++ take k (ClosedCaptions.eventsBuffer RunExamples.seenTwo) /\
    ClosedCaptions.eventsBuffer
      (ClosedCaptions.mergeLatestCC 13000 RunExamples.benAlone RunExamples.seenTwo).1
      = drop k (ClosedCaptions.eventsBuffer RunExamples.seenTwo)
        ++ seq (length (ClosedCaptions.store RunExamples.seenTwo)) j /\
    length (ClosedCaptions.store
              (ClosedCaptions.mergeLatestCC 13000 RunExamples.benAlone RunExamples.seenTwo).1)
      = length (ClosedCaptions.store RunExamples.seenTwo) + j.
Proof.
  exact (mergeLatestCC_finalizes_in_order 13000 RunExamples.benAlone RunExamples.seenTwo
           (ClosedCaptions.reachable_merge 10000 RunExamples.twoLines ClosedCaptions.initial
              ClosedCaptions.reachable_initial)).
Defined.

(** Ben alone on the panel: Ana's turn is finalized as it was. *)
Lemma finalized_turn_keeps_content_witness :
  exists e',
    ClosedCaptions.store
      (ClosedCaptions.mergeLatestCC 13000 RunExamples.benAlone RunExamples.seenTwo).1 !! 0
      = Some e' /\
    ClosedCaptionsRuns.flagsRaised RunExamples.anaTurn e'.
Proof.
  apply (finalized_turn_keeps_content 13000 RunExamples.benAlone RunExamples.seenTwo 0
           RunExamples.anaTurn
           (ClosedCaptions.reachable_merge 10000 RunExamples.twoLines ClosedCaptions.initial
              ClosedCaptions.reachable_initial)).
  - vm_compute. constructor.
  - reflexivity.
Defined.

(** The panel shows one malformed dialog: Ana's and Ben's turns are
    finalized. *)
Lemma empty_snapshot_flushes_buffer_witness :
  (ClosedCaptions.mergeLatestCC 13000 [Examples.malformedLine] RunExamples.seenTwo).2
    = ClosedCaptions.Normal tt /\
  ClosedCaptions.events
    (ClosedCaptions.mergeLatestCC 13000 [Examples.malformedLine] RunExamples.seenTwo).1
    = ClosedCaptions.events RunExamples.seenTwo
      ++ ClosedCaptions.eventsBuffer RunExamples.seenTwo /\
  ClosedCaptions.eventsBuffer
    (ClosedCaptions.mergeLatestCC 13000 [Examples.malformedLine] RunExamples.seenTwo).1 = [] /\
  forall r e, ClosedCaptions.store RunExamples.seenTwo !! r = Some e ->
    exists e',
      ClosedCaptions.store
        (ClosedCaptions.mergeLatestCC 13000 [Examples.malformedLine] RunExamples.seenTwo).1 !! r
        = Some e' /\
      ClosedCaptionsRuns.flagsRaised e e'.
Proof.
  apply (empty_snapshot_flushes_buffer 13000 [Examples.malformedLine] RunExamples.seenTwo).
  constructor; [discriminate | constructor].
Defined.

(** The first snapshot of a meeting. *)
Lemma mergeLatestCC_on_empty_buffer_witness :
  ClosedCaptions.mergeLatestCC 10000 RunExamples.twoLines ClosedCaptions.initial
  = ({| ClosedCaptions.store := [RunExamples.anaTurn; RunExamples.benTurn];
        ClosedCaptions.events := [];
        ClosedCaptions.eventsBuffer := [0; 1] |},
     ClosedCaptions.Normal tt).
Proof.
  exact (mergeLatestCC_on_empty_buffer 10000 RunExamples.twoLines ClosedCaptions.initial
           eq_refl).
Defined.

(** Ana's turn after the snapshots at 10000 and at 12000. *)
Lemma stored_turns_are_timed_witness :
  exists e,
    ClosedCaptions.store RunExamples.seenTwoLonger !! 0 = Some e /\
    (ClosedCaptions.BASE_SEQUENCE_PER_WORD_LENGTH_MS <= ClosedCaptions.howLong e /\
     ClosedCaptions.whenSpokeLast e <= 12000 /\
     ClosedCaptions.when e + ClosedCaptions.BASE_SEQUENCE_PER_WORD_LENGTH_MS <= 12000)%Z.
Proof.
  eexists. split; [vm_compute; reflexivity|].
  apply (stored_turns_are_timed 12000 RunExamples.seenTwoLonger 0).
  - exact (ClosedCaptionsRuns.reachableBy_merge 10000 12000 RunExamples.twoLongerLines
             RunExamples.seenTwo
             (ClosedCaptionsRuns.reachableBy_merge 10000 10000 RunExamples.twoLines
                ClosedCaptions.initial (ClosedCaptionsRuns.reachableBy_initial 10000)
                ltac:(lia))
             ltac:(lia)).
  - vm_compute. reflexivity.
Defined.

Lemma mergeLatestCC_never_shortens_witness :
  exists e',
    ClosedCaptions.store
      (ClosedCaptions.mergeLatestCC 12000 RunExamples.twoLongerLines RunExamples.seenTwo).1 !! 1
      = Some e' /\
    (ClosedCaptions.howLong RunExamples.benTurn <= ClosedCaptions.howLong e')%Z.
Proof.
  apply (mergeLatestCC_never_shortens 10000 12000 RunExamples.twoLongerLines
           RunExamples.seenTwo 1 RunExamples.benTurn).
  - exact (ClosedCaptionsRuns.reachableBy_merge 10000 10000 RunExamples.twoLines
             ClosedCaptions.initial (ClosedCaptionsRuns.reachableBy_initial 10000)
             ltac:(lia)).
  - lia.
  - reflexivity.
Defined.

Lemma buffered_turns_are_unflagged_witness :
  exists e,
    ClosedCaptions.store RunExamples.seenTwo !! 1 = Some e /\
    ClosedCaptions.interjection e = false /\ ClosedCaptions.continuation e = false.
Proof.
  exists RunExamples.benTurn. split; [reflexivity|].
  apply (buffered_turns_are_unflagged RunExamples.seenTwo 1 RunExamples.benTurn).
  - exact (ClosedCaptions.reachable_merge 10000 RunExamples.twoLines ClosedCaptions.initial
             ClosedCaptions.reachable_initial).
  - vm_compute. repeat constructor.
  - reflexivity.
Defined.

(** Both lines of the panel have grown: Ana's turn, which is not the last
    one, keeps its length. *)
Lemma only_last_buffered_turn_is_retimed_witness :
  exists e',
    ClosedCaptions.store
      (ClosedCaptions.mergeLatestCC 12000 RunExamples.twoLongerLines RunExamples.seenTwo).1 !! 0
      = Some e' /\
    ClosedCaptions.howLong e' = ClosedCaptions.howLong RunExamples.anaTurn /\
    ClosedCaptions.whenSpokeLast e' = ClosedCaptions.whenSpokeLast RunExamples.anaTurn.
Proof.
  apply (only_last_buffered_turn_is_retimed 12000 RunExamples.twoLongerLines
           RunExamples.seenTwo 0 RunExamples.anaTurn).
  - exact (ClosedCaptions.reachable_merge 10000 RunExamples.twoLines ClosedCaptions.initial
             ClosedCaptions.reachable_initial).
  - reflexivity.
  - vm_compute. discriminate.
Defined.

Lemma turn_keeps_speaker_and_start_witness :
  exists e',
    ClosedCaptions.store
      (ClosedCaptions.mergeLatestCC 12000 RunExamples.twoLongerLines RunExamples.seenTwo).1 !! 1
      = Some e' /\
    ClosedCaptions.who e' = ClosedCaptions.who RunExamples.benTurn /\
    ClosedCaptions.when e' = ClosedCaptions.when RunExamples.benTurn.
Proof.
  apply (turn_keeps_speaker_and_start 12000 RunExamples.twoLongerLines
           RunExamples.seenTwo 1 RunExamples.benTurn).
  - exact (ClosedCaptions.reachable_merge 10000 RunExamples.twoLines ClosedCaptions.initial
             ClosedCaptions.reachable_initial).
  - reflexivity.
Defined.

(** The long-overlap example of the design document. *)
Lemma mergeStrings_result_shape_witness :
  exists s : nat,
    s <= length Examples.weatherMain /\
    ClosedCaptions.str "It looks to me like the weather is nice today and"
    = take s Examples.weatherMain ++ Examples.weatherUpdate.
Proof.
  apply (mergeStrings_result_shape Examples.weatherMain Examples.weatherUpdate).
  vm_compute. reflexivity.
Defined.

Lemma mergeStrings_error_behaviour_witness :
  (exists merged : ClosedCaptions.jsstring,
     ClosedCaptions.mergeStrings Examples.okayMain Examples.weatherUpdate
     = ClosedCaptions.Normal merged) /\
  ClosedCaptions.mergeStrings Examples.okayMain [] = ClosedCaptions.TypeError.
Proof.
  destruct (mergeStrings_error_behaviour Examples.okayMain Examples.weatherUpdate)
    as (_ & Hreturns & Hthrows).
  split.
  - apply Hreturns. left. vm_compute. lia.
  - apply Hthrows. vm_compute. lia.
Defined.

Lemma mergeStrings_extension_witness :
  ClosedCaptions.mergeStrings Examples.weatherMain
    (Examples.weatherMain ++ ClosedCaptions.str " Let us go out")
  = ClosedCaptions.Normal (Examples.weatherMain ++ ClosedCaptions.str " Let us go out").
Proof.
  apply (mergeStrings_extension Examples.weatherMain (ClosedCaptions.str " Let us go out")).
  left. vm_compute. lia.
Defined.

Lemma mergeStrings_doubles_short_line_witness :
  ClosedCaptions.mergeStrings RunExamples.hiThere
    (RunExamples.hiThere ++ RunExamples.hiThereMore)
  = ClosedCaptions.Normal
      (ClosedCaptions.str "Hi thereHi there, how are you all doing today?").
Proof.
  apply (mergeStrings_doubles_short_line RunExamples.hiThere RunExamples.hiThereMore).
  - vm_compute. lia.
  - vm_compute. lia.
Defined.

Lemma formatTime_whole_seconds_witness :
  Utils.formatTime 65999 = Utils.formatTime (1000 * (65999 / 1000)).
Proof. apply (formatTime_whole_seconds 65999). lia. Defined.

Lemma formatTime_empty_iff_witness :
  Utils.formatTime 999 = EmptyString <-> (999 < 1000)%Z.
Proof. apply (formatTime_empty_iff 999). lia. Defined.

Lemma formatTime_wraps_at_3600_hours_witness :
  Utils.formatTime (65000 + 3600 * 3600000) = Utils.formatTime 65000.
Proof. apply (formatTime_wraps_at_3600_hours 65000). lia. Defined.

(** Ben alone on the panel, after Ana and Ben: the buffer starts with a
    turn of Ben. *)
Lemma buffer_head_is_first_speaker_witness :
  exists (r : nat) (others : list nat) (e : ClosedCaptions.ClosedCaptionEvent),
    ClosedCaptions.eventsBuffer
      (ClosedCaptions.mergeLatestCC 13000 RunExamples.benAlone RunExamples.seenTwo).1
      = r :: others /\
    ClosedCaptions.store
      (ClosedCaptions.mergeLatestCC 13000 RunExamples.benAlone RunExamples.seenTwo).1 !! r
      = Some e /\
    ClosedCaptions.who e = ClosedCaptions.str "Ben".
Proof.
  exact (buffer_head_is_first_speaker 13000 RunExamples.benAlone RunExamples.seenTwo
           (ClosedCaptions.newClosedCaptionEvent 13000 (ClosedCaptions.str "Ben")
              (ClosedCaptions.str "hi Ana how are you today"))
           []
           (ClosedCaptions.reachable_merge 10000 RunExamples.twoLines ClosedCaptions.initial
              ClosedCaptions.reachable_initial)
           eq_refl).
Defined.

(** Ana's turn is in the log and Ben's in the buffer; the panel then
    shows Eve alone: Ben's turn goes to the log and Eve's is created. *)
Lemma buffer_length_and_ownership_witness :
  let cc := RunExamples.seenBen in
  let cc' := (ClosedCaptions.mergeLatestCC 14000 RunExamples.eveAlone cc).1 in
  (ClosedCaptions.events cc = [0] /\ ClosedCaptions.eventsBuffer cc = [1]) /\
  (ClosedCaptions.events cc' = [0; 1] /\ ClosedCaptions.eventsBuffer cc' = [2]) /\
  length (ClosedCaptions.eventsBuffer cc') = 1 /\
  (forall r, r ∈ ClosedCaptions.eventsBuffer cc' -> r ∉ ClosedCaptions.events cc') /\
  NoDup (ClosedCaptions.events cc' ++ ClosedCaptions.eventsBuffer cc') /\
  (exists k j : nat,
     ClosedCaptions.events cc'
       = ClosedCaptions.events cc ++ take k (ClosedCaptions.eventsBuffer cc) /\
     ClosedCaptions.eventsBuffer cc'
       = drop k (ClosedCaptions.eventsBuffer cc)
         ++ seq (length (ClosedCaptions.store cc)) j) /\
  ClosedCaptions.events (ClosedCaptions._finalizeOldestBufferedEvent cc) = [0; 1] /\
  ClosedCaptions.eventsBuffer (ClosedCaptions._finalizeOldestBufferedEvent cc) = [].
Proof.
  intros cc cc'.
  destruct (buffer_length_and_ownership 14000 RunExamples.eveAlone cc cc')
    as (Hlen & Hdisj & Hnd & Hmove & Hone).
  - exact (ClosedCaptions.reachable_merge 13000 RunExamples.benAlone RunExamples.seenTwo
             (ClosedCaptions.reachable_merge 10000 RunExamples.twoLines
                ClosedCaptions.initial ClosedCaptions.reachable_initial)).
  - vm_compute. reflexivity.
  - split; [split; reflexivity|]. split; [split; reflexivity|].
    split; [exact Hlen|]. split; [exact Hdisj|]. split; [exact Hnd|].
    split; [exact Hmove|]. exact (Hone 1 [] eq_refl).
Defined.

(** Ana's box is added twice to the roster of Ana and Ben: the second call
    leaves her with three connected observers, the one she had and one from
    each call. *)
Lemma onParticipantNodeAdded_twice_witness :
  let once := MeetingController.onParticipantNodeAdded Examples.config RunExamples.anaBox
                RunExamples.roster in
  let twice := MeetingController.onParticipantNodeAdded Examples.config RunExamples.anaBox
                 once.1 in
  exists p2,
    twice.1 !! 0 = Some p2 /\
    MeetingController.microphoneObservers p2 = [true; true; true].
Proof.
  intros once twice.
  destruct (onParticipantNodeAdded_twice Examples.config RunExamples.anaBox RunExamples.roster)
    as (_ & _ & _ & Hmore).
  exact (Hmore 0 (MeetingController.startObservers RunExamples.anaBox RunExamples.ana).1
           {| MeetingController.nameElements := [ClosedCaptions.str "Ana"; ClosedCaptions.str "Ana"];
              MeetingController.imageProfileElement :=
                Some (Some (ClosedCaptions.str "https://example.org/photo.png"));
              MeetingController.microphoneElement := true |}
           eq_refl eq_refl eq_refl eq_refl eq_refl).
Defined.
